(** * Reactive navigator of MRPT: state machine, waypoint sequencer and
      the safety, continuation and reachability rules of the PTG pipeline

    Shallow embedding of
    - [CAbstractNavigator]: [navigate], [cancel], [suspend], [resume],
      [resetNavError], [updateCurrentPoseAndSpeeds], [doEmergencyStop],
      [navigationStep];
    - [CWaypointsNavigator]: [navigateWaypoints], [cancel],
      [navigationStep];
    - [CAbstractPTGBasedReactive]: [impl_waypoint_is_reachable],
      [onStartNewNavigation], the continuation round ("Round #2") and
      the command stage of [performNavigationStep], the safety scaling
      of [build_movement_candidate] and the collision-free factor of
      [calc_move_candidate_scores];
    - [CPTG_DiffDrive_CS]: [PTG_IsIntoDomain].

    Conventions.
    - A C++ [double] is an exact rational ([Q]): comparisons are the exact
      ones and arithmetic is exact (rounding, NaN and infinities are
      outside the model), but for the product that
      [impl_waypoint_is_reachable] compares with, which is rounded as the
      binary64 multiplication rounds it ([round_double]). A [TTimeStamp],
      an [int] and a [size_t] are integers ([Z]).
    - Member functions run in a small monad over the object: they read and
      write its fields, append to a trace the callbacks of the robot
      interface they invoke, and end by returning, by throwing a C++
      exception, or in undefined behaviour (a null or out-of-range
      access). What the robot and the clocks answer is an input of the
      function. The callbacks themselves do not throw.
    - Virtual calls are resolved along the chain [CAbstractNavigator] <-
      [CWaypointsNavigator] <- [CAbstractPTGBasedReactive].
    - Library routines whose code is outside the navigator sources
      (segment distance, pose composition, time difference, ...) are the
      members of the class [MathLib]; the navigator is verified for every
      implementation of them.
    - Locks and logging are not modelled: every entry point runs under
      the navigator's recursive mutex. *)

From Stdlib Require Import ZArith QArith Qabs Qminmax Qround List Bool Lia.
From stdpp Require Import base list.
Import ListNotations.

Local Open Scope Z_scope.
Local Open Scope Q_scope.

(** ** Numbers *)

Definition double : Type := Q.
Definition TTimeStamp : Type := Z.

Bind Scope Q_scope with double.
Bind Scope Z_scope with TTimeStamp.

Definition INVALID_TIMESTAMP : TTimeStamp := 0%Z.

(** [a < b] on doubles. *)
Definition Qltb (a b : Q) : bool :=
  match Qcompare a b with Lt => true | _ => false end.

(** [a > b] on doubles. *)
Definition Qgtb (a b : Q) : bool := Qltb b a.

(** [a <= b] on doubles. *)
Definition Qleb (a b : Q) : bool := negb (Qltb b a).

(** [std::numeric_limits<double>::max()]. *)
Definition DBL_MAX : double := inject_Z (2 ^ 1024 - 2 ^ 971).

(** ** Geometry and velocity records *)

Record TPose2D : Type := mkPose { x : double; y : double; phi : double }.
Record TPoint2D : Type := mkPoint { pt_x : double; pt_y : double }.
Record TTwist2D : Type := mkTwist { vx : double; vy : double; omega : double }.
Record TSegment2D : Type := mkSegment { point1 : TPoint2D; point2 : TPoint2D }.

(** [TPoint2D(const TPose2D&)]: drops the heading. *)
Definition TPoint2D_of_pose (p : TPose2D) : TPoint2D :=
  {| pt_x := x p; pt_y := y p |}.

(** [TPose2D::operator!=], used to detect a changed target. *)
Definition TPose2D_neqb (a b : TPose2D) : bool :=
  negb (Qeq_bool (x a) (x b) && Qeq_bool (y a) (y b) && Qeq_bool (phi a) (phi b)).

(** ** Library routines used by the navigator

    Their code lives in other MRPT libraries and in libm; the navigator is
    verified for every implementation. *)
Class MathLib : Type := {
  (** [TSegment2D::distance(const TPoint2D&)] *)
  segment_distance : TSegment2D -> TPoint2D -> double;
  (** [mrpt::system::timeDifference(t_first, t_later)], in seconds *)
  timeDifference : TTimeStamp -> TTimeStamp -> double;
  (** [mrpt::system::timestampAdd(t, seconds)] *)
  timestampAdd : TTimeStamp -> double -> TTimeStamp;
  (** [CPose2D::composeFrom(a, b)]: the pose [a (+) b] *)
  composeFrom : TPose2D -> TPose2D -> TPose2D;
  (** [CPose2D::inverseComposePoint]: a global point seen from a pose *)
  inverseComposePoint : TPose2D -> TPoint2D -> TPoint2D;
  (** [TTwist2D::rotate(ang)] *)
  twist_rotate : TTwist2D -> double -> TTwist2D;
  (** [TPoint2D::norm()] *)
  point_norm : TPoint2D -> double;
  (** [::hypot(a, b)] *)
  hypot : double -> double -> double;
  (** conversion of a [double] to the [float] field
      [TNavigationParams::targetAllowedDistance] *)
  to_float : double -> double;
  (** [TWaypoint::INVALID_NUM] *)
  INVALID_NUM : double;
  (** [CPose3DInterpolator::interpolate(t, out_pose, out_valid)] on the
      stored poses; [None] when [out_valid] is false *)
  interpolate : list (TTimeStamp * TPose2D) -> TTimeStamp -> option TPose2D
}.

(** ** The robot interface *)

(** The callbacks of [CRobot2NavInterface] the navigator invokes. *)
Inductive RobotCall : Type :=
| getNavigationTime
| getCurrentPoseAndSpeeds
| changeSpeeds
| changeSpeedsNOP
| stop (isEmergencyStop : bool)
| getEmergencyStopCmd
| startWatchdog (period_ms : Z)
| stopWatchdog
| sendNavigationStartEvent
| sendNavigationEndEvent
| sendNavigationEndDueToErrorEvent
| sendWaySeemsBlockedEvent
| sendWaypointReachedEvent (waypoint_index : Z)
| sendNewWaypointTargetEvent (waypoint_index : Z).

Definition RobotCall_eqb (a b : RobotCall) : bool :=
  match a, b with
  | getNavigationTime, getNavigationTime => true
  | getCurrentPoseAndSpeeds, getCurrentPoseAndSpeeds => true
  | changeSpeeds, changeSpeeds => true
  | changeSpeedsNOP, changeSpeedsNOP => true
  | stop e1, stop e2 => Bool.eqb e1 e2
  | getEmergencyStopCmd, getEmergencyStopCmd => true
  | startWatchdog m1, startWatchdog m2 => Z.eqb m1 m2
  | stopWatchdog, stopWatchdog => true
  | sendNavigationStartEvent, sendNavigationStartEvent => true
  | sendNavigationEndEvent, sendNavigationEndEvent => true
  | sendNavigationEndDueToErrorEvent, sendNavigationEndDueToErrorEvent => true
  | sendWaySeemsBlockedEvent, sendWaySeemsBlockedEvent => true
  | sendWaypointReachedEvent i, sendWaypointReachedEvent j => Z.eqb i j
  | sendNewWaypointTargetEvent i, sendNewWaypointTargetEvent j => Z.eqb i j
  | _, _ => false
  end.

(** Whether a trace contains a given callback. *)
Definition invoked (c : RobotCall) (trace : list RobotCall) : bool :=
  existsb (RobotCall_eqb c) trace.

(** What the robot answers to one [updateCurrentPoseAndSpeeds]:
    the value of [getNavigationTime()] and, if the call is not skipped,
    the result of [getCurrentPoseAndSpeeds] ([None]: it returned false). *)
Record PoseQuery : Type := {
  robot_time_secs : double;
  pose_reading : option (TPose2D * TTwist2D * TTimeStamp)
}.

(** ** The monad of member functions *)

(** How a call ends: it returns a value, a C++ exception leaves it, or
    its behaviour is undefined. *)
Inductive Outcome (A : Type) : Type :=
| Returned (a : A)
| Thrown
| Undefined.
Arguments Returned {A} a.
Arguments Thrown {A}.
Arguments Undefined {A}.

(** A member function on an object of type [S]: from the object, the
    object it leaves, the callbacks it invoked, and how it ended. *)
Definition Run (S A : Type) : Type := S -> S * list RobotCall * Outcome A.

#[global] Instance run_ret {S} : MRet (Run S) :=
  fun A a s => (s, [], Returned a).

#[global] Instance run_bind {S} : MBind (Run S) :=
  fun A B k m s =>
    match m s with
    | (s1, t1, Returned a) =>
        match k a s1 with (s2, t2, o) => (s2, t1 ++ t2, o) end
    | (s1, t1, Thrown) => (s1, t1, Thrown)
    | (s1, t1, Undefined) => (s1, t1, Undefined)
    end.

Definition get {S} : Run S S := fun s => (s, [], Returned s).
Definition modify {S} (f : S -> S) : Run S unit := fun s => (f s, [], Returned tt).
Definition robot {S} (c : RobotCall) : Run S unit := fun s => (s, [c], Returned tt).
Definition throw {S A} : Run S A := fun s => (s, [], Thrown).
Definition undefined {S A} : Run S A := fun s => (s, [], Undefined).
Definition when {S} (c : bool) (m : Run S unit) : Run S unit :=
  if c then m else mret tt.

(** [try { m } catch (...) { }] *)
Definition try_catch {S} (m : Run S unit) : Run S unit :=
  fun s =>
    match m s with
    | (s1, t1, Thrown) => (s1, t1, Returned tt)
    | r => r
    end.

(** A member function of a base class run on the derived object. *)
Definition lift {S T A} (proj : T -> S) (upd : S -> T -> T) (m : Run S A) : Run T A :=
  fun t => match m (proj t) with (s1, t1, o) => (upd s1 t, t1, o) end.

Definition state_of {S A} (r : S * list RobotCall * Outcome A) : S := fst (fst r).
Definition trace_of {S A} (r : S * list RobotCall * Outcome A) : list RobotCall := snd (fst r).
Definition outcome_of {S A} (r : S * list RobotCall * Outcome A) : Outcome A := snd r.

(** ** CAbstractNavigator: data *)

Inductive TState : Type := IDLE | NAVIGATING | SUSPENDED | NAV_ERROR.

Definition TState_eqb (a b : TState) : bool :=
  match a, b with
  | IDLE, IDLE | NAVIGATING, NAVIGATING
  | SUSPENDED, SUSPENDED | NAV_ERROR, NAV_ERROR => true
  | _, _ => false
  end.

Record TNavigationParams : Type := {
  target : TPose2D;
  targetAllowedDistance : double;
  targetIsRelative : bool;
  targetIsIntermediaryWaypoint : bool
}.

(** [TNavigationParams::TNavigationParams()] *)
Definition TNavigationParams_ctor : TNavigationParams :=
  {| target := mkPose 0 0 0;
     targetAllowedDistance := 5 # 10;
     targetIsRelative := false;
     targetIsIntermediaryWaypoint := false |}.

Record TRobotPoseVel : Type := {
  pose : TPose2D;
  velGlobal : TTwist2D;
  velLocal : TTwist2D;
  timestamp : TTimeStamp
}.

(** [TRobotPoseVel::TRobotPoseVel()] *)
Definition TRobotPoseVel_ctor : TRobotPoseVel :=
  {| pose := mkPose 0 0 0;
     velGlobal := mkTwist 0 0 0;
     velLocal := mkTwist 0 0 0;
     timestamp := INVALID_TIMESTAMP |}.

Record TAbstractNavigatorParams : Type := {
  dist_to_target_for_sending_event : double;
  alarm_seems_not_approaching_target_timeout : double
}.

(** [TAbstractNavigatorParams::TAbstractNavigatorParams()] *)
Definition TAbstractNavigatorParams_ctor : TAbstractNavigatorParams :=
  {| dist_to_target_for_sending_event := 0;
     alarm_seems_not_approaching_target_timeout := 30 |}.

(** The stored poses of [m_latestPoses], in increasing timestamp order
    (it is a [std::map] keyed by timestamp). *)
Definition PoseHistory : Type := list (TTimeStamp * TPose2D).

Record CAbstractNavigator : Type := {
  m_lastNavigationState : TState;
  m_navigationEndEventSent : bool;
  m_navigationState : TState;
  m_navigationParams : option TNavigationParams;
  m_lastNavTargetReached : bool;
  m_curPoseVel : TRobotPoseVel;
  m_last_curPoseVelUpdate_robot_time : double;
  m_latestPoses : PoseHistory;
  m_badNavAlarm_minDistTarget : double;
  m_badNavAlarm_lastMinDistTime : TTimeStamp;
  params_abstract_navigator : TAbstractNavigatorParams
}.

(** The constructor. The two alarm fields are not initialised by it: their
    indeterminate values are the arguments. *)
Definition CAbstractNavigator_ctor (indet_minDist : double) (indet_time : TTimeStamp)
  : CAbstractNavigator :=
  {| m_lastNavigationState := IDLE;
     m_navigationEndEventSent := false;
     m_navigationState := IDLE;
     m_navigationParams := None;
     m_lastNavTargetReached := false;
     m_curPoseVel := TRobotPoseVel_ctor;
     m_last_curPoseVelUpdate_robot_time := - (1000000000 # 1);
     m_latestPoses := [];
     m_badNavAlarm_minDistTarget := indet_minDist;
     m_badNavAlarm_lastMinDistTime := indet_time;
     params_abstract_navigator := TAbstractNavigatorParams_ctor |}.

(** Field assignments. *)
Definition set_lastNavigationState (v : TState) (n : CAbstractNavigator) :=
  {| m_lastNavigationState := v;
     m_navigationEndEventSent := m_navigationEndEventSent n;
     m_navigationState := m_navigationState n;
     m_navigationParams := m_navigationParams n;
     m_lastNavTargetReached := m_lastNavTargetReached n;
     m_curPoseVel := m_curPoseVel n;
     m_last_curPoseVelUpdate_robot_time := m_last_curPoseVelUpdate_robot_time n;
     m_latestPoses := m_latestPoses n;
     m_badNavAlarm_minDistTarget := m_badNavAlarm_minDistTarget n;
     m_badNavAlarm_lastMinDistTime := m_badNavAlarm_lastMinDistTime n;
     params_abstract_navigator := params_abstract_navigator n |}.

Definition set_navigationEndEventSent (v : bool) (n : CAbstractNavigator) :=
  {| m_lastNavigationState := m_lastNavigationState n;
     m_navigationEndEventSent := v;
     m_navigationState := m_navigationState n;
     m_navigationParams := m_navigationParams n;
     m_lastNavTargetReached := m_lastNavTargetReached n;
     m_curPoseVel := m_curPoseVel n;
     m_last_curPoseVelUpdate_robot_time := m_last_curPoseVelUpdate_robot_time n;
     m_latestPoses := m_latestPoses n;
     m_badNavAlarm_minDistTarget := m_badNavAlarm_minDistTarget n;
     m_badNavAlarm_lastMinDistTime := m_badNavAlarm_lastMinDistTime n;
     params_abstract_navigator := params_abstract_navigator n |}.

Definition set_navigationState (v : TState) (n : CAbstractNavigator) :=
  {| m_lastNavigationState := m_lastNavigationState n;
     m_navigationEndEventSent := m_navigationEndEventSent n;
     m_navigationState := v;
     m_navigationParams := m_navigationParams n;
     m_lastNavTargetReached := m_lastNavTargetReached n;
     m_curPoseVel := m_curPoseVel n;
     m_last_curPoseVelUpdate_robot_time := m_last_curPoseVelUpdate_robot_time n;
     m_latestPoses := m_latestPoses n;
     m_badNavAlarm_minDistTarget := m_badNavAlarm_minDistTarget n;
     m_badNavAlarm_lastMinDistTime := m_badNavAlarm_lastMinDistTime n;
     params_abstract_navigator := params_abstract_navigator n |}.

Definition set_navigationParams (v : option TNavigationParams) (n : CAbstractNavigator) :=
  {| m_lastNavigationState := m_lastNavigationState n;
     m_navigationEndEventSent := m_navigationEndEventSent n;
     m_navigationState := m_navigationState n;
     m_navigationParams := v;
     m_lastNavTargetReached := m_lastNavTargetReached n;
     m_curPoseVel := m_curPoseVel n;
     m_last_curPoseVelUpdate_robot_time := m_last_curPoseVelUpdate_robot_time n;
     m_latestPoses := m_latestPoses n;
     m_badNavAlarm_minDistTarget := m_badNavAlarm_minDistTarget n;
     m_badNavAlarm_lastMinDistTime := m_badNavAlarm_lastMinDistTime n;
     params_abstract_navigator := params_abstract_navigator n |}.

Definition set_lastNavTargetReached (v : bool) (n : CAbstractNavigator) :=
  {| m_lastNavigationState := m_lastNavigationState n;
     m_navigationEndEventSent := m_navigationEndEventSent n;
     m_navigationState := m_navigationState n;
     m_navigationParams := m_navigationParams n;
     m_lastNavTargetReached := v;
     m_curPoseVel := m_curPoseVel n;
     m_last_curPoseVelUpdate_robot_time := m_last_curPoseVelUpdate_robot_time n;
     m_latestPoses := m_latestPoses n;
     m_badNavAlarm_minDistTarget := m_badNavAlarm_minDistTarget n;
     m_badNavAlarm_lastMinDistTime := m_badNavAlarm_lastMinDistTime n;
     params_abstract_navigator := params_abstract_navigator n |}.

Definition set_poseUpdate (cur : TRobotPoseVel) (robot_time : double)
    (poses : PoseHistory) (n : CAbstractNavigator) :=
  {| m_lastNavigationState := m_lastNavigationState n;
     m_navigationEndEventSent := m_navigationEndEventSent n;
     m_navigationState := m_navigationState n;
     m_navigationParams := m_navigationParams n;
     m_lastNavTargetReached := m_lastNavTargetReached n;
     m_curPoseVel := cur;
     m_last_curPoseVelUpdate_robot_time := robot_time;
     m_latestPoses := poses;
     m_badNavAlarm_minDistTarget := m_badNavAlarm_minDistTarget n;
     m_badNavAlarm_lastMinDistTime := m_badNavAlarm_lastMinDistTime n;
     params_abstract_navigator := params_abstract_navigator n |}.

Definition set_badNavAlarm (minDist : double) (t : TTimeStamp) (n : CAbstractNavigator) :=
  {| m_lastNavigationState := m_lastNavigationState n;
     m_navigationEndEventSent := m_navigationEndEventSent n;
     m_navigationState := m_navigationState n;
     m_navigationParams := m_navigationParams n;
     m_lastNavTargetReached := m_lastNavTargetReached n;
     m_curPoseVel := m_curPoseVel n;
     m_last_curPoseVelUpdate_robot_time := m_last_curPoseVelUpdate_robot_time n;
     m_latestPoses := m_latestPoses n;
     m_badNavAlarm_minDistTarget := minDist;
     m_badNavAlarm_lastMinDistTime := t;
     params_abstract_navigator := params_abstract_navigator n |}.

Definition set_params_abstract_navigator (v : TAbstractNavigatorParams) (n : CAbstractNavigator) :=
  {| m_lastNavigationState := m_lastNavigationState n;
     m_navigationEndEventSent := m_navigationEndEventSent n;
     m_navigationState := m_navigationState n;
     m_navigationParams := m_navigationParams n;
     m_lastNavTargetReached := m_lastNavTargetReached n;
     m_curPoseVel := m_curPoseVel n;
     m_last_curPoseVelUpdate_robot_time := m_last_curPoseVelUpdate_robot_time n;
     m_latestPoses := m_latestPoses n;
     m_badNavAlarm_minDistTarget := m_badNavAlarm_minDistTarget n;
     m_badNavAlarm_lastMinDistTime := m_badNavAlarm_lastMinDistTime n;
     params_abstract_navigator := v |}.

(** ** CAbstractNavigator: member functions *)

(** What the derived per-tick decision [performNavigationStep] (pure
    virtual here) does to the base object: it invokes the robot through
    [changeSpeeds], [changeSpeedsNOP], [stop(true)] and
    [getEmergencyStopCmd], and it may call [doEmergencyStop]. *)
Inductive ReactiveAction : Type :=
| act_changeSpeeds
| act_changeSpeedsNOP
| act_stop_emergency
| act_getEmergencyStopCmd
| act_doEmergencyStop.

(** The inputs of one [navigationStep]: the robot's answer to the pose
    update, the value of [mrpt::system::getCurrentTime()], and the run of
    the derived decision step (its actions, and whether it ends by
    throwing). *)
Record StepInput : Type := {
  step_pose : PoseQuery;
  step_now : TTimeStamp;
  step_perform : list ReactiveAction;
  step_perform_throws : bool
}.

(** The inputs of one [navigate]. *)
Record NavigateInput : Type := {
  nav_pose : PoseQuery;
  nav_now : TTimeStamp
}.

(** [PREVIOUS_POSES_MAX_AGE], in seconds. *)
Definition PREVIOUS_POSES_MAX_AGE : double := 20.

(** [MIN_TIME_BETWEEN_POSE_UPDATES = 20e-3], in seconds. *)
Definition MIN_TIME_BETWEEN_POSE_UPDATES : double := 20 # 1000.

(** [m_latestPoses.insert(t, p)]: the map entry for [t] is created or
    overwritten. *)
Fixpoint poses_insert (t : TTimeStamp) (p : TPose2D) (l : PoseHistory) : PoseHistory :=
  match l with
  | [] => [(t, p)]
  | (t', p') :: r =>
      if (t <? t')%Z then (t, p) :: l
      else if (t =? t')%Z then (t, p) :: r
      else (t', p') :: poses_insert t p r
  end.

(** The pose the robot-motion segment ends at: [(++rbegin())->second]
    when there are two poses or more, [rbegin()->second] when there is
    one, nothing when the history is empty. *)
Definition previous_pose (l : PoseHistory) : option TPose2D :=
  match rev l with
  | [] => None
  | [(_, p)] => Some p
  | _ :: (_, p) :: _ => Some p
  end.

Section Navigator.
Context {ML : MathLib}.

(** The purge loop of [updateCurrentPoseAndSpeeds]: the oldest pose is
    erased while there are two or more and the oldest is more than
    [PREVIOUS_POSES_MAX_AGE] older than the newest. *)
Fixpoint poses_purge (l : PoseHistory) : PoseHistory :=
  match l with
  | (t0, _) :: ((_ :: _) as r) =>
      match last l with
      | Some (tn, _) =>
          if Qgtb (timeDifference t0 tn) PREVIOUS_POSES_MAX_AGE
          then poses_purge r else l
      | None => l
      end
  | _ => l
  end.

(** [CAbstractNavigator::stop], forwarded to the robot. *)
Definition stop_robot (isEmergencyStop : bool) : Run CAbstractNavigator unit :=
  robot (stop isEmergencyStop).

(** [CAbstractNavigator::updateCurrentPoseAndSpeeds]. A call less than
    20 ms of robot time after the last one is ignored. When the robot
    fails to report its pose the navigator is put in NAV_ERROR, an
    emergency stop is commanded and an exception is thrown;
    [m_curPoseVel] is then taken to be left as it was. *)
Definition updateCurrentPoseAndSpeeds (q : PoseQuery) : Run CAbstractNavigator unit :=
  robot getNavigationTime;;
  nav ← get;
  let last_call_age := robot_time_secs q - m_last_curPoseVelUpdate_robot_time nav in
  if Qleb 0 (m_last_curPoseVelUpdate_robot_time nav)
     && Qltb last_call_age MIN_TIME_BETWEEN_POSE_UPDATES
  then mret tt
  else
    robot getCurrentPoseAndSpeeds;;
    match pose_reading q with
    | None =>
        modify (set_navigationState NAV_ERROR);;
        try_catch (stop_robot true);;
        throw
    | Some (p, v, ts) =>
        let cur := {| pose := p; velGlobal := v;
                      velLocal := twist_rotate v (- phi p);
                      timestamp := ts |} in
        modify (fun n =>
          set_poseUpdate cur (robot_time_secs q)
            (poses_purge (poses_insert ts p (m_latestPoses n))) n)
    end.

(** [CAbstractNavigator::cancel] *)
Definition cancel : Run CAbstractNavigator unit :=
  modify (set_navigationState IDLE);;
  modify (set_lastNavTargetReached false);;
  stop_robot false.

(** [CAbstractNavigator::resume] *)
Definition resume : Run CAbstractNavigator unit :=
  nav ← get;
  when (TState_eqb (m_navigationState nav) SUSPENDED)
    (modify (set_navigationState NAVIGATING)).

(** [CAbstractNavigator::suspend] *)
Definition suspend : Run CAbstractNavigator unit :=
  nav ← get;
  when (TState_eqb (m_navigationState nav) NAVIGATING)
    (modify (set_navigationState SUSPENDED)).

(** [CAbstractNavigator::resetNavError] *)
Definition resetNavError : Run CAbstractNavigator unit :=
  nav ← get;
  when (TState_eqb (m_navigationState nav) NAV_ERROR)
    (modify (set_navigationState IDLE)).

(** [CAbstractNavigator::doEmergencyStop] *)
Definition doEmergencyStop : Run CAbstractNavigator unit :=
  try_catch (stop_robot true);;
  modify (set_navigationState NAV_ERROR).

(** [CAbstractNavigator::navigate] *)
Definition navigate (params : TNavigationParams) (i : NavigateInput)
  : Run CAbstractNavigator unit :=
  modify (set_navigationEndEventSent false);;
  modify (set_lastNavTargetReached false);;
  modify (set_navigationParams (Some params));;
  when (targetIsRelative params)
    (updateCurrentPoseAndSpeeds (nav_pose i);;
     nav ← get;
     modify (set_navigationParams (Some
       {| target := composeFrom (pose (m_curPoseVel nav)) (target params);
          targetAllowedDistance := targetAllowedDistance params;
          targetIsRelative := false;
          targetIsIntermediaryWaypoint := targetIsIntermediaryWaypoint params |})));;
  modify (set_navigationState NAVIGATING);;
  modify (set_badNavAlarm DBL_MAX (nav_now i)).

(** [onStartNewNavigation], resolved to the override of
    [CAbstractPTGBasedReactive] (which calls the empty one of
    [CWaypointsNavigator]): on the base object it re-arms the pose
    update. It also resets [m_lastSentVelCmd], a field of the derived
    object that no function of this class reads. *)
Definition onStartNewNavigation : Run CAbstractNavigator unit :=
  modify (fun n =>
    set_poseUpdate (m_curPoseVel n) (- (1000000000 # 1)) (m_latestPoses n) n).

Definition run_action (a : ReactiveAction) : Run CAbstractNavigator unit :=
  match a with
  | act_changeSpeeds => robot changeSpeeds
  | act_changeSpeedsNOP => robot changeSpeedsNOP
  | act_stop_emergency => stop_robot true
  | act_getEmergencyStopCmd => robot getEmergencyStopCmd
  | act_doEmergencyStop => doEmergencyStop
  end.

(** [performNavigationStep] as the base object sees it. *)
Fixpoint performNavigationStep (acts : list ReactiveAction) (throws : bool)
  : Run CAbstractNavigator unit :=
  match acts with
  | [] => if throws then throw else mret tt
  | a :: r => run_action a;; performNavigationStep r throws
  end.

(** The start of [case NAVIGATING] of [navigationStep]: the actions on
    entering the state, then the pose update. *)
Definition navigationStep_refresh (i : StepInput) : Run CAbstractNavigator unit :=
  nav0 ← get;
  when (negb (TState_eqb (m_lastNavigationState nav0) NAVIGATING))
    (robot (startWatchdog 1000);;
     modify (fun n =>
       set_poseUpdate (m_curPoseVel n) (m_last_curPoseVelUpdate_robot_time n) [] n);;
     onStartNewNavigation);;
  when (TState_eqb (m_lastNavigationState nav0) IDLE)
    (robot sendNavigationStartEvent);;
  updateCurrentPoseAndSpeeds (step_pose i).

(** [seg_robot_mov]: from the current pose to the previous one. *)
Definition seg_robot_mov (nav : CAbstractNavigator) : option TSegment2D :=
  match previous_pose (m_latestPoses nav) with
  | None => None
  | Some prev =>
      Some (mkSegment (TPoint2D_of_pose (pose (m_curPoseVel nav)))
                      (TPoint2D_of_pose prev))
  end.

(** The rest of [case NAVIGATING]: arrival detection, the
    "not approaching" alarm, and the derived decision step. *)
Definition navigationStep_decide (i : StepInput) : Run CAbstractNavigator unit :=
  nav ← get;
  match seg_robot_mov nav with
  | None => throw
  | Some seg =>
    match m_navigationParams nav with
    | None => undefined
    | Some p =>
      let targetDist := segment_distance seg (TPoint2D_of_pose (target p)) in
      when (negb (targetIsIntermediaryWaypoint p)
            && negb (m_navigationEndEventSent nav)
            && Qltb targetDist
                 (dist_to_target_for_sending_event (params_abstract_navigator nav)))
        (modify (set_navigationEndEventSent true);;
         robot sendNavigationEndEvent);;
      if Qltb targetDist (targetAllowedDistance p) then
        modify (set_lastNavTargetReached true);;
        when (negb (targetIsIntermediaryWaypoint p)) (stop_robot false);;
        modify (set_navigationState IDLE);;
        nav1 ← get;
        when (negb (targetIsIntermediaryWaypoint p)
              && negb (m_navigationEndEventSent nav1))
          (modify (set_navigationEndEventSent true);;
           robot sendNavigationEndEvent)
      else if Qltb targetDist (m_badNavAlarm_minDistTarget nav) then
        modify (set_badNavAlarm targetDist (step_now i));;
        performNavigationStep (step_perform i) (step_perform_throws i)
      else if Qgtb (timeDifference (m_badNavAlarm_lastMinDistTime nav) (step_now i))
                (alarm_seems_not_approaching_target_timeout
                   (params_abstract_navigator nav))
      then
        modify (set_navigationState NAV_ERROR);;
        robot sendWaySeemsBlockedEvent
      else
        performNavigationStep (step_perform i) (step_perform_throws i)
    end
  end.

(** The body of [case NAVIGATING] of [navigationStep], inside its [try]. *)
Definition navigationStep_NAVIGATING (i : StepInput) : Run CAbstractNavigator unit :=
  navigationStep_refresh i;;
  navigationStep_decide i.

(** [CAbstractNavigator::navigationStep] *)
Definition navigationStep (i : StepInput) : Run CAbstractNavigator unit :=
  nav ← get;
  let prevState := m_navigationState nav in
  match m_navigationState nav with
  | IDLE | SUSPENDED =>
      try_catch
        (when (TState_eqb (m_lastNavigationState nav) NAVIGATING)
           (robot stopWatchdog))
  | NAV_ERROR =>
      try_catch
        (when (TState_eqb (m_lastNavigationState nav) NAVIGATING
               && TState_eqb (m_navigationState nav) NAV_ERROR)
           (robot sendNavigationEndDueToErrorEvent);;
         when (TState_eqb (m_lastNavigationState nav) NAVIGATING)
           (stop_robot false;;
            robot stopWatchdog))
  | NAVIGATING =>
      try_catch (navigationStep_NAVIGATING i)
  end;;
  modify (set_lastNavigationState prevState).

End Navigator.

(** ** CWaypointsNavigator: data *)

Record TWaypoint : Type := {
  wp_target : TPoint2D;
  target_heading : double;
  allowed_distance : double;
  allow_skip : bool
}.

(** A waypoint with its navigation status ([TWaypointStatus] derives from
    [TWaypoint]). *)
Record TWaypointStatus : Type := {
  waypoint : TWaypoint;
  reached : bool;
  counter_seen_reachable : Z
}.

Record TWaypointStatusSequence : Type := {
  waypoints : list TWaypointStatus;
  timestamp_nav_started : TTimeStamp;
  final_goal_reached : bool;
  waypoint_index_current_goal : Z;
  last_robot_pose : TPose2D
}.

Record TWaypointsNavigatorParams : Type := {
  max_distance_to_allow_skip_waypoint : double;
  min_timesteps_confirm_skip_waypoints : Z
}.

(** [TWaypointsNavigatorParams::TWaypointsNavigatorParams()] *)
Definition TWaypointsNavigatorParams_ctor : TWaypointsNavigatorParams :=
  {| max_distance_to_allow_skip_waypoint := - (1);
     min_timesteps_confirm_skip_waypoints := 1 |}.

Record CWaypointsNavigator : Type := {
  base : CAbstractNavigator;
  m_waypoint_nav_status : TWaypointStatusSequence;
  params_waypoints_navigator : TWaypointsNavigatorParams
}.

Definition set_base (b : CAbstractNavigator) (w : CWaypointsNavigator) :=
  {| base := b;
     m_waypoint_nav_status := m_waypoint_nav_status w;
     params_waypoints_navigator := params_waypoints_navigator w |}.

Definition set_status (s : TWaypointStatusSequence) (w : CWaypointsNavigator) :=
  {| base := base w;
     m_waypoint_nav_status := s;
     params_waypoints_navigator := params_waypoints_navigator w |}.

Definition set_params_waypoints_navigator (p : TWaypointsNavigatorParams)
    (w : CWaypointsNavigator) :=
  {| base := base w;
     m_waypoint_nav_status := m_waypoint_nav_status w;
     params_waypoints_navigator := p |}.

Definition set_waypoints (l : list TWaypointStatus) (s : TWaypointStatusSequence) :=
  {| waypoints := l;
     timestamp_nav_started := timestamp_nav_started s;
     final_goal_reached := final_goal_reached s;
     waypoint_index_current_goal := waypoint_index_current_goal s;
     last_robot_pose := last_robot_pose s |}.

Definition set_timestamp_nav_started (t : TTimeStamp) (s : TWaypointStatusSequence) :=
  {| waypoints := waypoints s;
     timestamp_nav_started := t;
     final_goal_reached := final_goal_reached s;
     waypoint_index_current_goal := waypoint_index_current_goal s;
     last_robot_pose := last_robot_pose s |}.

Definition set_final_goal_reached (b : bool) (s : TWaypointStatusSequence) :=
  {| waypoints := waypoints s;
     timestamp_nav_started := timestamp_nav_started s;
     final_goal_reached := b;
     waypoint_index_current_goal := waypoint_index_current_goal s;
     last_robot_pose := last_robot_pose s |}.

Definition set_index (i : Z) (s : TWaypointStatusSequence) :=
  {| waypoints := waypoints s;
     timestamp_nav_started := timestamp_nav_started s;
     final_goal_reached := final_goal_reached s;
     waypoint_index_current_goal := i;
     last_robot_pose := last_robot_pose s |}.

Definition set_last_robot_pose (p : TPose2D) (s : TWaypointStatusSequence) :=
  {| waypoints := waypoints s;
     timestamp_nav_started := timestamp_nav_started s;
     final_goal_reached := final_goal_reached s;
     waypoint_index_current_goal := waypoint_index_current_goal s;
     last_robot_pose := p |}.

Definition set_reached (b : bool) (w : TWaypointStatus) :=
  {| waypoint := waypoint w; reached := b;
     counter_seen_reachable := counter_seen_reachable w |}.

Definition set_counter (c : Z) (w : TWaypointStatus) :=
  {| waypoint := waypoint w; reached := reached w;
     counter_seen_reachable := c |}.

(** [v[i]] for an [int] index. *)
Definition at_index {A} (v : list A) (i : Z) : option A :=
  if (i <? 0)%Z then None else v !! Z.to_nat i.

(** [v[i] = f(v[i])] for an index in range. *)
Definition update_index {A} (v : list A) (i : Z) (f : A -> A) : list A :=
  match at_index v i with
  | Some a => <[Z.to_nat i := f a]> v
  | None => v
  end.

(** [int(v.size())] *)
Definition size {A} (v : list A) : Z := Z.of_nat (length v).

(** The inputs of one [CWaypointsNavigator::navigationStep]: the robot's
    answer to the pose update of the waypoint part, the answers of the
    virtual [impl_waypoint_is_reachable] during this tick, the clock read
    by the [navigate] the step may issue, and the inputs of the base
    step. *)
Record WaypointStepInput : Type := {
  wp_pose : PoseQuery;
  wp_is_reachable : TPoint2D -> bool;
  wp_navigate_now : TTimeStamp;
  wp_base_step : StepInput
}.

Section Waypoints.
Context {ML : MathLib}.

(** Modelled from the spec: the headers declaring [TWaypoint],
    [TWaypointStatus] and [TWaypointStatusSequence] are not in the
    sources. A fresh status sequence has no waypoints, has not reached its
    final goal, has current-goal index -1 ("-1 until started") and no
    last robot pose (so the first tick's segment degenerates to a point);
    a fresh waypoint status is not reached and has a zero confirmation
    counter. *)
Definition TWaypointStatusSequence_ctor : TWaypointStatusSequence :=
  {| waypoints := [];
     timestamp_nav_started := INVALID_TIMESTAMP;
     final_goal_reached := false;
     waypoint_index_current_goal := (-1)%Z;
     last_robot_pose := mkPose INVALID_NUM INVALID_NUM INVALID_NUM |}.

Definition TWaypointStatus_of (w : TWaypoint) : TWaypointStatus :=
  {| waypoint := w; reached := false; counter_seen_reachable := 0%Z |}.

(** Modelled from the spec: the default waypoint, declared in the same
    missing header: no target, no heading, no allowed distance, and it
    may be skipped. *)
Definition TWaypoint_ctor : TWaypoint :=
  {| wp_target := mkPoint INVALID_NUM INVALID_NUM;
     target_heading := INVALID_NUM;
     allowed_distance := INVALID_NUM;
     allow_skip := true |}.

(** Modelled from the spec: [TWaypoint::isValid] is declared in a header
    that is not in the sources; a waypoint is valid when its target and
    its allowed distance have been given. *)
Definition isValid (w : TWaypoint) : bool :=
  negb (Qeq_bool (pt_x (wp_target w)) INVALID_NUM)
  && negb (Qeq_bool (pt_y (wp_target w)) INVALID_NUM)
  && negb (Qeq_bool (allowed_distance w) INVALID_NUM).

Definition CWaypointsNavigator_ctor (indet_minDist : double) (indet_time : TTimeStamp)
  : CWaypointsNavigator :=
  {| base := CAbstractNavigator_ctor indet_minDist indet_time;
     m_waypoint_nav_status := TWaypointStatusSequence_ctor;
     params_waypoints_navigator := TWaypointsNavigatorParams_ctor |}.

(** A member function of [CAbstractNavigator] called on the derived
    object. *)
Definition on_base {A} (m : Run CAbstractNavigator A) : Run CWaypointsNavigator A :=
  lift base set_base m.

Definition modify_status (f : TWaypointStatusSequence -> TWaypointStatusSequence)
  : Run CWaypointsNavigator unit :=
  modify (fun w => set_status (f (m_waypoint_nav_status w)) w).

(** [CWaypointsNavigator::navigateWaypoints]; [now] is the value of
    [mrpt::system::now()]. The request is checked waypoint by waypoint
    while it is copied into the resized vector, so a failed check leaves
    the prefix copied and the rest default. *)
Definition navigateWaypoints (nav_request : list TWaypoint) (now : TTimeStamp)
  : Run CWaypointsNavigator unit :=
  modify (set_status TWaypointStatusSequence_ctor);;
  modify_status (set_timestamp_nav_started now);;
  if (size nav_request <=? 0)%Z then throw
  else
    match list_find (fun w => isValid w = false) nav_request with
    | Some (i, _) =>
        modify_status (set_waypoints
          (map TWaypointStatus_of (take i nav_request)
           ++ replicate (length nav_request - i) (TWaypointStatus_of TWaypoint_ctor)));;
        throw
    | None =>
        modify_status (set_waypoints (map TWaypointStatus_of nav_request));;
        modify_status (set_index (-1)%Z)
    end.

(** [CWaypointsNavigator::cancel] *)
Definition CWaypointsNavigator_cancel : Run CWaypointsNavigator unit :=
  modify (set_status TWaypointStatusSequence_ctor);;
  on_base cancel.

(** The look-ahead loop of [navigationStep] over [idx], [idx+1], ...,
    [n] iterations at most; it returns the waypoints with their updated
    confirmation counters and [most_advanced_wp]. *)
Fixpoint skip_scan (pars : TWaypointsNavigatorParams) (robot_pose : TPose2D)
    (is_reachable : TPoint2D -> bool)
    (n : nat) (idx : Z) (wps : list TWaypointStatus) (most_advanced_wp : Z)
  : list TWaypointStatus * Z :=
  match n with
  | O => (wps, most_advanced_wp)
  | S n' =>
    if (idx <? 0)%Z then
      skip_scan pars robot_pose is_reachable n' (idx + 1)%Z wps most_advanced_wp
    else
    match at_index wps idx with
    | None => (wps, most_advanced_wp) (* not met: [idx < size wps] in the loop *)
    | Some w =>
      let wp_local_wrt_robot := inverseComposePoint robot_pose (wp_target (waypoint w)) in
      if Qgtb (max_distance_to_allow_skip_waypoint pars) 0
         && Qgtb (point_norm wp_local_wrt_robot) (max_distance_to_allow_skip_waypoint pars)
      then skip_scan pars robot_pose is_reachable n' (idx + 1)%Z wps most_advanced_wp
      else
        let '(wps1, most1) :=
          if is_reachable wp_local_wrt_robot then
            let c := (counter_seen_reachable w + 1)%Z in
            (update_index wps idx (set_counter c),
             if (c >? min_timesteps_confirm_skip_waypoints pars)%Z
             then idx else most_advanced_wp)
          else (wps, most_advanced_wp) in
        if negb (allow_skip (waypoint w)) then (wps1, most1)
        else skip_scan pars robot_pose is_reachable n' (idx + 1)%Z wps1 most1
    end
  end.

(** The loop marking the skipped waypoints [k], [k+1], ... ([n] of them)
    as reached. *)
Fixpoint mark_skipped (n : nat) (k : Z) : Run CWaypointsNavigator unit :=
  match n with
  | O => mret tt
  | S n' =>
      modify_status (fun s =>
        set_waypoints (update_index (waypoints s) k (set_reached true)) s);;
      robot (sendWaypointReachedEvent k);;
      mark_skipped n' (k + 1)%Z
  end.

(** The waypoint part of [CWaypointsNavigator::navigationStep]. *)
Definition navigationStep_waypoints (i : WaypointStepInput) : Run CWaypointsNavigator unit :=
  w0 ← get;
  if (match waypoints (m_waypoint_nav_status w0) with [] => true | _ => false end)
     || final_goal_reached (m_waypoint_nav_status w0)
  then mret tt
  else
    on_base (updateCurrentPoseAndSpeeds (wp_pose i));;
    w ← get;
    let wps := m_waypoint_nav_status w in
    let cur := pose (m_curPoseVel (base w)) in
    let prev_wp_index := waypoint_index_current_goal wps in
    let p1 := mkPoint (x cur) (y cur) in
    let p2 :=
      if Qeq_bool (x (last_robot_pose wps)) INVALID_NUM then p1
      else mkPoint (x (last_robot_pose wps)) (y (last_robot_pose wps)) in
    let robot_move_seg := mkSegment p1 p2 in
    modify_status (set_last_robot_pose cur);;
    when (0 <=? waypoint_index_current_goal wps)%Z
      (match at_index (waypoints wps) (waypoint_index_current_goal wps) with
       | None => undefined
       | Some wpt =>
         let dist2target := segment_distance robot_move_seg (wp_target (waypoint wpt)) in
         when (Qltb dist2target (allowed_distance (waypoint wpt))
               || m_lastNavTargetReached (base w))
           (modify_status (fun s =>
              set_waypoints (update_index (waypoints s)
                               (waypoint_index_current_goal wps) (set_reached true)) s);;
            robot (sendWaypointReachedEvent (waypoint_index_current_goal wps));;
            if (waypoint_index_current_goal wps <? size (waypoints wps) - 1)%Z
            then modify_status (set_index (waypoint_index_current_goal wps + 1)%Z)
            else modify_status (set_final_goal_reached true))
       end);;
    w1 ← get;
    let wps1 := m_waypoint_nav_status w1 in
    when (negb (final_goal_reached wps1) && (0 <=? waypoint_index_current_goal wps1)%Z)
      (let most_advanced_wp_at_begin := waypoint_index_current_goal wps1 in
       let '(wpts, most_advanced_wp) :=
         skip_scan (params_waypoints_navigator w1) cur (wp_is_reachable i)
           (Z.to_nat (size (waypoints wps1) - waypoint_index_current_goal wps1))
           (waypoint_index_current_goal wps1) (waypoints wps1)
           (waypoint_index_current_goal wps1) in
       modify_status (set_waypoints wpts);;
       when (0 <=? most_advanced_wp)%Z
         (modify_status (set_index most_advanced_wp);;
          mark_skipped (Z.to_nat (most_advanced_wp - most_advanced_wp_at_begin))
            most_advanced_wp_at_begin));;
    w2 ← get;
    when (waypoint_index_current_goal (m_waypoint_nav_status w2) <? 0)%Z
      (modify_status (set_index 0%Z));;
    w3 ← get;
    let wps3 := m_waypoint_nav_status w3 in
    when ((0 <=? waypoint_index_current_goal wps3)%Z
          && negb (prev_wp_index =? waypoint_index_current_goal wps3)%Z)
      (if negb (waypoint_index_current_goal wps3 <? size (waypoints wps3))%Z then throw
       else
       match at_index (waypoints wps3) (waypoint_index_current_goal wps3) with
       | None => undefined
       | Some wpt =>
         let is_final_wp :=
           (waypoint_index_current_goal wps3 + 1 =? size (waypoints wps3))%Z in
         robot (sendNewWaypointTargetEvent (waypoint_index_current_goal wps3));;
         on_base (navigate
           {| target :=
                mkPose (pt_x (wp_target (waypoint wpt))) (pt_y (wp_target (waypoint wpt)))
                  (if negb (Qeq_bool (target_heading (waypoint wpt)) INVALID_NUM)
                   then target_heading (waypoint wpt) else 0);
              targetAllowedDistance := to_float (allowed_distance (waypoint wpt));
              targetIsRelative := false;
              targetIsIntermediaryWaypoint := negb is_final_wp |}
           {| nav_pose := wp_pose i; nav_now := wp_navigate_now i |})
       end).

(** [CWaypointsNavigator::navigationStep]: the waypoint part, then the
    step of the base class. *)
Definition CWaypointsNavigator_navigationStep (i : WaypointStepInput)
  : Run CWaypointsNavigator unit :=
  navigationStep_waypoints i;;
  on_base (navigationStep (wp_base_step i)).

End Waypoints.

(** ** CAbstractPTGBasedReactive: data *)

(** The methods of the abstract [CParameterizedTrajectoryGenerator] that
    the modelled functions call. [inverseMap_WS2TP x y] gives
    [(is_into_domain, (out_k, out_normalized_d))]. *)
Record CParameterizedTrajectoryGenerator : Type := {
  supportVelCmdNOP : bool;
  maxTimeInVelCmdNOP : Z -> double;
  getPathCount : Z;
  inverseMap_WS2TP : double -> double -> bool * (Z * double);
  alpha2index : double -> Z
}.

Record TInfoPerPTG : Type := {
  valid_TP : bool;
  target_k : Z;
  target_dist : double;
  TP_Obstacles : list double
}.

Record TSentVelCmd : Type := {
  ptg_index : Z;
  ptg_alpha_index : Z;
  tp_target_k : Z;
  tim_send_cmd_vel : TTimeStamp;
  poseVel : TRobotPoseVel;
  colfreedist_move_k : double;
  speed_scale : double
}.

(** [TSentVelCmd::reset] *)
Definition TSentVelCmd_reset : TSentVelCmd :=
  {| ptg_index := (-1)%Z;
     ptg_alpha_index := (-1)%Z;
     tp_target_k := (-1)%Z;
     tim_send_cmd_vel := INVALID_TIMESTAMP;
     poseVel := TRobotPoseVel_ctor;
     colfreedist_move_k := 0;
     speed_scale := 1 |}.

(** [TSentVelCmd::isValid] *)
Definition TSentVelCmd_isValid (c : TSentVelCmd) : bool :=
  negb (timestamp (poseVel c) =? INVALID_TIMESTAMP)%Z.

Record TAbstractPTGNavigatorParams : Type := {
  secure_distance_start : double;
  secure_distance_end : double
}.

(** The fields of the reactive navigator read by the modelled functions.
    [PTGs] stands for the virtual [getPTG(i)] and [getPTG_count()];
    [tim_changeSpeed_avr] for the last output of that filter. *)
Record CAbstractPTGBasedReactive : Type := {
  waypoints_navigator : CWaypointsNavigator;
  PTGs : list CParameterizedTrajectoryGenerator;
  m_infoPerPTG : list TInfoPerPTG;
  m_infoPerPTG_timestamp : TTimeStamp;
  m_lastSentVelCmd : TSentVelCmd;
  m_lastTarget : TPose2D;
  tim_changeSpeed_avr : double;
  params_abstract_ptg_navigator : TAbstractPTGNavigatorParams
}.

(** How the continuation round of [performNavigationStep] ends: the
    "NOP" candidate is not considered; it is evaluated by
    [build_movement_candidate] for the PTG of the last command, from the
    pose interpolated at the send time; or it is marked not viable
    ([speed = -0.01]) because that pose cannot be interpolated. *)
Inductive NOPRound : Type :=
| NOP_not_considered
| NOP_evaluated (ptg : Z) (robot_pose_at_send_cmd : TPose2D)
| NOP_not_viable.

(** The values of the safety scaling of [build_movement_candidate]. *)
Record SafetyScaling : Type := {
  kDirection : Z;
  obsFreeNormalizedDistance : double;
  velScale : double;
  cm_speed : double
}.

(** ** Rounding to double precision *)

(** The result of a binary64 operation on finite operands: a finite
    value, or an infinity when the rounded result is out of range. *)
Inductive Rounded : Type :=
| finite (x : double)
| infinite (negative : bool).

(** For [0 < x], the exponent [e] with [2^e <= x < 2^(e+1)]. *)
Definition Qfloor_log2 (x : Q) : Z :=
  let e := (Z.log2 (Qnum x) - Z.log2 (Zpos (Qden x)))%Z in
  if Qleb (Qpower 2 e) x then e else (e - 1)%Z.

(** The nearest integer, the even one of two that are equally near. *)
Definition round_half_even (x : Q) : Z :=
  let f := Qfloor x in
  let rest := x - inject_Z f in
  if Qltb rest (1 # 2) then f
  else if Qltb (1 # 2) rest then (f + 1)%Z
  else if Z.even f then f else (f + 1)%Z.

(** IEEE 754 binary64 rounding to nearest, ties to even: 53 significant
    bits, exponents from -1022 (below it the spacing stays [2^-1074]),
    and an infinity from [2^1024] on. *)
Definition round_double (x : Q) : Rounded :=
  if Qeq_bool x 0 then finite 0
  else
    let e := Z.max (Qfloor_log2 (Qabs x)) (-1022) in
    let ulp := Qpower 2 (e - 52) in
    let y := Qred (inject_Z (round_half_even (Qabs x / ulp)) * ulp) in
    if Qleb (Qpower 2 1024) y then infinite (Qltb x 0)
    else finite (if Qltb x 0 then - y else y).

(** [a * b] on doubles. *)
Definition double_mul (a b : double) : Rounded := round_double (a * b).

(** [a > b] for a double [a] and the result [b] of an operation. *)
Definition gt_rounded (a : double) (b : Rounded) : bool :=
  match b with
  | finite y => Qgtb a y
  | infinite negative => negative
  end.

(** The literal [1.01]: the double nearest to it, [0x1.028f5c28f5c29p+0]. *)
Definition double_1_01 : double := 4548635623644201 # 4503599627370496.

Section Reactive.
Context {ML : MathLib}.

(** The loop of [impl_waypoint_is_reachable] over the PTGs [i], [i+1],
    ... ([n] of them). *)
Fixpoint reachable_scan (r : CAbstractPTGBasedReactive) (wp : TPoint2D)
    (n : nat) (i : Z) : Outcome bool :=
  match n with
  | O => Returned false
  | S n' =>
    match at_index (PTGs r) i, at_index (m_infoPerPTG r) i with
    | Some ptg, Some info =>
      let tp_obs := TP_Obstacles info in
      if negb (size tp_obs =? getPathCount ptg)%Z then reachable_scan r wp n' (i + 1)%Z
      else
        let '(is_into_domain, (wp_k, wp_norm_d)) :=
          inverseMap_WS2TP ptg (pt_x wp) (pt_y wp) in
        if negb is_into_domain then reachable_scan r wp n' (i + 1)%Z
        else if negb (wp_k <? size tp_obs)%Z then Thrown
        else
          match at_index tp_obs wp_k with
          | None => Undefined
          | Some collision_free_dist =>
              if gt_rounded collision_free_dist (double_mul double_1_01 wp_norm_d)
              then Returned true
              else reachable_scan r wp n' (i + 1)%Z
          end
    | _, _ => Undefined
    end
  end.

(** [CAbstractPTGBasedReactive::impl_waypoint_is_reachable]; [now] is
    the value of [mrpt::system::now()]. *)
Definition impl_waypoint_is_reachable (r : CAbstractPTGBasedReactive)
    (now : TTimeStamp) (wp : TPoint2D) : Outcome bool :=
  let N := size (PTGs r) in
  if (size (m_infoPerPTG r) <? N)%Z
     || (m_infoPerPTG_timestamp r =? INVALID_TIMESTAMP)%Z
     || Qgtb (timeDifference (m_infoPerPTG_timestamp r) now) (5 # 10)
  then Returned false
  else reachable_scan r wp (Z.to_nat N) 0%Z.

(** The continuation round of [performNavigationStep] ("Round #2"), on
    the object as the step finds it; [tim_start_iteration] is the clock
    read at the start of the step. *)
Definition performNavigationStep_NOP (r : CAbstractPTGBasedReactive)
    (tim_start_iteration : TTimeStamp) : Outcome NOPRound :=
  match m_navigationParams (base (waypoints_navigator r)) with
  | None => Thrown
  | Some navp =>
    let target_changed_since_last_iteration :=
      TPose2D_neqb (target navp) (m_lastTarget r) in
    let last := m_lastSentVelCmd r in
    if TSentVelCmd_isValid last && negb target_changed_since_last_iteration then
      match at_index (PTGs r) (ptg_index last) with
      | None => Undefined
      | Some ptg =>
        let NOP_At := timeDifference (tim_send_cmd_vel last) tim_start_iteration in
        let NOP_max_time := maxTimeInVelCmdNOP ptg (ptg_alpha_index last) in
        let can_do_nop_motion := supportVelCmdNOP ptg && Qltb NOP_At NOP_max_time in
        if can_do_nop_motion then
          let tim_send_cmd_vel_corrected :=
            timestampAdd (tim_send_cmd_vel last) (tim_changeSpeed_avr r) in
          match interpolate (m_latestPoses (base (waypoints_navigator r)))
                  tim_send_cmd_vel_corrected with
          | Some robot_pose_at_send_cmd =>
              Returned (NOP_evaluated (ptg_index last) robot_pose_at_send_cmd)
          | None => Returned NOP_not_viable
          end
        else Returned NOP_not_considered
      end
    else Returned NOP_not_considered
  end.

(** The safety scaling of [build_movement_candidate] for a regular
    candidate ([this_is_PTG_continuation = false]), from the direction
    and speed chosen by the holonomic method. *)
Definition build_movement_candidate_safety (r : CAbstractPTGBasedReactive)
    (ptg : CParameterizedTrajectoryGenerator) (ipf_TP_Obstacles : list double)
    (desiredDirection desiredSpeed : double) : Outcome SafetyScaling :=
  let k := alpha2index ptg desiredDirection in
  match at_index ipf_TP_Obstacles k with
  | None => Undefined
  | Some obs =>
    let obsFree :=
      if supportVelCmdNOP ptg then
        let cur := velLocal (m_curPoseVel (base (waypoints_navigator r))) in
        let v := hypot (vx cur) (vy cur) in
        let d := v * maxTimeInVelCmdNOP ptg k in
        Qmin obs (Qmax (90 # 100) (obs - d))
      else obs in
    let pars := params_abstract_ptg_navigator r in
    if negb (Qgtb (secure_distance_end pars) (secure_distance_start pars)) then Thrown
    else
      let scale :=
        if Qltb obsFree (secure_distance_end pars) then
          if Qleb obsFree (secure_distance_start pars) then 0
          else (obsFree - secure_distance_start pars)
               / (secure_distance_end pars - secure_distance_start pars)
        else 1 in
      Returned {| kDirection := k;
                  obsFreeNormalizedDistance := obsFree;
                  velScale := scale;
                  cm_speed := desiredSpeed * scale |}
  end.

End Reactive.

(** ** An executable instance of the library routines

    Plane Euclidean geometry on rationals. Square roots are taken to
    2^-52 (exactly, on squares of such numbers), sine and cosine are their
    Taylor polynomials of degree 9 and 8 (exact at 0), a [float] is
    taken equal to the [double], timestamps count 100 ns, and the pose
    history is interpolated linearly, inside its time range only. It is
    used for the concrete scenarios. *)

Definition Qsqrt (q : Q) : Q :=
  if Qleb q 0 then 0
  else Z.sqrt (Qnum q * 2 ^ 104 / Z.pos (Qden q)) # (2 ^ 52).

Definition Qsquare (q : Q) : Q := q * q.

Definition Qcos (a : Q) : Q :=
  let a2 := a * a in
  1 - a2 / 2 + a2 * a2 / 24 - a2 * a2 * a2 / 720 + a2 * a2 * a2 * a2 / 40320.

Definition Qsin (a : Q) : Q :=
  let a2 := a * a in
  a - a * a2 / 6 + a * a2 * a2 / 120 - a * a2 * a2 * a2 / 5040
  + a * a2 * a2 * a2 * a2 / 362880.

Definition euclid_norm (dx dy : Q) : Q := Qsqrt (Qsquare dx + Qsquare dy).

Definition euclid_segment_distance (s : TSegment2D) (p : TPoint2D) : Q :=
  let ax := pt_x (point1 s) in
  let ay := pt_y (point1 s) in
  let dx := pt_x (point2 s) - ax in
  let dy := pt_y (point2 s) - ay in
  let len2 := Qsquare dx + Qsquare dy in
  if Qeq_bool len2 0 then euclid_norm (pt_x p - ax) (pt_y p - ay)
  else
    let t := ((pt_x p - ax) * dx + (pt_y p - ay) * dy) / len2 in
    let t := Qmax 0 (Qmin 1 t) in
    euclid_norm (pt_x p - (ax + t * dx)) (pt_y p - (ay + t * dy)).

Definition euclid_compose (a b : TPose2D) : TPose2D :=
  mkPose (x a + x b * Qcos (phi a) - y b * Qsin (phi a))
         (y a + x b * Qsin (phi a) + y b * Qcos (phi a))
         (phi a + phi b).

Definition euclid_inverseComposePoint (a : TPose2D) (g : TPoint2D) : TPoint2D :=
  let dx := pt_x g - x a in
  let dy := pt_y g - y a in
  mkPoint (dx * Qcos (phi a) + dy * Qsin (phi a))
          (- dx * Qsin (phi a) + dy * Qcos (phi a)).

Definition euclid_rotate (v : TTwist2D) (ang : Q) : TTwist2D :=
  mkTwist (vx v * Qcos ang - vy v * Qsin ang)
          (vx v * Qsin ang + vy v * Qcos ang)
          (omega v).

Fixpoint linear_interpolate (l : PoseHistory) (t : TTimeStamp) : option TPose2D :=
  match l with
  | [] => None
  | (t0, p0) :: r =>
      if (t =? t0)%Z then Some p0
      else
        match r with
        | [] => None
        | (t1, p1) :: _ =>
            if ((t0 <? t) && (t <? t1))%Z then
              let a := inject_Z (t - t0) / inject_Z (t1 - t0) in
              Some (mkPose (x p0 + a * (x p1 - x p0))
                           (y p0 + a * (y p1 - y p0))
                           (phi p0 + a * (phi p1 - phi p0)))
            else linear_interpolate r t
        end
  end.

Definition euclid : MathLib :=
  {| segment_distance := euclid_segment_distance;
     timeDifference := fun t1 t2 => inject_Z (t2 - t1) / inject_Z 10000000;
     timestampAdd := fun t s => (t + Qfloor (s * inject_Z 10000000))%Z;
     composeFrom := euclid_compose;
     inverseComposePoint := euclid_inverseComposePoint;
     twist_rotate := euclid_rotate;
     point_norm := fun p => euclid_norm (pt_x p) (pt_y p);
     hypot := euclid_norm;
     to_float := fun d => d;
     INVALID_NUM := DBL_MAX;
     interpolate := linear_interpolate |}.

(** ** Runs of the public interface of CAbstractNavigator *)

Inductive Call : Type :=
| call_navigate (params : TNavigationParams) (i : NavigateInput)
| call_cancel
| call_suspend
| call_resume
| call_resetNavError
| call_navigationStep (i : StepInput).

Definition is_navigate (c : Call) : bool :=
  match c with call_navigate _ _ => true | _ => false end.

Section Runs.
Context {ML : MathLib}.

Definition run_call (c : Call) : Run CAbstractNavigator unit :=
  match c with
  | call_navigate params i => navigate params i
  | call_cancel => cancel
  | call_suspend => suspend
  | call_resume => resume
  | call_resetNavError => resetNavError
  | call_navigationStep i => navigationStep i
  end.

(** A sequence of calls on one object. An exception leaves its call and
    reaches the caller, who goes on using the object; nothing follows
    undefined behaviour. *)
Fixpoint run_calls (cs : list Call) : Run CAbstractNavigator unit :=
  match cs with
  | [] => mret tt
  | c :: r =>
      fun s =>
        match run_call c s with
        | (s1, t1, Undefined) => (s1, t1, Undefined)
        | (s1, t1, _) =>
            match run_calls r s1 with (s2, t2, o) => (s2, t1 ++ t2, o) end
        end
  end.


End Runs.




(** ** Concrete inputs *)

(** The robot reports pose [(px, py, 0)] at rest, stamped [t], at robot
    time [secs]. *)
Definition robot_at (px py : Q) (t : TTimeStamp) (secs : Q) : PoseQuery :=
  {| robot_time_secs := secs;
     pose_reading := Some (mkPose px py 0, mkTwist 0 0 0, t) |}.

(** The robot fails to report its pose. *)
Definition robot_silent (secs : Q) : PoseQuery :=
  {| robot_time_secs := secs; pose_reading := None |}.

(** A step whose decision sends one velocity command. *)
Definition step_with (q : PoseQuery) (now : TTimeStamp) : StepInput :=
  {| step_pose := q; step_now := now;
     step_perform := [act_changeSpeeds]; step_perform_throws := false |}.

Definition target_at (px py allowed : Q) (intermediary : bool) : TNavigationParams :=
  {| target := mkPose px py 0;
     targetAllowedDistance := allowed;
     targetIsRelative := false;
     targetIsIntermediaryWaypoint := intermediary |}.

Definition fresh_navigator : CAbstractNavigator := CAbstractNavigator_ctor 0 0%Z.

(** ** Vocabulary of the statements *)

(** Two navigator objects that agree on every field but the pose ones
    ([m_curPoseVel], [m_last_curPoseVelUpdate_robot_time],
    [m_latestPoses]). *)
Definition same_control (a b : CAbstractNavigator) : Prop :=
  m_lastNavigationState a = m_lastNavigationState b /\
  m_navigationEndEventSent a = m_navigationEndEventSent b /\
  m_navigationState a = m_navigationState b /\
  m_navigationParams a = m_navigationParams b /\
  m_lastNavTargetReached a = m_lastNavTargetReached b /\
  m_badNavAlarm_minDistTarget a = m_badNavAlarm_minDistTarget b /\
  m_badNavAlarm_lastMinDistTime a = m_badNavAlarm_lastMinDistTime b /\
  params_abstract_navigator a = params_abstract_navigator b.

(** Every callback of a trace is one of the allowed ones. *)
Definition calls_within (allowed : RobotCall -> bool) (t : list RobotCall) : Prop :=
  forallb allowed t = true.

(** The callbacks of the pose update and of entering NAVIGATING. *)
Definition refresh_call (c : RobotCall) : bool :=
  match c with
  | getNavigationTime | getCurrentPoseAndSpeeds
  | startWatchdog _ | sendNavigationStartEvent => true
  | _ => false
  end.

(** The callbacks of the derived decision step. *)
Definition reactive_call (c : RobotCall) : bool :=
  match c with
  | changeSpeeds | changeSpeedsNOP | stop true | getEmergencyStopCmd => true
  | _ => false
  end.



(** A run to NAV_ERROR and out of it by [navigate]: the robot fails to
    report its pose in the first step. *)
Definition run_through_error : list Call :=
  [ call_navigate (target_at 5 0 (1 # 2) false)
      {| nav_pose := robot_at 0 0 10000000 1; nav_now := 10000000%Z |};
    call_navigationStep (step_with (robot_silent 2) 20000000);
    call_navigate (target_at 5 0 (1 # 2) false)
      {| nav_pose := robot_at 0 0 30000000 3; nav_now := 30000000%Z |} ].

(** A navigator sent to the target [(1, 0)], allowed distance 0.5, and
    the step in which the robot reports that it stands on the target. *)
Definition navigator_to (intermediary : bool) : CAbstractNavigator :=
  state_of (navigate (ML := euclid) (target_at 1 0 (1 # 2) intermediary)
              {| nav_pose := robot_at 0 0 10000000 1; nav_now := 10000000 |}
              fresh_navigator).

Definition step_on_target : StepInput := step_with (robot_at 1 0 20000000 2) 20000000.

(** A navigator sent to the far target [(10, 0)]; a first step 1 s later
    with the robot at the origin, and a step 31 s after it with the
    robot where it was. *)
Definition navigator_to_far : CAbstractNavigator :=
  state_of (navigate (ML := euclid) (target_at 10 0 (1 # 2) false)
              {| nav_pose := robot_at 0 0 10000000 1; nav_now := 10000000 |}
              fresh_navigator).

Definition first_step_far : StepInput := step_with (robot_at 0 0 20000000 2) 20000000.

Definition navigator_stalled : CAbstractNavigator :=
  state_of (navigationStep (ML := euclid) first_step_far navigator_to_far).

Definition late_step_far : StepInput := step_with (robot_at 0 0 330000000 33) 330000000.

(** ** Runs of the waypoint navigator *)

Section WaypointRuns.
Context {ML : MathLib}.

(** Successive calls of [CWaypointsNavigator::navigationStep] by the
    driver, which goes on after an exception. *)
Fixpoint run_steps (inputs : list WaypointStepInput) : Run CWaypointsNavigator unit :=
  match inputs with
  | [] => mret tt
  | i :: r =>
      fun s =>
        match CWaypointsNavigator_navigationStep i s with
        | (s1, t1, Undefined) => (s1, t1, Undefined)
        | (s1, t1, _) =>
            match run_steps r s1 with (s2, t2, o) => (s2, t1 ++ t2, o) end
        end
  end.

End WaypointRuns.

(** The waypoint the current goal index designates. *)
Definition current_goal (w : CWaypointsNavigator) : option TPoint2D :=
  match at_index (waypoints (m_waypoint_nav_status w))
          (waypoint_index_current_goal (m_waypoint_nav_status w)) with
  | Some s => Some (wp_target (waypoint s))
  | None => None
  end.

Definition waypoint_at (px py : Q) (skip : bool) : TWaypoint :=
  {| wp_target := mkPoint px py;
     target_heading := INVALID_NUM (MathLib := euclid);
     allowed_distance := 1 # 4;
     allow_skip := skip |}.

(** The [k]-th tick: the robot stands at the origin, every waypoint is
    seen as reachable, the decision step sends one command; ticks are 1 s
    apart. *)
Definition tick_at_origin (k : Z) : WaypointStepInput :=
  {| wp_pose := robot_at 0 0 (k * 10000000) (inject_Z k);
     wp_is_reachable := fun _ => true;
     wp_navigate_now := (k * 10000000)%Z;
     wp_base_step := step_with (robot_at 0 0 (k * 10000000) (inject_Z k))
                       (k * 10000000) |}.

(** The waypoint-skip scenario: (1,0) and (2,0) may be skipped, (3,0) is
    the final goal; the distance to a skipped waypoint is not limited and
    a waypoint must be confirmed reachable during 2 timesteps. *)
Definition skip_scenario : CWaypointsNavigator :=
  state_of (navigateWaypoints (ML := euclid)
              [waypoint_at 1 0 true; waypoint_at 2 0 true; waypoint_at 3 0 false]
              10000000
              (set_params_waypoints_navigator
                 {| max_distance_to_allow_skip_waypoint := - (1);
                    min_timesteps_confirm_skip_waypoints := 2 |}
                 (CWaypointsNavigator_ctor (ML := euclid) 0 0))).

(** Two waypoints, (1,0) then the final (2,0), and the robot standing
    on the first one. *)
Definition handover_scenario : CWaypointsNavigator :=
  state_of (navigateWaypoints (ML := euclid)
              [waypoint_at 1 0 true; waypoint_at 2 0 false]
              10000000 (CWaypointsNavigator_ctor (ML := euclid) 0 0)).

Definition tick_on_first_waypoint (k : Z) : WaypointStepInput :=
  {| wp_pose := robot_at 1 0 (k * 10000000) (inject_Z k);
     wp_is_reachable := fun _ => false;
     wp_navigate_now := (k * 10000000)%Z;
     wp_base_step := step_with (robot_at 1 0 (k * 10000000) (inject_Z k))
                       (k * 10000000) |}.

(** A sequence whose second waypoint must not be skipped and lies
    further than [max_distance_to_allow_skip_waypoint] = 1.5 from the
    robot, while the third is near; the other parameters are the default
    ones. *)
Definition far_unskippable_scenario : CWaypointsNavigator :=
  state_of (navigateWaypoints (ML := euclid)
              [waypoint_at 1 0 true; waypoint_at 5 0 false; waypoint_at 0 1 false]
              10000000
              (set_params_waypoints_navigator
                 {| max_distance_to_allow_skip_waypoint := 3 # 2;
                    min_timesteps_confirm_skip_waypoints := 1 |}
                 (CWaypointsNavigator_ctor (ML := euclid) 0 0))).

(** ** Concrete reactive navigators *)

(** A PTG with one path, which supports "NOP" commands for at most
    [max_nop] seconds and maps every point to path 0 at normalised
    distance 0.5. *)
Definition one_path_ptg (max_nop : Q) : CParameterizedTrajectoryGenerator :=
  {| supportVelCmdNOP := true;
     maxTimeInVelCmdNOP := fun _ => max_nop;
     getPathCount := 1;
     inverseMap_WS2TP := fun _ _ => (true, (0%Z, 1 # 2));
     alpha2index := fun _ => 0%Z |}.

(** The navigator object moving at 1 m/s along its own x axis towards
    the target (5,0); the robot stamps its poses 0.1 s late, and the two
    stored ones are stamped 1.90 s and 1.95 s. *)
Definition moving_base : CAbstractNavigator :=
  set_poseUpdate
    {| pose := mkPose (5 # 100) 0 0; velGlobal := mkTwist 1 0 0;
       velLocal := mkTwist 1 0 0; timestamp := 19500000 |}
    (205 # 100)
    [(19000000%Z, mkPose 0 0 0); (19500000%Z, mkPose (5 # 100) 0 0)]
    (state_of (navigate (ML := euclid) (target_at 5 0 (1 # 2) false)
                 {| nav_pose := robot_at 0 0 10000000 1; nav_now := 10000000 |}
                 fresh_navigator)).

(** A reactive navigator with one PTG whose last tick, started at
    2.0 s by the clock, found path 0 free up to the normalised distance
    [obs], and whose last command was sent at [sent] by the clock for
    the same target. *)
Definition reactive_with (obs : Q) (sent : TTimeStamp) : CAbstractPTGBasedReactive :=
  {| waypoints_navigator :=
       set_base moving_base (CWaypointsNavigator_ctor (ML := euclid) 0 0);
     PTGs := [one_path_ptg (1 # 2)];
     m_infoPerPTG :=
       [ {| valid_TP := true; target_k := 0; target_dist := 1 # 2;
            TP_Obstacles := [obs] |};
         {| valid_TP := false; target_k := 0; target_dist := 0;
            TP_Obstacles := [] |} ];
     m_infoPerPTG_timestamp := 20000000;
     m_lastSentVelCmd :=
       {| ptg_index := 0; ptg_alpha_index := 0; tp_target_k := 0;
          tim_send_cmd_vel := sent;
          poseVel := m_curPoseVel moving_base;
          colfreedist_move_k := obs; speed_scale := 1 |};
     m_lastTarget := mkPose 5 0 0;
     tim_changeSpeed_avr := 1 # 1000;
     params_abstract_ptg_navigator :=
       {| secure_distance_start := 5 # 100; secure_distance_end := 20 # 100 |} |}.

(** The conditions under which the continuation ("NOP") candidate is
    considered: the last sent command is valid, the target has not
    changed, the PTG of that command supports NOP, and the time since it
    was sent is below that PTG's maximum for the commanded path. *)
Definition NOP_conditions {ML : MathLib} (r : CAbstractPTGBasedReactive)
    (tim_start_iteration : TTimeStamp) : Prop :=
  exists navp ptg,
    m_navigationParams (base (waypoints_navigator r)) = Some navp /\
    TSentVelCmd_isValid (m_lastSentVelCmd r) = true /\
    TPose2D_neqb (target navp) (m_lastTarget r) = false /\
    at_index (PTGs r) (ptg_index (m_lastSentVelCmd r)) = Some ptg /\
    supportVelCmdNOP ptg = true /\
    timeDifference (tim_send_cmd_vel (m_lastSentVelCmd r)) tim_start_iteration
      < maxTimeInVelCmdNOP ptg (ptg_alpha_index (m_lastSentVelCmd r)).

(** The pose of the robot when the last command took effect, as the
    continuation round interpolates it. *)
Definition pose_at_send_cmd {ML : MathLib} (r : CAbstractPTGBasedReactive)
  : option TPose2D :=
  interpolate (m_latestPoses (base (waypoints_navigator r)))
    (timestampAdd (tim_send_cmd_vel (m_lastSentVelCmd r)) (tim_changeSpeed_avr r)).

(** The part of the PTG contract the reachability query relies on: a
    point inside the domain is mapped to one of the paths. *)
Definition inverse_map_in_range (r : CAbstractPTGBasedReactive) (wp : TPoint2D) : Prop :=
  forall i ptg k d,
    at_index (PTGs r) i = Some ptg ->
    inverseMap_WS2TP ptg (pt_x wp) (pt_y wp) = (true, (k, d)) ->
    (0 <= k < getPathCount ptg)%Z.

(** The condition as the specification words it: PTG [i] places [wp]
    inside its domain at a path [k] and a normalised distance [d] with
    [TP_Obstacles[k] > 1.01 d]. *)
Definition stated_free_path_at (r : CAbstractPTGBasedReactive) (wp : TPoint2D)
    (i : Z) : Prop :=
  exists ptg info k d c,
    at_index (PTGs r) i = Some ptg /\
    at_index (m_infoPerPTG r) i = Some info /\
    inverseMap_WS2TP ptg (pt_x wp) (pt_y wp) = (true, (k, d)) /\
    at_index (TP_Obstacles info) k = Some c /\
    (101 # 100) * d < c.

Definition stated_free_path (r : CAbstractPTGBasedReactive) (wp : TPoint2D) : Prop :=
  exists i, stated_free_path_at r wp i.

(** The condition of the code: PTG [i] has one TP-obstacle per path and
    places [wp] inside its domain at a path [k] and a normalised
    distance [d], and [TP_Obstacles[k]] is greater than the double
    product [1.01 * d]. *)
Definition free_path_at (r : CAbstractPTGBasedReactive) (wp : TPoint2D) (i : Z) : Prop :=
  exists ptg info k d c,
    at_index (PTGs r) i = Some ptg /\
    at_index (m_infoPerPTG r) i = Some info /\
    size (TP_Obstacles info) = getPathCount ptg /\
    inverseMap_WS2TP ptg (pt_x wp) (pt_y wp) = (true, (k, d)) /\
    at_index (TP_Obstacles info) k = Some c /\
    gt_rounded c (double_mul double_1_01 d) = true.

Definition free_path (r : CAbstractPTGBasedReactive) (wp : TPoint2D) : Prop :=
  exists i, free_path_at r wp i.

(** The per-PTG information is in use at the time [now]: there is an
    entry for each PTG, it was stamped, and it is at most 0.5 s old. *)
Definition info_is_fresh {ML : MathLib} (r : CAbstractPTGBasedReactive)
    (now : TTimeStamp) : Prop :=
  (size (PTGs r) <= size (m_infoPerPTG r))%Z /\
  m_infoPerPTG_timestamp r <> INVALID_TIMESTAMP /\
  timeDifference (m_infoPerPTG_timestamp r) now <= 5 # 10.

(** A PTG with three paths, which maps every point to path 0 at
    normalised distance 0.5. *)
Definition three_path_ptg : CParameterizedTrajectoryGenerator :=
  {| supportVelCmdNOP := true;
     maxTimeInVelCmdNOP := fun _ => 1 # 2;
     getPathCount := 3;
     inverseMap_WS2TP := fun _ _ => (true, (0%Z, 1 # 2));
     alpha2index := fun _ => 0%Z |}.

(** The navigator [reactive_with 1 20000000] with the three-path PTG in
    the place of its PTG: the TP-obstacles still hold the single entry of
    the last tick, a path free up to the normalised distance 1. *)
Definition reactive_resized : CAbstractPTGBasedReactive :=
  let r := reactive_with 1 20000000 in
  {| waypoints_navigator := waypoints_navigator r;
     PTGs := [three_path_ptg];
     m_infoPerPTG := m_infoPerPTG r;
     m_infoPerPTG_timestamp := m_infoPerPTG_timestamp r;
     m_lastSentVelCmd := m_lastSentVelCmd r;
     m_lastTarget := m_lastTarget r;
     tim_changeSpeed_avr := tim_changeSpeed_avr r;
     params_abstract_ptg_navigator := params_abstract_ptg_navigator r |}.

(** The double nearest to 0.505; it is the double product [1.01 * 0.5],
    and it is above the real product. *)
Definition double_0_505 : double := 4548635623644201 # 9007199254740992.

(** ** Vocabulary of the further properties *)

(** How many times a callback occurs in a trace. *)
Definition occurrences (c : RobotCall) (t : list RobotCall) : nat :=
  length (List.filter (RobotCall_eqb c) t).

(** Whenever the pose update may be skipped (a robot time has been
    recorded), a pose is stored. *)
Definition pose_cache_ok (nav : CAbstractNavigator) : Prop :=
  Qleb 0 (m_last_curPoseVelUpdate_robot_time nav) = true ->
  m_latestPoses nav <> [].

(** A navigator that is navigating, or suspended, has an absolute
    target. *)
Definition has_absolute_target (nav : CAbstractNavigator) : Prop :=
  m_navigationState nav = NAVIGATING \/ m_navigationState nav = SUSPENDED ->
  exists p, m_navigationParams nav = Some p /\ targetIsRelative p = false.

(** Two navigator objects with the same pose fields. *)
Definition same_poses (a b : CAbstractNavigator) : Prop :=
  m_curPoseVel a = m_curPoseVel b /\
  m_last_curPoseVelUpdate_robot_time a = m_last_curPoseVelUpdate_robot_time b /\
  m_latestPoses a = m_latestPoses b.

Section HistoryVocabulary.
Context {ML : MathLib}.

(** The oldest stored pose is at most [PREVIOUS_POSES_MAX_AGE] older
    than the newest one. *)
Definition history_span_ok (l : PoseHistory) : Prop :=
  forall t0 p0 e r tn pn,
    l = (t0, p0) :: e :: r -> last l = Some (tn, pn) ->
    timeDifference t0 tn <= PREVIOUS_POSES_MAX_AGE.

End HistoryVocabulary.

(** The callbacks of the first step after NAVIGATING was left: the
    watchdog is stopped and, in NAV_ERROR, the error is reported and a
    stop is commanded. *)
Definition leaving_calls (nav : CAbstractNavigator) : list RobotCall :=
  if TState_eqb (m_lastNavigationState nav) NAVIGATING then
    match m_navigationState nav with
    | NAV_ERROR => [sendNavigationEndDueToErrorEvent; stop false; stopWatchdog]
    | _ => [stopWatchdog]
    end
  else [].

(** The pose update of a step is not skipped: the step enters
    NAVIGATING, or no robot time is recorded, or the recorded one is
    20 ms old or more. *)
Definition pose_update_due (i : StepInput) (nav : CAbstractNavigator) : bool :=
  negb (TState_eqb (m_lastNavigationState nav) NAVIGATING)
  || negb (Qleb 0 (m_last_curPoseVelUpdate_robot_time nav)
           && Qltb (robot_time_secs (step_pose i)
                    - m_last_curPoseVelUpdate_robot_time nav)
                MIN_TIME_BETWEEN_POSE_UPDATES).

(** 1 when the navigation-end event has been sent, else 0. *)
Definition end_event_sent (nav : CAbstractNavigator) : nat :=
  Nat.b2n (m_navigationEndEventSent nav).

(** 1 when the navigation is over (IDLE or NAV_ERROR), 0 while it goes
    on (NAVIGATING or SUSPENDED). *)
Definition navigation_over (nav : CAbstractNavigator) : nat :=
  match m_navigationState nav with
  | NAVIGATING | SUSPENDED => 0
  | IDLE | NAV_ERROR => 1
  end.

(** ** The waypoint status computed by one step *)

(** The flags set by the loop that marks skipped waypoints. *)
Fixpoint mark_reached (n : nat) (k : Z) (l : list TWaypointStatus)
  : list TWaypointStatus :=
  match n with
  | O => l
  | S n' => mark_reached n' (k + 1)%Z (update_index l k (set_reached true))
  end.

Section WaypointStatus.
Context {ML : MathLib}.

(** Part 1 of the waypoint algorithm, on the status: the current goal is
    marked as reached and the next one selected (or the final goal
    flagged). *)
Definition arrival_update (seg : TSegment2D) (target_reached : bool)
    (s : TWaypointStatusSequence) : TWaypointStatusSequence :=
  let k := waypoint_index_current_goal s in
  if (0 <=? k)%Z then
    match at_index (waypoints s) k with
    | None => s
    | Some wpt =>
        if Qltb (segment_distance seg (wp_target (waypoint wpt)))
             (allowed_distance (waypoint wpt)) || target_reached
        then
          let s' := set_waypoints (update_index (waypoints s) k (set_reached true)) s in
          if (k <? size (waypoints s) - 1)%Z then set_index (k + 1)%Z s'
          else set_final_goal_reached true s'
        else s
    end
  else s.

(** Part 2, on the status: the look-ahead and the marking of the skipped
    waypoints. *)
Definition lookahead_update (pars : TWaypointsNavigatorParams) (cur : TPose2D)
    (is_reachable : TPoint2D -> bool) (s : TWaypointStatusSequence)
  : TWaypointStatusSequence :=
  let k := waypoint_index_current_goal s in
  if negb (final_goal_reached s) && (0 <=? k)%Z then
    let '(wpts, most) :=
      skip_scan pars cur is_reachable (Z.to_nat (size (waypoints s) - k)) k
        (waypoints s) k in
    if (0 <=? most)%Z
    then set_waypoints (mark_reached (Z.to_nat (most - k)) k wpts) (set_index most s)
    else set_waypoints wpts s
  else s.

(** "Still not started": the first waypoint becomes the goal. *)
Definition start_update (s : TWaypointStatusSequence) : TWaypointStatusSequence :=
  if (waypoint_index_current_goal s <? 0)%Z then set_index 0%Z s else s.

(** The robot-motion segment of the waypoint part. *)
Definition robot_move_seg (cur : TPose2D) (s : TWaypointStatusSequence) : TSegment2D :=
  let p1 := mkPoint (x cur) (y cur) in
  mkSegment p1
    (if Qeq_bool (x (last_robot_pose s)) INVALID_NUM then p1
     else mkPoint (x (last_robot_pose s)) (y (last_robot_pose s))).

(** The status after the waypoint part of a step that read the pose
    [cur]. *)
Definition waypoints_status_step (pars : TWaypointsNavigatorParams) (cur : TPose2D)
    (target_reached : bool) (is_reachable : TPoint2D -> bool)
    (s : TWaypointStatusSequence) : TWaypointStatusSequence :=
  start_update
    (lookahead_update pars cur is_reachable
       (arrival_update (robot_move_seg cur s) target_reached
          (set_last_robot_pose cur s))).

(** The single-target command for a waypoint. *)
Definition nav_cmd_of (wpt : TWaypointStatus) (is_final_wp : bool) : TNavigationParams :=
  {| target :=
       mkPose (pt_x (wp_target (waypoint wpt))) (pt_y (wp_target (waypoint wpt)))
         (if negb (Qeq_bool (target_heading (waypoint wpt)) INVALID_NUM)
          then target_heading (waypoint wpt) else 0);
     targetAllowedDistance := to_float (allowed_distance (waypoint wpt));
     targetIsRelative := false;
     targetIsIntermediaryWaypoint := negb is_final_wp |}.

End WaypointStatus.

(** The invariant of the waypoint status: the goal index is -1 (not
    started) or designates a waypoint; the waypoints before the goal are
    marked as reached; when the final goal is flagged, the goal is the
    last waypoint and it is marked as reached. *)
Definition status_ok (s : TWaypointStatusSequence) : Prop :=
  (-1 <= waypoint_index_current_goal s < size (waypoints s))%Z /\
  (forall k w, (0 <= k < waypoint_index_current_goal s)%Z ->
     at_index (waypoints s) k = Some w -> reached w = true) /\
  (final_goal_reached s = true ->
   (waypoint_index_current_goal s = size (waypoints s) - 1)%Z /\
   forall w, at_index (waypoints s) (waypoint_index_current_goal s) = Some w ->
     reached w = true).

(** The same waypoint later on: its data are the same, and its flag has
    not been cleared. *)
Definition waypoint_progress (a b : TWaypointStatus) : Prop :=
  waypoint b = waypoint a /\ (reached a = true -> reached b = true).

(** The progress of a sequence from [a] to [b]: the waypoints are the
    same, but for their flags and counters; no flag has been cleared;
    the goal index has not decreased. *)
Definition status_progress (a b : TWaypointStatusSequence) : Prop :=
  Forall2 waypoint_progress (waypoints a) (waypoints b) /\
  (waypoint_index_current_goal a <= waypoint_index_current_goal b)%Z /\
  (final_goal_reached a = true -> final_goal_reached b = true).

(** The events of the loop that marks skipped waypoints. *)
Fixpoint reached_events (n : nat) (k : Z) : list RobotCall :=
  match n with
  | O => []
  | S n' => sendWaypointReachedEvent k :: reached_events n' (k + 1)%Z
  end.

(** A waypoint-reached event. *)
Definition is_reached_event (c : RobotCall) : bool :=
  match c with sendWaypointReachedEvent _ => true | _ => false end.

Section WaypointVocabulary.
Context {ML : MathLib}.

(** The single-target navigator is aimed at the current goal waypoint. *)
Definition heading_for_goal (w : CWaypointsNavigator) : Prop :=
  let st := m_waypoint_nav_status w in
  (0 <= waypoint_index_current_goal st)%Z ->
  exists wpt,
    at_index (waypoints st) (waypoint_index_current_goal st) = Some wpt /\
    m_navigationParams (base w)
    = Some (nav_cmd_of wpt
              (waypoint_index_current_goal st + 1 =? size (waypoints st))%Z).

(** A sequence that has just been requested: nothing is started. *)
Definition not_started (st : TWaypointStatusSequence) : Prop :=
  waypoint_index_current_goal st = (-1)%Z /\ final_goal_reached st = false.

End WaypointVocabulary.

(** ** CAbstractPTGBasedReactive: the command stage of a step *)

Definition set_waypoints_navigator (w : CWaypointsNavigator)
    (r : CAbstractPTGBasedReactive) :=
  {| waypoints_navigator := w;
     PTGs := PTGs r;
     m_infoPerPTG := m_infoPerPTG r;
     m_infoPerPTG_timestamp := m_infoPerPTG_timestamp r;
     m_lastSentVelCmd := m_lastSentVelCmd r;
     m_lastTarget := m_lastTarget r;
     tim_changeSpeed_avr := tim_changeSpeed_avr r;
     params_abstract_ptg_navigator := params_abstract_ptg_navigator r |}.

Definition set_lastSentVelCmd (c : TSentVelCmd) (r : CAbstractPTGBasedReactive) :=
  {| waypoints_navigator := waypoints_navigator r;
     PTGs := PTGs r;
     m_infoPerPTG := m_infoPerPTG r;
     m_infoPerPTG_timestamp := m_infoPerPTG_timestamp r;
     m_lastSentVelCmd := c;
     m_lastTarget := m_lastTarget r;
     tim_changeSpeed_avr := tim_changeSpeed_avr r;
     params_abstract_ptg_navigator := params_abstract_ptg_navigator r |}.

(** A member function of [CAbstractNavigator] called on the reactive
    navigator. *)
Definition on_navigator {A} (m : Run CAbstractNavigator A)
  : Run CAbstractPTGBasedReactive A :=
  lift (fun r => base (waypoints_navigator r))
       (fun b r => set_waypoints_navigator (set_base b (waypoints_navigator r)) r)
       m.

(** [try { m } catch (...) { h }] *)
Definition try_catch_with {S} (m h : Run S unit) : Run S unit :=
  fun s =>
    match m s with
    | (s1, t1, Thrown) =>
        match h s1 with (s2, t2, o) => (s2, t1 ++ t2, o) end
    | r => r
    end.

(** What the command stage takes from the rest of the step and from the
    robot: the index chosen by the multi-objective optimizer
    ([m_multiobjopt->decide]), whether a log record is kept, the answers
    of the robot to [changeSpeedsNOP] and [changeSpeeds], what
    [generate_vel_cmd] gives for the selected movement (nothing when it
    leaves [new_vel_cmd] null, else its speed ratio and whether the
    command is a stop command), the direction of the selected movement,
    [m_infoPerPTG[best_ptg_idx].target_alpha], and the clock. *)
Record SendInput : Type := {
  best_ptg_idx : Z;
  fill_log_record : bool;
  changeSpeedsNOP_ok : bool;
  generated_vel_cmd : option (double * bool);
  selected_direction : double;
  selected_target_alpha : double;
  send_now : TTimeStamp;
  changeSpeeds_ok : bool
}.

Section SendStage.
Context {ML : MathLib}.


(** "SEND MOVEMENT COMMAND TO THE ROBOT" in [performNavigationStep]:
    from the choice of the best candidate to the end of the motion
    decision zone. [candidate_movs] has one entry per PTG and one for
    the continuation ("NOP") candidate. The log record and the filter
    of the delay model, which no modelled function reads, are left
    out. *)
Definition send_movement_command (i : SendInput) : Run CAbstractPTGBasedReactive unit :=
  r ← get;
  let nPTGs := size (PTGs r) in
  let best := best_ptg_idx i in
  let selectedHolonomicMovement := (0 <=? best)%Z in
  if selectedHolonomicMovement && (nPTGs <? best)%Z then undefined
  else
  let best_is_NOP_cmdvel := (best =? nPTGs)%Z in
  if best_is_NOP_cmdvel then
    robot changeSpeedsNOP;;
    when (negb (changeSpeedsNOP_ok i))
      (on_navigator doEmergencyStop;;
       when (fill_log_record i) (robot getEmergencyStopCmd))
  else
    let new_vel_cmd :=
      if selectedHolonomicMovement then generated_vel_cmd i else None in
    when (selectedHolonomicMovement
          && match new_vel_cmd with None => true | Some _ => false end)
      throw;;
    match new_vel_cmd with
    | None | Some (_, true) =>
        on_navigator (stop_robot true);;
        robot getEmergencyStopCmd;;
        modify (set_lastSentVelCmd TSentVelCmd_reset)
    | Some (cmd_vel_speed_ratio, false) =>
        robot changeSpeeds;;
        if negb (changeSpeeds_ok i) then
          on_navigator doEmergencyStop;;
          when (fill_log_record i) (robot getEmergencyStopCmd)
        else
          match at_index (PTGs r) best with
          | None => undefined
          | Some ptg =>
            let alpha_index :=
              if selectedHolonomicMovement
              then alpha2index ptg (selected_direction i) else 0%Z in
            match (if (0 <=? best)%Z then
                     match at_index (m_infoPerPTG r) best with
                     | Some info => at_index (TP_Obstacles info) alpha_index
                     | None => None
                     end
                   else Some 0) with
            | None => undefined
            | Some colfree =>
              modify (set_lastSentVelCmd
                {| ptg_index := best;
                   ptg_alpha_index := alpha_index;
                   tp_target_k :=
                     if selectedHolonomicMovement
                     then alpha2index ptg (selected_target_alpha i) else 0%Z;
                   tim_send_cmd_vel := send_now i;
                   poseVel := m_curPoseVel (base (waypoints_navigator r));
                   colfreedist_move_k := colfree;
                   speed_scale := cmd_vel_speed_ratio |})
            end
          end
    end.

(** The command stage inside the [try] of [performNavigationStep]: an
    exception ends in [doEmergencyStop]. *)
Definition performNavigationStep_send (i : SendInput)
  : Run CAbstractPTGBasedReactive unit :=
  try_catch_with (send_movement_command i) (on_navigator doEmergencyStop).

(** Successive command stages (one per step). *)
Fixpoint run_sends (stages : list SendInput) : Run CAbstractPTGBasedReactive unit :=
  match stages with
  | [] => mret tt
  | i :: rest =>
      fun s =>
        match performNavigationStep_send i s with
        | (s1, t1, Returned _) =>
            match run_sends rest s1 with (s2, t2, o) => (s2, t1 ++ t2, o) end
        | res => res
        end
  end.

End SendStage.

(** The robot refuses the motion command of the stage. *)
Definition command_refused (i : SendInput) (r : CAbstractPTGBasedReactive) : Prop :=
  (best_ptg_idx i = size (PTGs r) /\ changeSpeedsNOP_ok i = false)
  \/
  ((0 <= best_ptg_idx i < size (PTGs r))%Z /\
   (exists ratio, generated_vel_cmd i = Some (ratio, false)) /\
   changeSpeeds_ok i = false).

(** The stage decides to stop: no candidate was selected, or the
    selected one gives a stop command. *)
Definition stop_decided (i : SendInput) (r : CAbstractPTGBasedReactive) : Prop :=
  (best_ptg_idx i < 0)%Z
  \/
  ((0 <= best_ptg_idx i < size (PTGs r))%Z /\
   exists ratio, generated_vel_cmd i = Some (ratio, true)).

(** A command stage 0.1 s after the start of the step: the optimizer
    chose [best]; the robot answers [nop_ok] to a continuation and [ok]
    to a velocity command; no log record is kept. *)
Definition send_input (best : Z) (nop_ok : bool) (gen : option (double * bool))
    (ok : bool) : SendInput :=
  {| best_ptg_idx := best;
     fill_log_record := false;
     changeSpeedsNOP_ok := nop_ok;
     generated_vel_cmd := gen;
     selected_direction := 0;
     selected_target_alpha := 0;
     send_now := 20100000;
     changeSpeeds_ok := ok |}.

(** ** The collision-free factor of a candidate *)



(** ** CPTG_DiffDrive_CS *)

(** The fields of the PTG read by [PTG_IsIntoDomain]: [K] (+1 for
    forward paths, -1 for backward ones) and the turning radius [R],
    set to [V_MAX / W_MAX] when the configuration is loaded. *)
Record CPTG_DiffDrive_CS : Type := {
  K : double;
  R : double
}.

(** [CPTG_DiffDrive_CS::PTG_IsIntoDomain]; the [float] constant [0.10f]
    is taken as one tenth. *)
Definition PTG_IsIntoDomain (p : CPTG_DiffDrive_CS) (x y : double) : bool :=
  if Qltb (K p * x) 0 then false
  else if Qleb (R p) (Qabs y) then Qgtb (Qabs x) (R p - (10 # 100))
  else Qgtb (Qsquare x + Qsquare (Qabs y - (R p + (10 # 100)))) (Qsquare (R p)).

(** The PTG with the paths in the opposite sense. *)
Definition reversed (p : CPTG_DiffDrive_CS) : CPTG_DiffDrive_CS :=
  {| K := - K p; R := R p |}.

(** * Properties *)

(** ** Comparisons of doubles *)

Lemma Qltb_lt (a b : Q) : Qltb a b = true <-> a < b.
Proof.
  unfold Qltb. rewrite Qlt_alt. destruct (a ?= b); split; congruence.
Qed.

Lemma Qltb_ge (a b : Q) : Qltb a b = false <-> b <= a.
Proof.
  pose proof (Qltb_lt a b) as H.
  split; intros H1.
  - apply Qnot_lt_le. intros H2. apply H in H2. congruence.
  - destruct (Qltb a b); [|reflexivity].
    exfalso. apply (Qle_not_lt _ _ H1). apply H. reflexivity.
Qed.

Lemma Qgtb_gt (a b : Q) : Qgtb a b = true <-> b < a.
Proof. apply Qltb_lt. Qed.

Lemma Qleb_le (a b : Q) : Qleb a b = true <-> a <= b.
Proof.
  unfold Qleb. rewrite negb_true_iff. apply Qltb_ge.
Qed.

(** ** The definitions on small inputs *)

Example poses_insert_keeps_order :
  poses_insert 20 (mkPose 2 0 0) [(10%Z, mkPose 1 0 0); (30%Z, mkPose 3 0 0)]
  = [(10%Z, mkPose 1 0 0); (20%Z, mkPose 2 0 0); (30%Z, mkPose 3 0 0)].
Proof. reflexivity. Qed.

Example poses_insert_overwrites :
  poses_insert 10 (mkPose 5 0 0) [(10%Z, mkPose 1 0 0); (30%Z, mkPose 3 0 0)]
  = [(10%Z, mkPose 5 0 0); (30%Z, mkPose 3 0 0)].
Proof. reflexivity. Qed.

Example poses_purge_drops_old :
  poses_purge (ML := euclid)
    [(10000000%Z, mkPose 1 0 0); (200000000%Z, mkPose 2 0 0); (220000000%Z, mkPose 3 0 0)]
  = [(200000000%Z, mkPose 2 0 0); (220000000%Z, mkPose 3 0 0)].
Proof. vm_compute. reflexivity. Qed.

Example previous_pose_of_two :
  previous_pose [(10%Z, mkPose 1 0 0); (20%Z, mkPose 2 0 0); (30%Z, mkPose 3 0 0)]
  = Some (mkPose 2 0 0).
Proof. reflexivity. Qed.

Example previous_pose_of_one :
  previous_pose [(10%Z, mkPose 1 0 0)] = Some (mkPose 1 0 0).
Proof. reflexivity. Qed.

Example distance_3_4_5 :
  euclid_segment_distance (mkSegment (mkPoint 0 0) (mkPoint 0 0)) (mkPoint 3 4) == 5.
Proof. vm_compute. reflexivity. Qed.

Example distance_to_the_middle_of_a_segment :
  euclid_segment_distance (mkSegment (mkPoint 0 0) (mkPoint 2 0)) (mkPoint 1 (1 # 2))
  == 1 # 2.
Proof. vm_compute. reflexivity. Qed.

Example distance_beyond_the_end_of_a_segment :
  euclid_segment_distance (mkSegment (mkPoint 0 0) (mkPoint 2 0)) (mkPoint 5 4) == 5.
Proof. vm_compute. reflexivity. Qed.

(** The safety ramp: with the chosen path free up to 0.06 and the ramp
    from 0.05 to 0.20, the holonomic speed is scaled by 1/15. *)
Example safety_ramp_one_fifteenth :
  match build_movement_candidate_safety (ML := euclid) (reactive_with 1 20000000)
          (one_path_ptg 0) [6 # 100] 0 1 with
  | Returned sc => velScale sc == 1 # 15 /\ cm_speed sc == 1 # 15
  | _ => False
  end.
Proof. vm_compute. split; reflexivity. Qed.

(** A new navigator is idle; [navigate] starts a navigation and arms the
    alarm. *)
Example navigate_starts :
  let nav := navigator_to false in
  m_navigationState fresh_navigator = IDLE /\
  m_navigationState nav = NAVIGATING /\
  m_navigationParams nav = Some (target_at 1 0 (1 # 2) false) /\
  m_badNavAlarm_minDistTarget nav = DBL_MAX.
Proof. repeat split. Qed.

(** ** The guarded state changes *)

(** C10: [suspend] outside NAVIGATING, [resume] outside SUSPENDED and
    [resetNavError] outside NAV_ERROR return leaving every field of the
    navigator as it was and invoking no callback of the robot
    interface. *)
Theorem guarded_calls_are_noops (nav : CAbstractNavigator) :
  (m_navigationState nav <> NAVIGATING -> suspend nav = (nav, [], Returned tt)) /\
  (m_navigationState nav <> SUSPENDED -> resume nav = (nav, [], Returned tt)) /\
  (m_navigationState nav <> NAV_ERROR -> resetNavError nav = (nav, [], Returned tt)).
Proof.
  unfold suspend, resume, resetNavError, mbind, run_bind, get, when.
  repeat split; intros H; cbn; destruct (m_navigationState nav);
    try reflexivity; contradiction.
Qed.

(** On a new navigator, which is idle, all three are no-ops. *)
Lemma guarded_calls_are_noops_witness :
  suspend fresh_navigator = (fresh_navigator, [], Returned tt) /\
  resume fresh_navigator = (fresh_navigator, [], Returned tt) /\
  resetNavError fresh_navigator = (fresh_navigator, [], Returned tt).
Proof.
  destruct (guarded_calls_are_noops fresh_navigator) as (Hs & Hr & He).
  split; [apply Hs | split; [apply Hr | apply He]]; discriminate.
Defined.

(** ** Traces *)

Arguments invoked : simpl never.
Arguments calls_within : simpl never.

Lemma RobotCall_eqb_refl (c : RobotCall) : RobotCall_eqb c c = true.
Proof.
  destruct c; cbn; try reflexivity;
    try apply Z.eqb_refl; destruct isEmergencyStop; reflexivity.
Qed.

Lemma RobotCall_eqb_eq (a b : RobotCall) : RobotCall_eqb a b = true -> a = b.
Proof.
  destruct a, b; cbn; try discriminate; try reflexivity; intros H.
  - destruct isEmergencyStop, isEmergencyStop0; try discriminate; reflexivity.
  - apply Z.eqb_eq in H. congruence.
  - apply Z.eqb_eq in H. congruence.
  - apply Z.eqb_eq in H. congruence.
Qed.

Lemma invoked_app (c : RobotCall) (t1 t2 : list RobotCall) :
  invoked c (t1 ++ t2) = invoked c t1 || invoked c t2.
Proof. unfold invoked. apply existsb_app. Qed.

Lemma invoked_cons (c a : RobotCall) (t : list RobotCall) :
  invoked c (a :: t) = RobotCall_eqb c a || invoked c t.
Proof. reflexivity. Qed.

Lemma invoked_nil (c : RobotCall) : invoked c [] = false.
Proof. reflexivity. Qed.

Lemma calls_within_app (f : RobotCall -> bool) (t1 t2 : list RobotCall) :
  calls_within f t1 -> calls_within f t2 -> calls_within f (t1 ++ t2).
Proof.
  unfold calls_within. intros H1 H2. rewrite forallb_app, H1, H2. reflexivity.
Qed.

Lemma calls_within_not_invoked (f : RobotCall -> bool) (c : RobotCall)
    (t : list RobotCall) :
  calls_within f t -> f c = false -> invoked c t = false.
Proof.
  unfold calls_within, invoked. intros Ht Hc.
  induction t as [|a t IH]; cbn in *; [reflexivity|].
  apply andb_true_iff in Ht as [Ha Ht]. rewrite (IH Ht), orb_false_r.
  destruct (RobotCall_eqb c a) eqn:E; [|reflexivity].
  apply RobotCall_eqb_eq in E. congruence.
Qed.

(** ** The pose update *)

(** Unfolds the operations of the monad. *)
Ltac unfold_run :=
  unfold doEmergencyStop, stop_robot, try_catch, when, mbind, run_bind,
    mret, run_ret, get, modify, robot, throw, undefined in *.

Lemma same_control_refl (a : CAbstractNavigator) : same_control a a.
Proof. unfold same_control. repeat split. Qed.

Lemma same_control_trans (a b c : CAbstractNavigator) :
  same_control a b -> same_control b c -> same_control a c.
Proof.
  unfold same_control. intros H1 H2.
  repeat match goal with H : _ /\ _ |- _ => destruct H end.
  repeat split; congruence.
Qed.

Section BaseStep.
Context {ML : MathLib}.

(** The pose update either returns, having touched the pose fields only
    and called the robot for its time and pose, or throws after putting
    the navigator in NAV_ERROR and commanding an emergency stop. *)
Lemma updateCurrentPoseAndSpeeds_cases (q : PoseQuery) (nav : CAbstractNavigator) :
  let r := updateCurrentPoseAndSpeeds q nav in
  (outcome_of r = Returned tt /\ same_control (state_of r) nav /\
   calls_within refresh_call (trace_of r))
  \/
  (outcome_of r = Thrown /\ pose_reading q = None /\
   same_control (state_of r) (set_navigationState NAV_ERROR nav) /\
   trace_of r = [getNavigationTime; getCurrentPoseAndSpeeds; stop true]).
Proof.
  unfold updateCurrentPoseAndSpeeds, mbind, run_bind, get, robot. cbn.
  destruct (Qleb 0 (m_last_curPoseVelUpdate_robot_time nav)
            && Qltb (robot_time_secs q - m_last_curPoseVelUpdate_robot_time nav)
                 MIN_TIME_BETWEEN_POSE_UPDATES).
  - left. cbn. repeat split.
  - destruct (pose_reading q) as [[[p v] ts]|]; cbn.
    + left. repeat split.
    + right. repeat split.
Qed.

(** Entering NAVIGATING and updating the pose: as for the pose update. *)
Lemma navigationStep_refresh_cases (i : StepInput) (nav : CAbstractNavigator) :
  let r := navigationStep_refresh i nav in
  (outcome_of r = Returned tt /\ same_control (state_of r) nav /\
   calls_within refresh_call (trace_of r))
  \/
  (outcome_of r = Thrown /\ pose_reading (step_pose i) = None /\
   same_control (state_of r) (set_navigationState NAV_ERROR nav) /\
   exists t0, trace_of r = t0 ++ [stop true] /\ calls_within refresh_call t0).
Proof.
  unfold navigationStep_refresh, mbind, run_bind, get, when, onStartNewNavigation,
    robot, modify, mret, run_ret.
  destruct (TState_eqb (m_lastNavigationState nav) NAVIGATING) eqn:E1;
    destruct (TState_eqb (m_lastNavigationState nav) IDLE) eqn:E2; cbn;
    match goal with
    | |- context [updateCurrentPoseAndSpeeds ?q ?s] =>
        pose proof (updateCurrentPoseAndSpeeds_cases q s) as H;
        destruct (updateCurrentPoseAndSpeeds q s) as [[s1 t1] o1]
    end; cbn in *;
    (destruct H as [(Ho & Hs & Ht) | (Ho & Hq & Hs & Ht)]; subst o1;
     [left; repeat split; try apply Hs; try exact Ht
     |right; split; [reflexivity|]; split; [exact Hq|]; split;
      [repeat split; apply Hs|]]).
  all: try (subst t1; eexists [_; _]; split; reflexivity).
  all: try (subst t1; eexists [_; _; _]; split; reflexivity).
  all: try (subst t1; eexists [_; _; _; _]; split; reflexivity).
Qed.

(** The derived decision step, seen from the base object: it leaves the
    object as it is or in NAV_ERROR, it calls the robot only to command
    speeds or an emergency stop, and it returns or throws. *)
Lemma performNavigationStep_cases (acts : list ReactiveAction) (throws : bool)
    (nav : CAbstractNavigator) :
  let r := performNavigationStep acts throws nav in
  outcome_of r <> Undefined /\
  (state_of r = nav \/ state_of r = set_navigationState NAV_ERROR nav) /\
  calls_within reactive_call (trace_of r).
Proof.
  revert nav. induction acts as [|a acts IH]; intros nav; cbn.
  - destruct throws; cbn; repeat split; try discriminate; left; reflexivity.
  - destruct a; unfold run_action; unfold_run; cbn;
      match goal with
      | |- context [performNavigationStep acts throws ?s] =>
          specialize (IH s);
          destruct (performNavigationStep acts throws s) as [[s1 t1] o1]
      end; cbn in *; destruct IH as (Ho & Hs & Ht);
      (split; [exact Ho|]);
      (split; [|unfold calls_within in *; cbn; exact Ht]);
      destruct Hs as [-> | ->]; auto.
Qed.

End BaseStep.

(** ** Arrival *)

Section Arrival.
Context {ML : MathLib}.

(** C1 (amended): in the NAVIGATING step, when the distance from the
    target to the segment of the robot motion is below
    [targetAllowedDistance], the target is marked reached and the state
    becomes IDLE, for a final target and for an intermediary waypoint
    alike; the robot is stopped (not as an emergency) exactly when the
    target is not an intermediary waypoint. *)
Theorem arrival_goes_idle (i : StepInput) (nav s1 : CAbstractNavigator)
    (t1 : list RobotCall) (seg : TSegment2D) (p : TNavigationParams) :
  m_navigationState nav = NAVIGATING ->
  m_navigationParams nav = Some p ->
  navigationStep_refresh i nav = (s1, t1, Returned tt) ->
  seg_robot_mov s1 = Some seg ->
  segment_distance seg (TPoint2D_of_pose (target p)) < targetAllowedDistance p ->
  let r := navigationStep i nav in
  outcome_of r = Returned tt /\
  m_lastNavTargetReached (state_of r) = true /\
  m_navigationState (state_of r) = IDLE /\
  invoked (stop false) (trace_of r) = negb (targetIsIntermediaryWaypoint p) /\
  invoked (stop true) (trace_of r) = false.
Proof.
  intros Hst Hp Href Hseg Hd.
  pose proof (navigationStep_refresh_cases i nav) as Hc.
  rewrite Href in Hc. cbn in Hc.
  destruct Hc as [(_ & Hs & Ht) | (Ho & _)]; [|discriminate].
  assert (Hp1 : m_navigationParams s1 = Some p) by (destruct Hs as (_&_&_&->&_); exact Hp).
  apply Qltb_lt in Hd.
  unfold navigationStep, navigationStep_NAVIGATING, navigationStep_decide.
  unfold_run. rewrite Hst, Href, Hseg, Hp1, Hd. cbn.
  destruct (targetIsIntermediaryWaypoint p);
    destruct (m_navigationEndEventSent s1) eqn:E;
    destruct (Qltb (segment_distance seg (TPoint2D_of_pose (target p)))
       (dist_to_target_for_sending_event (params_abstract_navigator s1)));
    cbn; rewrite ?E; cbn; rewrite ?app_nil_r;
    rewrite ?invoked_app, ?(calls_within_not_invoked _ (stop false) _ Ht),
      ?(calls_within_not_invoked _ (stop true) _ Ht) by reflexivity;
    repeat split; reflexivity.
Qed.
End Arrival.

(** At a final target the robot stands on. *)
Lemma arrival_goes_idle_witness :
  let r := navigationStep (ML := euclid) step_on_target (navigator_to false) in
  outcome_of r = Returned tt /\
  m_lastNavTargetReached (state_of r) = true /\
  m_navigationState (state_of r) = IDLE /\
  invoked (stop false) (trace_of r) = true /\
  invoked (stop true) (trace_of r) = false.
Proof.
  eapply (arrival_goes_idle (ML := euclid) step_on_target (navigator_to false)
            _ _ _ (target_at 1 0 (1 # 2) false)).
  - reflexivity.
  - reflexivity.
  - vm_compute. reflexivity.
  - vm_compute. reflexivity.
  - vm_compute. reflexivity.
Defined.

(** C1 (as stated, refuted): the target is an intermediary waypoint, the
    robot stands on it, and the step leaves the navigator in IDLE, not
    in NAVIGATING (the robot is not stopped). *)
Lemma arrival_at_intermediary_waypoint_goes_idle :
  let nav := navigator_to true in
  let r := navigationStep (ML := euclid) step_on_target nav in
  m_navigationState nav = NAVIGATING /\
  (exists p s1 t1 seg,
     m_navigationParams nav = Some p /\
     targetIsIntermediaryWaypoint p = true /\
     navigationStep_refresh (ML := euclid) step_on_target nav = (s1, t1, Returned tt) /\
     seg_robot_mov s1 = Some seg /\
     segment_distance (MathLib := euclid) seg (TPoint2D_of_pose (target p))
       < targetAllowedDistance p) /\
  invoked (stop false) (trace_of r) = false /\
  m_lastNavTargetReached (state_of r) = true /\
  m_navigationState (state_of r) = IDLE /\
  m_navigationState (state_of r) <> NAVIGATING.
Proof.
  cbv zeta. split; [reflexivity|]. split.
  - eexists _, _, _, _. split; [reflexivity|]. split; [reflexivity|].
    split; [vm_compute; reflexivity|].
    split; [vm_compute; reflexivity|]. vm_compute. reflexivity.
  - split; [vm_compute; reflexivity|]. split; [vm_compute; reflexivity|].
    assert (H : m_navigationState
                  (state_of (navigationStep (ML := euclid) step_on_target
                               (navigator_to true))) = IDLE)
      by (vm_compute; reflexivity).
    split; [exact H | rewrite H; discriminate].
Qed.

(** The hand-over at an intermediary waypoint: the step that reaches it
    leaves the navigator IDLE without stopping the robot, and the next
    tick of the waypoint sequencer reports the waypoint, sends the
    navigator to the next one and so brings it back to NAVIGATING. *)
Example intermediary_arrival_handover :
  let r1 := run_steps (ML := euclid) [tick_on_first_waypoint 1] handover_scenario in
  let r2 := run_steps (ML := euclid) [tick_on_first_waypoint 2] (state_of r1) in
  m_navigationState (base (state_of r1)) = IDLE /\
  m_lastNavTargetReached (base (state_of r1)) = true /\
  invoked (stop false) (trace_of r1) = false /\
  m_navigationState (base (state_of r2)) = NAVIGATING /\
  trace_of r2 = [getNavigationTime; getCurrentPoseAndSpeeds;
                 sendWaypointReachedEvent 0; sendNewWaypointTargetEvent 1;
                 getNavigationTime; changeSpeeds].
Proof. cbv zeta. repeat split; vm_compute; reflexivity. Qed.

(** ** What a step can do to the state, the target and the trace *)

Ltac finish_summary :=
  repeat split; auto;
  try (intros; congruence);
  try (let H := fresh in intros H; specialize (H _ eq_refl); congruence).

Section StepSummary.
Context {ML : MathLib}.

Lemma navigationStep_decide_summary (i : StepInput) (s : CAbstractNavigator) :
  let r := navigationStep_decide i s in
  m_navigationParams (state_of r) = m_navigationParams s /\
  (m_navigationState (state_of r) = m_navigationState s \/
   m_navigationState (state_of r) = IDLE \/
   m_navigationState (state_of r) = NAV_ERROR) /\
  (outcome_of r = Undefined -> m_navigationParams s = None) /\
  ((forall p, m_navigationParams s = Some p -> targetIsIntermediaryWaypoint p = true) ->
   invoked sendNavigationEndEvent (trace_of r) = false).
Proof.
  unfold navigationStep_decide. unfold_run.
  destruct (seg_robot_mov s) as [seg|]; [|cbn; finish_summary].
  destruct (m_navigationParams s) as [p|] eqn:Hp; [|cbn; finish_summary].
  pose proof (performNavigationStep_cases (step_perform i) (step_perform_throws i)) as Hperf.
  destruct (targetIsIntermediaryWaypoint p) eqn:Ei;
    destruct (m_navigationEndEventSent s) eqn:E;
    destruct (Qltb (segment_distance seg (TPoint2D_of_pose (target p)))
       (dist_to_target_for_sending_event (params_abstract_navigator s)));
    destruct (Qltb (segment_distance seg (TPoint2D_of_pose (target p)))
       (targetAllowedDistance p));
    cbn; rewrite ?E; cbn; try solve [finish_summary].
  all: destruct (Qltb (segment_distance seg (TPoint2D_of_pose (target p)))
                   (m_badNavAlarm_minDistTarget s)); cbn;
    [|destruct (Qgtb (timeDifference (m_badNavAlarm_lastMinDistTime s) (step_now i))
          (alarm_seems_not_approaching_target_timeout (params_abstract_navigator s)));
      cbn; [solve [finish_summary]|]].
  all: match goal with
       | |- context [performNavigationStep ?a ?t ?s0] =>
           specialize (Hperf s0);
           destruct (performNavigationStep a t s0) as [[s2 t2] o2]
       end; cbn in *; destruct Hperf as (Ho & Hs & Ht);
    rewrite ?invoked_app, ?(calls_within_not_invoked _ sendNavigationEndEvent _ Ht)
      by reflexivity;
    destruct Hs as [-> | ->]; cbn; rewrite ?Hp; finish_summary.
Qed.

Lemma navigationStep_summary (i : StepInput) (nav : CAbstractNavigator) :
  let r := navigationStep i nav in
  m_navigationParams (state_of r) = m_navigationParams nav /\
  (m_navigationState (state_of r) = m_navigationState nav \/
   (m_navigationState nav = NAVIGATING /\
    (m_navigationState (state_of r) = IDLE \/
     m_navigationState (state_of r) = NAV_ERROR))) /\
  (outcome_of r = Undefined ->
   m_navigationState nav = NAVIGATING /\ m_navigationParams nav = None) /\
  outcome_of r <> Thrown /\
  ((forall p, m_navigationParams nav = Some p -> targetIsIntermediaryWaypoint p = true) ->
   invoked sendNavigationEndEvent (trace_of r) = false).
Proof.
  unfold navigationStep. unfold_run.
  destruct (m_navigationState nav) eqn:Hst.
  1, 3, 4: destruct (TState_eqb (m_lastNavigationState nav) NAVIGATING); cbn;
    rewrite ?Hst; repeat split; auto; discriminate.
  unfold navigationStep_NAVIGATING. unfold_run.
  pose proof (navigationStep_refresh_cases i nav) as Href.
  destruct (navigationStep_refresh i nav) as [[s1 t1] o1]. cbn in Href.
  destruct Href as [(-> & Hs & Ht) | (-> & _ & Hs & t0 & -> & Ht)].
  - pose proof (navigationStep_decide_summary i s1) as Hdec.
    destruct (navigationStep_decide i s1) as [[s2 t2] o2]. cbn in Hdec.
    destruct Hs as (_ & _ & Hs3 & Hs4 & _).
    destruct Hdec as (Hp & Hn & Hu & He). rewrite Hs3, Hs4, Hst in *.
    assert (Hend : (forall p, m_navigationParams nav = Some p ->
                        targetIsIntermediaryWaypoint p = true) ->
                   invoked sendNavigationEndEvent (t1 ++ t2) = false).
    { intros H. rewrite invoked_app, (He H),
        (calls_within_not_invoked _ sendNavigationEndEvent _ Ht) by reflexivity.
      reflexivity. }
    destruct o2; cbn; rewrite ?app_nil_r;
      (split; [exact Hp|]); (split; [tauto|]);
      (split; [intros; auto; discriminate|]); (split; [discriminate|exact Hend]).
  - cbn. destruct Hs as (_ & _ & Hs3 & Hs4 & _). cbn in Hs3, Hs4.
    rewrite app_nil_r, invoked_app,
      (calls_within_not_invoked _ sendNavigationEndEvent _ Ht) by reflexivity.
    repeat split; auto; discriminate.
Qed.

(** A step leaves NAVIGATING for IDLE only on arrival: the target is
    then marked as reached. *)
Lemma navigationStep_to_IDLE_is_arrival (i : StepInput) (nav : CAbstractNavigator) :
  m_navigationState nav = NAVIGATING ->
  m_navigationState (state_of (navigationStep i nav)) = IDLE ->
  m_lastNavTargetReached (state_of (navigationStep i nav)) = true.
Proof.
  intros Hst. unfold navigationStep, navigationStep_NAVIGATING. unfold_run.
  rewrite Hst.
  pose proof (navigationStep_refresh_cases i nav) as Href.
  destruct (navigationStep_refresh i nav) as [[s1 t1] o1]. cbn in Href.
  destruct Href as [(-> & Hs & Ht) | (-> & _ & Hs & _)].
  2: { cbn. destruct Hs as (_ & _ & Hs3 & _). cbn in Hs3. congruence. }
  destruct Hs as (_ & _ & Hs3 & _). rewrite Hst in Hs3.
  unfold navigationStep_decide. unfold_run.
  destruct (seg_robot_mov s1) as [seg|]; [|cbn; congruence].
  destruct (m_navigationParams s1) as [p|]; [|cbn; congruence].
  pose proof (performNavigationStep_cases (step_perform i) (step_perform_throws i)) as Hperf.
  destruct (negb (targetIsIntermediaryWaypoint p) && negb (m_navigationEndEventSent s1)
            && Qltb (segment_distance seg (TPoint2D_of_pose (target p)))
                 (dist_to_target_for_sending_event (params_abstract_navigator s1)));
    cbn;
    (destruct (Qltb (segment_distance seg (TPoint2D_of_pose (target p)))
                 (targetAllowedDistance p)); cbn;
     [destruct (negb (targetIsIntermediaryWaypoint p)); cbn;
      try destruct (negb (m_navigationEndEventSent s1)); cbn; reflexivity|]);
    (destruct (Qltb (segment_distance seg (TPoint2D_of_pose (target p)))
                 (m_badNavAlarm_minDistTarget s1)); cbn;
     [|destruct (Qgtb (timeDifference (m_badNavAlarm_lastMinDistTime s1) (step_now i))
           (alarm_seems_not_approaching_target_timeout (params_abstract_navigator s1)));
       cbn; [discriminate|]]).
  all: match goal with
       | |- context [performNavigationStep ?a ?t ?s0] =>
           specialize (Hperf s0);
           destruct (performNavigationStep a t s0) as [[s2 t2] o2]
       end; cbn in *; destruct Hperf as (Ho & Hs & Ht2);
    destruct Hs as [-> | ->]; destruct o2; cbn; congruence.
Qed.

(** The calls other than a step. *)
Lemma navigate_summary (params : TNavigationParams) (ni : NavigateInput)
    (nav : CAbstractNavigator) :
  let r := navigate params ni nav in
  (exists p, m_navigationParams (state_of r) = Some p /\
             targetIsIntermediaryWaypoint p = targetIsIntermediaryWaypoint params) /\
  (m_navigationState (state_of r) = NAVIGATING \/
   m_navigationState (state_of r) = NAV_ERROR) /\
  outcome_of r <> Undefined /\
  calls_within (fun c => refresh_call c || RobotCall_eqb c (stop true)) (trace_of r).
Proof.
  unfold navigate. unfold_run. cbn.
  destruct (targetIsRelative params); cbn.
  - match goal with
    | |- context [updateCurrentPoseAndSpeeds ?q ?s] =>
        pose proof (updateCurrentPoseAndSpeeds_cases q s) as H;
        destruct (updateCurrentPoseAndSpeeds q s) as [[s1 t1] o1]
    end. cbn in H.
    destruct H as [(-> & Hs & Ht) | (-> & _ & Hs & ->)]; cbn.
    + repeat split; eauto; try discriminate.
      rewrite !app_nil_r. unfold calls_within in *.
      rewrite forallb_forall in *. intros c Hc. rewrite (Ht c Hc). reflexivity.
    + destruct Hs as (_ & _ & Hs3 & Hs4 & _). cbn in Hs3, Hs4.
      repeat split; eauto; discriminate.
  - repeat split; eauto; discriminate.
Qed.

Lemma other_calls_summary (c : Call) (nav : CAbstractNavigator) :
  is_navigate c = false ->
  (forall i, c <> call_navigationStep i) ->
  let r := run_call c nav in
  m_navigationParams (state_of r) = m_navigationParams nav /\
  outcome_of r = Returned tt /\
  invoked sendNavigationEndEvent (trace_of r) = false.
Proof.
  intros Hn Hs. destruct c; try discriminate; cbn;
    try (exfalso; eapply Hs; reflexivity);
    unfold cancel, suspend, resume, resetNavError; unfold_run; cbn;
    try destruct (TState_eqb (m_navigationState nav) _); cbn; repeat split.
Qed.

End StepSummary.

(** ** The navigation-end event *)

Section EndEvent.
Context {ML : MathLib}.

Lemma run_without_navigate_no_end_event (cs : list Call) (nav : CAbstractNavigator)
    (p : TNavigationParams) :
  m_navigationParams nav = Some p ->
  targetIsIntermediaryWaypoint p = true ->
  forallb (fun c => negb (is_navigate c)) cs = true ->
  invoked sendNavigationEndEvent (trace_of (run_calls cs nav)) = false.
Proof.
  revert nav. induction cs as [|c cs IH]; intros nav Hp Hi Hcs; [reflexivity|].
  cbn in Hcs. apply andb_true_iff in Hcs as [Hc Hcs].
  apply negb_true_iff in Hc.
  assert (H : m_navigationParams (state_of (run_call c nav)) = Some p /\
              invoked sendNavigationEndEvent (trace_of (run_call c nav)) = false).
  { destruct c; try discriminate.
    5: { pose proof (navigationStep_summary i nav) as (H1 & _ & _ & _ & H5).
         cbn. split; [congruence|]. apply H5. intros q Hq.
         rewrite Hp in Hq. congruence. }
    all: match goal with
         | |- context [run_call ?c ?n] =>
             pose proof (other_calls_summary c n eq_refl) as H
         end;
      destruct H as (H1 & _ & H3); [discriminate|]; split; congruence. }
  destruct H as [Hp1 Ht1]. cbn [run_calls].
  destruct (run_call c nav) as [[s1 t1] o1]. cbn in Hp1, Ht1.
  specialize (IH s1 Hp1 Hi Hcs).
  destruct (run_calls cs s1) as [[s2 t2] o2]. cbn in IH.
  destruct o1; cbn; rewrite ?invoked_app, ?Ht1, ?IH; reflexivity.
Qed.

(** C3: from a [navigate] to an intermediary waypoint until the next
    [navigate], no step and no other call emits the navigation-end event,
    whatever the distance to the target. *)
Theorem no_end_event_for_intermediary_waypoint (params : TNavigationParams)
    (ni : NavigateInput) (rest : list Call) (nav : CAbstractNavigator) :
  targetIsIntermediaryWaypoint params = true ->
  forallb (fun c => negb (is_navigate c)) rest = true ->
  invoked sendNavigationEndEvent
    (trace_of (run_calls (call_navigate params ni :: rest) nav)) = false.
Proof.
  intros Hi Hrest. cbn [run_calls run_call].
  pose proof (navigate_summary params ni nav) as ((p & Hp & Hpi) & _ & Hu & Ht).
  destruct (navigate params ni nav) as [[s1 t1] o1]. cbn in Hp, Hu, Ht.
  assert (Ht1 : invoked sendNavigationEndEvent t1 = false)
    by (apply (calls_within_not_invoked _ _ _ Ht); reflexivity).
  rewrite Hi in Hpi.
  pose proof (run_without_navigate_no_end_event rest s1 p Hp Hpi Hrest) as IH.
  destruct (run_calls rest s1) as [[s2 t2] o2]. cbn in IH.
  destruct o1; cbn; rewrite ?invoked_app, ?Ht1, ?IH; reflexivity.
Qed.

End EndEvent.

(** A run that reaches the intermediary waypoint (1,0). *)
Lemma no_end_event_for_intermediary_waypoint_witness :
  invoked sendNavigationEndEvent
    (trace_of
       (run_calls (ML := euclid)
          (call_navigate (target_at 1 0 (1 # 2) true)
             {| nav_pose := robot_at 0 0 10000000 1; nav_now := 10000000 |}
           :: [call_navigationStep step_on_target; call_suspend; call_resume;
               call_navigationStep (step_with (robot_at 1 0 30000000 3) 30000000)])
          fresh_navigator)) = false.
Proof.
  apply (no_end_event_for_intermediary_waypoint (ML := euclid)); reflexivity.
Defined.

(** ** The edges of the state machine *)

Section Edges.
Context {ML : MathLib}.






End Edges.


(** ** The "not approaching the target" alarm *)

Section Stall.
Context {ML : MathLib}.

(** C9: in a NAVIGATING step that does not detect arrival, a distance
    below the minimum seen so far becomes the new minimum, stamped with
    the current time; otherwise the minimum and its time stay, and when
    the time since the last improvement exceeds
    [alarm_seems_not_approaching_target_timeout] the step emits the
    way-blocked event and puts the navigator in NAV_ERROR without
    commanding any stop. The timeout is 30 s by default. *)
Theorem stall_alarm (i : StepInput) (nav s1 : CAbstractNavigator)
    (t1 : list RobotCall) (seg : TSegment2D) (p : TNavigationParams) :
  m_navigationState nav = NAVIGATING ->
  m_navigationParams nav = Some p ->
  navigationStep_refresh i nav = (s1, t1, Returned tt) ->
  seg_robot_mov s1 = Some seg ->
  targetAllowedDistance p <= segment_distance seg (TPoint2D_of_pose (target p)) ->
  let d := segment_distance seg (TPoint2D_of_pose (target p)) in
  let elapsed := timeDifference (m_badNavAlarm_lastMinDistTime nav) (step_now i) in
  let timeout :=
    alarm_seems_not_approaching_target_timeout (params_abstract_navigator nav) in
  let r := navigationStep i nav in
  (d < m_badNavAlarm_minDistTarget nav ->
   m_badNavAlarm_minDistTarget (state_of r) = d /\
   m_badNavAlarm_lastMinDistTime (state_of r) = step_now i /\
   invoked sendWaySeemsBlockedEvent (trace_of r) = false) /\
  (m_badNavAlarm_minDistTarget nav <= d ->
   m_badNavAlarm_minDistTarget (state_of r) = m_badNavAlarm_minDistTarget nav /\
   m_badNavAlarm_lastMinDistTime (state_of r) = m_badNavAlarm_lastMinDistTime nav /\
   (timeout < elapsed ->
    m_navigationState (state_of r) = NAV_ERROR /\
    invoked sendWaySeemsBlockedEvent (trace_of r) = true /\
    invoked (stop true) (trace_of r) = false /\
    invoked (stop false) (trace_of r) = false) /\
   (elapsed <= timeout ->
    invoked sendWaySeemsBlockedEvent (trace_of r) = false)) /\
  alarm_seems_not_approaching_target_timeout TAbstractNavigatorParams_ctor = 30.
Proof.
  intros Hst Hp Href Hseg Hd d elapsed timeout.
  pose proof (navigationStep_refresh_cases i nav) as Hc.
  rewrite Href in Hc. cbn in Hc.
  destruct Hc as [(_ & Hs & Ht) | (Ho & _)]; [|discriminate].
  destruct Hs as (_ & Hs2 & _ & Hs4 & _ & Hs6 & Hs7 & Hs8).
  rewrite Hp in Hs4. apply Qltb_ge in Hd.
  pose proof (performNavigationStep_cases (step_perform i) (step_perform_throws i)) as Hperf.
  unfold navigationStep, navigationStep_NAVIGATING, navigationStep_decide.
  unfold_run. rewrite Hst, Href, Hseg, Hs4, Hd, Hs6, Hs7, Hs8. cbn.
  fold d elapsed timeout.
  assert (Hw : forall c, refresh_call c = false -> invoked c t1 = false)
    by (intros c Hc; apply (calls_within_not_invoked _ _ _ Ht Hc)).
  destruct (negb (targetIsIntermediaryWaypoint p)
            && negb (m_navigationEndEventSent s1)
            && Qltb d (dist_to_target_for_sending_event (params_abstract_navigator nav)));
    cbn;
    (destruct (Qltb d (m_badNavAlarm_minDistTarget nav)) eqn:Em; cbn;
     [|destruct (Qgtb elapsed timeout) eqn:Eg; cbn]).
  all: try match goal with
       | |- context [performNavigationStep ?a ?t ?s0] =>
           specialize (Hperf s0);
           destruct (performNavigationStep a t s0) as [[s2 t2] o2];
           cbn in Hperf; destruct Hperf as (Ho & Hs & Ht2);
           pose proof (calls_within_not_invoked _ sendWaySeemsBlockedEvent _ Ht2 eq_refl)
             as Hb2;
           destruct Hs as [-> | ->]; destruct o2; try contradiction
       end; cbn.
  all: rewrite ?app_nil_r, ?invoked_app, ?invoked_cons, ?invoked_nil, ?Hw, ?Hb2,
         ?Hs6, ?Hs7 by reflexivity; cbn.
  all: (split; [|split; [|reflexivity]]).
  all: try (intros Hlt; apply Qltb_lt in Hlt; congruence).
  all: try (intros Hle; apply Qltb_ge in Hle; congruence).
  all: try (intros _; repeat split; reflexivity).
  all: intros _; (split; [reflexivity|]); (split; [reflexivity|]); split.
  all: try (intros Hlt; apply Qgtb_gt in Hlt; congruence).
  all: try (intros Hlt; repeat split; reflexivity).
  all: intros Hle; exfalso; apply Qgtb_gt in Eg; apply (Qlt_not_le _ _ Eg Hle).
Qed.
End Stall.

(** A robot that has not moved for 31 s. *)
Lemma stall_alarm_witness :
  let r := navigationStep (ML := euclid) late_step_far navigator_stalled in
  m_navigationState (state_of r) = NAV_ERROR /\
  invoked sendWaySeemsBlockedEvent (trace_of r) = true /\
  invoked (stop true) (trace_of r) = false /\
  invoked (stop false) (trace_of r) = false.
Proof.
  pose (x := navigationStep_refresh (ML := euclid) late_step_far navigator_stalled).
  pose proof (stall_alarm (ML := euclid) late_step_far navigator_stalled
                (state_of x) (trace_of x)
                (mkSegment (mkPoint 0 0) (mkPoint 0 0))
                (target_at 10 0 (1 # 2) false)) as H.
  destruct H as (_ & H & _).
  - vm_compute. reflexivity.
  - vm_compute. reflexivity.
  - vm_compute. reflexivity.
  - vm_compute. reflexivity.
  - vm_compute. discriminate.
  - destruct H as (_ & _ & H & _).
    + vm_compute. discriminate.
    + apply H. vm_compute. reflexivity.
Defined.

(** ** The waypoint sequencer *)

Lemma at_index_Some {A} (v : list A) (i : Z) (a : A) :
  at_index v i = Some a -> (0 <= i < size v)%Z.
Proof.
  unfold at_index, size. destruct (i <? 0)%Z eqn:E; [discriminate|].
  apply Z.ltb_ge in E. intros H. apply lookup_lt_Some in H. lia.
Qed.

Lemma at_index_in_range {A} (v : list A) (i : Z) :
  (0 <= i < size v)%Z -> exists a, at_index v i = Some a.
Proof.
  unfold at_index, size. intros H.
  destruct (i <? 0)%Z eqn:E; [apply Z.ltb_lt in E; lia|].
  destruct (lookup_lt_is_Some_2 v (Z.to_nat i)) as [a Ha]; [lia|].
  exists a. exact Ha.
Qed.

Lemma at_index_update_ne {A} (v : list A) (i j : Z) (f : A -> A) :
  i <> j -> at_index (update_index v i f) j = at_index v j.
Proof.
  intros Hne. unfold update_index.
  destruct (at_index v i) as [a|] eqn:Hi; [|reflexivity].
  unfold at_index in *.
  destruct (i <? 0)%Z eqn:Ei; [discriminate|]. apply Z.ltb_ge in Ei.
  destruct (j <? 0)%Z eqn:Ej; [reflexivity|]. apply Z.ltb_ge in Ej.
  apply list_lookup_insert_ne. lia.
Qed.

Section LookAhead.
Context {ML : MathLib}.

(** A waypoint becomes the most advanced candidate only when its
    counter, once incremented, exceeds
    [min_timesteps_confirm_skip_waypoints]: while every counter from
    [idx] on is below that parameter, the scan proposes no advance. *)
Lemma skip_scan_needs_confirmation (pars : TWaypointsNavigatorParams)
    (robot_pose : TPose2D) (is_reachable : TPoint2D -> bool) (n : nat) :
  forall (idx : Z) (wps : list TWaypointStatus) (most : Z),
    (forall j w, (idx <= j)%Z -> at_index wps j = Some w ->
                 (counter_seen_reachable w < min_timesteps_confirm_skip_waypoints pars)%Z) ->
    snd (skip_scan pars robot_pose is_reachable n idx wps most) = most.
Proof.
  induction n as [|n IH]; intros idx wps most Hc; [reflexivity|].
  cbn [skip_scan].
  destruct (idx <? 0)%Z; [apply IH; intros j w Hj; apply Hc; lia|].
  destruct (at_index wps idx) as [w|] eqn:Hw; [|reflexivity].
  destruct (Qgtb (max_distance_to_allow_skip_waypoint pars) 0
            && Qgtb (point_norm (inverseComposePoint robot_pose (wp_target (waypoint w))))
                 (max_distance_to_allow_skip_waypoint pars));
    [apply IH; intros j w' Hj; apply Hc; lia|].
  pose proof (Hc idx w (Z.le_refl idx) Hw) as Hlt.
  destruct (is_reachable (inverseComposePoint robot_pose (wp_target (waypoint w)))).
  - replace (counter_seen_reachable w + 1 >? min_timesteps_confirm_skip_waypoints pars)%Z
      with false by (symmetry; rewrite Z.gtb_ltb; apply Z.ltb_ge; lia).
    destruct (negb (allow_skip (waypoint w))); [reflexivity|].
    apply IH. intros j w' Hj. rewrite at_index_update_ne by lia. apply Hc. lia.
  - destruct (negb (allow_skip (waypoint w))); [reflexivity|].
    apply IH. intros j w' Hj. apply Hc. lia.
Qed.

(** When the distance to a skipped waypoint is not limited
    ([max_distance_to_allow_skip_waypoint <= 0], the default), the scan
    never proposes a waypoint beyond one that must not be skipped. *)
Lemma skip_scan_stops_at_unskippable (pars : TWaypointsNavigatorParams)
    (robot_pose : TPose2D) (is_reachable : TPoint2D -> bool) (n : nat) :
  max_distance_to_allow_skip_waypoint pars <= 0 ->
  forall (idx : Z) (wps : list TWaypointStatus) (most j : Z) (w : TWaypointStatus),
    (idx <= j)%Z -> (most <= j)%Z ->
    at_index wps j = Some w ->
    allow_skip (waypoint w) = false ->
    (snd (skip_scan pars robot_pose is_reachable n idx wps most) <= j)%Z.
Proof.
  intros Hmax. apply Qltb_ge in Hmax.
  induction n as [|n IH]; intros idx wps most j w Hij Hmj Hw Hskip; [exact Hmj|].
  cbn [skip_scan]. pose proof (at_index_Some _ _ _ Hw) as Hj.
  destruct (idx <? 0)%Z eqn:Eidx.
  { apply Z.ltb_lt in Eidx. apply (IH _ _ _ j w); try assumption; lia. }
  destruct (at_index wps idx) as [w0|] eqn:Hw0; [|exact Hmj].
  unfold Qgtb at 1. rewrite Hmax. cbn [andb].
  assert (Hnext : allow_skip (waypoint w0) = true -> (idx + 1 <= j)%Z).
  { intros Ht. destruct (Z.eq_dec idx j) as [-> | Hne]; [|lia].
    rewrite Hw in Hw0. injection Hw0 as <-. congruence. }
  destruct (is_reachable (inverseComposePoint robot_pose (wp_target (waypoint w0)))).
  - destruct (allow_skip (waypoint w0)) eqn:Es; cbn [negb].
    + specialize (Hnext eq_refl).
      apply (IH _ _ _ j w); try assumption.
      * destruct (_ >? _)%Z; lia.
      * rewrite at_index_update_ne by lia. exact Hw.
    + cbn [snd]. destruct (_ >? _)%Z; lia.
  - destruct (allow_skip (waypoint w0)) eqn:Es; cbn [negb].
    + specialize (Hnext eq_refl). apply (IH _ _ _ j w); assumption.
    + exact Hmj.
Qed.

End LookAhead.

(** C4 (as stated, refuted): in the waypoint-skip scenario, with the
    robot at rest away from the waypoints, after exactly 3 ticks the
    current goal is still the first waypoint (1,0) and no waypoint has
    been reported as reached. *)
Lemma skip_not_confirmed_after_3_ticks :
  let r := run_steps (ML := euclid) (map tick_at_origin [1; 2; 3]%Z) skip_scenario in
  outcome_of r = Returned tt /\
  waypoint_index_current_goal (m_waypoint_nav_status (state_of r)) = 0%Z /\
  current_goal (state_of r) = Some (mkPoint 1 0) /\
  current_goal (state_of r) <> Some (mkPoint 3 0) /\
  invoked (sendWaypointReachedEvent 0) (trace_of r) = false /\
  invoked (sendWaypointReachedEvent 1) (trace_of r) = false.
Proof.
  cbv zeta.
  assert (H : current_goal
                (state_of (run_steps (ML := euclid) (map tick_at_origin [1; 2; 3]%Z)
                             skip_scenario)) = Some (mkPoint 1 0))
    by (vm_compute; reflexivity).
  rewrite H. repeat split; try (vm_compute; reflexivity). discriminate.
Qed.

(** C4 (amended): in the waypoint-skip scenario, with the robot at rest
    away from the waypoints, after exactly 4 ticks the current goal index
    designates waypoint (3,0) and waypoint-reached events have been
    emitted for indices 0 and 1: the first tick starts the sequence, and
    a waypoint is confirmed once its counter exceeds 2, in the third scan
    after it. *)
Theorem skip_confirmed_after_4_ticks :
  let r := run_steps (ML := euclid) (map tick_at_origin [1; 2; 3; 4]%Z) skip_scenario in
  outcome_of r = Returned tt /\
  waypoint_index_current_goal (m_waypoint_nav_status (state_of r)) = 2%Z /\
  current_goal (state_of r) = Some (mkPoint 3 0) /\
  invoked (sendWaypointReachedEvent 0) (trace_of r) = true /\
  invoked (sendWaypointReachedEvent 1) (trace_of r) = true /\
  map counter_seen_reachable (waypoints (m_waypoint_nav_status (state_of r)))
    = [3; 3; 3]%Z.
Proof.
  cbv zeta. repeat split; vm_compute; reflexivity.
Qed.

(** C7 (the code at the failing input): the second waypoint has
    [allow_skip = false] but is further than
    [max_distance_to_allow_skip_waypoint] from the robot; the look-ahead
    of the third tick passes over it, makes the third waypoint the
    current goal and reports waypoints 0 and 1 as reached. *)
Theorem skip_crosses_far_unskippable_waypoint :
  let r := run_steps (ML := euclid) (map tick_at_origin [1; 2; 3]%Z)
             far_unskippable_scenario in
  outcome_of r = Returned tt /\
  map (fun s => allow_skip (waypoint s))
      (waypoints (m_waypoint_nav_status far_unskippable_scenario))
    = [true; false; false] /\
  waypoint_index_current_goal (m_waypoint_nav_status (state_of r)) = 2%Z /\
  invoked (sendWaypointReachedEvent 1) (trace_of r) = true /\
  map reached (waypoints (m_waypoint_nav_status (state_of r))) = [true; true; false].
Proof.
  cbv zeta. repeat split; vm_compute; reflexivity.
Qed.

(** ** The reactive pipeline: safety scaling *)

Section Safety.
Context {ML : MathLib}.

(** C5 (amended): for a regular candidate of a PTG that supports NOP
    commands, the obstacle-free distance fed into the safety ramp is the
    TP-obstacle distance [obs] at the chosen direction reduced by
    [d = |v| * maxTimeInVelCmdNOP(direction)] as long as the reduced value
    stays at or above 0.90; a larger reduction is cut off there: the
    value is then the smaller of [obs] and 0.90. *)
Theorem safety_distance_reduced_down_to_090 (r : CAbstractPTGBasedReactive)
    (ptg : CParameterizedTrajectoryGenerator) (tp_obs : list double)
    (direction speed obs : double) :
  supportVelCmdNOP ptg = true ->
  at_index tp_obs (alpha2index ptg direction) = Some obs ->
  secure_distance_start (params_abstract_ptg_navigator r)
    < secure_distance_end (params_abstract_ptg_navigator r) ->
  let cur := velLocal (m_curPoseVel (base (waypoints_navigator r))) in
  let d := hypot (vx cur) (vy cur)
           * maxTimeInVelCmdNOP ptg (alpha2index ptg direction) in
  exists sc,
    build_movement_candidate_safety r ptg tp_obs direction speed = Returned sc /\
    kDirection sc = alpha2index ptg direction /\
    (0 <= d -> 90 # 100 <= obs - d -> obsFreeNormalizedDistance sc == obs - d) /\
    (obs - d < 90 # 100 -> obsFreeNormalizedDistance sc == Qmin obs (90 # 100)).
Proof.
  intros Hnop Hobs Hsec cur d.
  unfold build_movement_candidate_safety. rewrite Hobs, Hnop.
  apply Qgtb_gt in Hsec. rewrite Hsec. cbn.
  eexists. split; [reflexivity|]. cbn. split; [reflexivity|].
  fold cur. fold d. split.
  - intros Hd Hge. rewrite (Q.max_r _ _ Hge). apply Q.min_r.
    rewrite <- (Qplus_0_r obs) at 2. unfold Qminus.
    apply Qplus_le_r. apply (Qopp_le_compat 0 d) in Hd. exact Hd.
  - intros Hlt. rewrite (Q.max_l (90 # 100) (obs - d)); [reflexivity|].
    apply Qlt_le_weak. exact Hlt.
Qed.

End Safety.

(** At 1 m/s with a NOP command allowed for 0.05 s, a path free up to
    1 counts as free up to 0.95. *)
Lemma safety_distance_reduced_down_to_090_witness :
  exists sc,
    build_movement_candidate_safety (ML := euclid) (reactive_with 1 20000000)
      (one_path_ptg (1 # 20)) [1] 0 1 = Returned sc /\
    obsFreeNormalizedDistance sc == 95 # 100.
Proof.
  destruct (safety_distance_reduced_down_to_090 (ML := euclid)
              (reactive_with 1 20000000) (one_path_ptg (1 # 20)) [1] 0 1 1)
    as (sc & Hsc & _ & H1 & _).
  - reflexivity.
  - reflexivity.
  - vm_compute. reflexivity.
  - exists sc. split; [exact Hsc|].
    rewrite H1; [vm_compute; reflexivity | vm_compute; discriminate
                | vm_compute; discriminate].
Defined.

(** C5 (as stated, refuted): the robot moves at 1 m/s, the PTG allows a
    NOP command for 0.5 s and the chosen path is free up to 1: the
    distance fed into the ramp is 0.90, not 1 - 1 * 0.5 = 0.5. *)
Lemma safety_distance_not_reduced_below_090 :
  let r := reactive_with 1 20000000 in
  let ptg := one_path_ptg (1 # 2) in
  let cur := velLocal (m_curPoseVel (base (waypoints_navigator r))) in
  supportVelCmdNOP ptg = true /\
  at_index [1] (alpha2index ptg 0) = Some 1 /\
  hypot (MathLib := euclid) (vx cur) (vy cur) * maxTimeInVelCmdNOP ptg (alpha2index ptg 0)
    == 1 # 2 /\
  exists sc,
    build_movement_candidate_safety (ML := euclid) r ptg [1] 0 1 = Returned sc /\
    obsFreeNormalizedDistance sc == 90 # 100 /\
    ~ obsFreeNormalizedDistance sc == 1 - (1 # 2).
Proof.
  cbv zeta. split; [reflexivity|]. split; [reflexivity|].
  split; [vm_compute; reflexivity|].
  eexists. split; [vm_compute; reflexivity|].
  split; [vm_compute; reflexivity | vm_compute; discriminate].
Qed.

(** ** The reactive pipeline: the continuation round *)

Section Continuation.
Context {ML : MathLib}.

(** C6 (amended): the continuation candidate is evaluated (by
    [build_movement_candidate], from the interpolated pose) if and only if
    the four conditions hold and the robot pose at the time the last
    command was sent can be interpolated from the stored poses; when the
    four conditions hold and it cannot, the candidate is marked not
    viable without being evaluated. *)
Theorem NOP_evaluated_iff (r : CAbstractPTGBasedReactive)
    (tim_start_iteration : TTimeStamp) :
  (forall k at_send,
     performNavigationStep_NOP r tim_start_iteration
       = Returned (NOP_evaluated k at_send)
     <-> NOP_conditions r tim_start_iteration /\
         pose_at_send_cmd r = Some at_send /\
         k = ptg_index (m_lastSentVelCmd r)) /\
  (performNavigationStep_NOP r tim_start_iteration = Returned NOP_not_viable
   <-> NOP_conditions r tim_start_iteration /\ pose_at_send_cmd r = None).
Proof.
  unfold performNavigationStep_NOP, NOP_conditions, pose_at_send_cmd.
  destruct (m_navigationParams (base (waypoints_navigator r))) as [navp|].
  2: { split; [intros k at_send|]; split; try discriminate;
       intros ((? & ? & ? & _) & _); discriminate. }
  destruct (TSentVelCmd_isValid (m_lastSentVelCmd r)) eqn:Ev.
  2: { split; [intros k at_send|]; split; try discriminate;
       intros ((? & ? & _ & ? & _) & _); discriminate. }
  destruct (TPose2D_neqb (target navp) (m_lastTarget r)) eqn:Et.
  1: { split; [intros k at_send|]; split; try discriminate;
       intros ((? & ? & H & _ & H' & _) & _); congruence. }
  cbn [andb negb].
  destruct (at_index (PTGs r) (ptg_index (m_lastSentVelCmd r))) as [ptg|].
  2: { split; [intros k at_send|]; split; try discriminate;
       intros ((? & ? & _ & _ & _ & ? & _) & _); discriminate. }
  destruct (supportVelCmdNOP ptg) eqn:Es.
  2: { split; [intros k at_send|]; split; try discriminate;
       intros ((? & ? & _ & _ & _ & H & H' & _) & _); congruence. }
  cbn [andb].
  destruct (Qltb (timeDifference (tim_send_cmd_vel (m_lastSentVelCmd r))
                    tim_start_iteration)
                 (maxTimeInVelCmdNOP ptg (ptg_alpha_index (m_lastSentVelCmd r))))
    eqn:El.
  2: { split; [intros k at_send|]; split; try discriminate;
       intros ((? & ? & _ & _ & _ & H & _ & H') & _);
       apply Qltb_lt in H'; congruence. }
  apply Qltb_lt in El.
  assert (Hc : exists navp0 ptg0,
             Some navp = Some navp0 /\ true = true /\
             TPose2D_neqb (target navp0) (m_lastTarget r) = false /\
             Some ptg = Some ptg0 /\ supportVelCmdNOP ptg0 = true /\
             timeDifference (tim_send_cmd_vel (m_lastSentVelCmd r)) tim_start_iteration
             < maxTimeInVelCmdNOP ptg0 (ptg_alpha_index (m_lastSentVelCmd r)))
    by (exists navp, ptg; repeat split; assumption).
  destruct (interpolate _ _) as [at_send0|].
  - split; [intros k at_send|]; split.
    + intros H. injection H as <- <-. repeat split. exact Hc.
    + intros (_ & H & ->). injection H as ->. reflexivity.
    + discriminate.
    + intros (_ & H). discriminate.
  - split; [intros k at_send|]; split; try discriminate.
    + intros (_ & H & _). discriminate.
    + intros _. split; [exact Hc | reflexivity].
    + reflexivity.
Qed.

End Continuation.

(** C6 (as stated, refuted): the last command is valid, the target is
    unchanged, its PTG supports NOP and only 0.1 s of the allowed 0.5 s
    have passed; but the command was sent at a time (2.0 s) after the
    newest stored pose (1.95 s), so no pose can be interpolated and the
    continuation candidate is not evaluated. *)
Lemma NOP_not_evaluated_without_pose :
  let r := reactive_with 1 20000000 in
  NOP_conditions (ML := euclid) r 21000000 /\
  performNavigationStep_NOP (ML := euclid) r 21000000 = Returned NOP_not_viable /\
  forall k at_send,
    performNavigationStep_NOP (ML := euclid) r 21000000
      <> Returned (NOP_evaluated k at_send).
Proof.
  cbv zeta.
  assert (H : performNavigationStep_NOP (ML := euclid) (reactive_with 1 20000000)
                21000000 = Returned NOP_not_viable) by (vm_compute; reflexivity).
  split; [|split; [exact H | intros k at_send; rewrite H; discriminate]].
  exists (target_at 5 0 (1 # 2) false), (one_path_ptg (1 # 2)).
  repeat split; vm_compute; reflexivity.
Qed.

(** ** The reachability query *)

(** The literal [1.01] is the double nearest to 1.01. *)
Lemma double_1_01_nearest : round_double (101 # 100) = finite double_1_01.
Proof. vm_compute. reflexivity. Qed.

(** The rounding at a few values: a third; a tie below the least
    positive double, which goes to the even side; the largest double;
    and the tie above it, which overflows. *)
Lemma round_double_values :
  round_double (1 # 3) = finite (6004799503160661 # 18014398509481984) /\
  round_double (Qpower 2 (-1075)) = finite 0 /\
  round_double (3 * Qpower 2 (-1075)) = finite (Qred (Qpower 2 (-1073))) /\
  round_double (Qpower 2 1024 - Qpower 2 971)
  = finite (Qred (Qpower 2 1024 - Qpower 2 971)) /\
  round_double (Qpower 2 1024 - Qpower 2 970) = infinite false /\
  round_double (- (1 # 10)) = finite (- (3602879701896397 # 36028797018963968)).
Proof. repeat split; vm_compute; reflexivity. Qed.

Section Reachability.
Context {ML : MathLib}.

(** The loop of the query finds exactly the PTGs in use that have a free
    path to the point. *)
Lemma reachable_scan_spec (r : CAbstractPTGBasedReactive) (wp : TPoint2D) :
  inverse_map_in_range r wp ->
  forall (n : nat) (i : Z),
    (0 <= i)%Z ->
    (i + Z.of_nat n <= size (PTGs r))%Z ->
    (i + Z.of_nat n <= size (m_infoPerPTG r))%Z ->
    (reachable_scan r wp n i = Returned true /\
     exists j, (i <= j < i + Z.of_nat n)%Z /\ free_path_at r wp j)
    \/
    (reachable_scan r wp n i = Returned false /\
     forall j, (i <= j < i + Z.of_nat n)%Z -> ~ free_path_at r wp j).
Proof.
  intros Hrange. induction n as [|n IH]; intros i Hi Hp Hinf.
  - right. split; [reflexivity|]. intros j Hj. lia.
  - cbn [reachable_scan].
    destruct (at_index_in_range (PTGs r) i) as [ptg Hptg]; [lia|].
    destruct (at_index_in_range (m_infoPerPTG r) i) as [info Hinfo]; [lia|].
    rewrite Hptg, Hinfo.
    assert (Hrec :
      (~ free_path_at r wp i) ->
      (reachable_scan r wp n (i + 1) = Returned true /\
       exists j, (i <= j < i + Z.of_nat (S n))%Z /\ free_path_at r wp j)
      \/
      (reachable_scan r wp n (i + 1) = Returned false /\
       forall j, (i <= j < i + Z.of_nat (S n))%Z -> ~ free_path_at r wp j)).
    { intros Hnot. destruct (IH (i + 1)%Z) as [(He & j & Hj & Hf) | (He & Hn)];
        try lia.
      - left. split; [exact He|]. exists j. split; [lia | exact Hf].
      - right. split; [exact He|]. intros j Hj.
        destruct (Z.eq_dec j i) as [-> | Hne]; [exact Hnot | apply Hn; lia]. }
    destruct (size (TP_Obstacles info) =? getPathCount ptg)%Z eqn:Esz; cbn [negb].
    + apply Z.eqb_eq in Esz.
      destruct (inverseMap_WS2TP ptg (pt_x wp) (pt_y wp)) as [dom [k d]] eqn:Einv.
      destruct dom; cbn [negb].
      * pose proof (Hrange i ptg k d Hptg Einv) as Hk.
        destruct (at_index_in_range (TP_Obstacles info) k) as [c Hc]; [lia|].
        replace (k <? size (TP_Obstacles info))%Z with true
          by (symmetry; apply Z.ltb_lt; lia).
        cbn [negb]. rewrite Hc.
        destruct (gt_rounded c (double_mul double_1_01 d)) eqn:Eg.
        -- left. split; [reflexivity|]. exists i. split; [lia|].
           exists ptg, info, k, d, c. repeat split; assumption.
        -- apply Hrec.
           intros (ptg' & info' & k' & d' & c' & H1 & H2 & _ & H3 & H4 & H5).
           rewrite Hptg in H1. injection H1 as <-.
           rewrite Hinfo in H2. injection H2 as <-.
           rewrite Einv in H3. injection H3 as <- <-.
           rewrite Hc in H4. injection H4 as <-.
           congruence.
      * apply Hrec. intros (ptg' & info' & k' & d' & c' & H1 & _ & _ & H3 & _).
        rewrite Hptg in H1. injection H1 as <-. rewrite Einv in H3. discriminate.
    + apply Z.eqb_neq in Esz. apply Hrec.
      intros (ptg' & info' & k' & d' & c' & H1 & H2 & H3 & _).
      rewrite Hptg in H1. injection H1 as <-.
      rewrite Hinfo in H2. injection H2 as <-. contradiction.
Qed.

(** Whatever the PTGs do, the loop returns true only at a free path. *)
Lemma reachable_scan_sound (r : CAbstractPTGBasedReactive) (wp : TPoint2D)
    (n : nat) (i : Z) :
  reachable_scan r wp n i = Returned true -> exists j, free_path_at r wp j.
Proof.
  revert i. induction n as [|n IH]; intros i; cbn [reachable_scan]; [discriminate|].
  destruct (at_index (PTGs r) i) as [ptg|] eqn:Hptg; [|discriminate].
  destruct (at_index (m_infoPerPTG r) i) as [info|] eqn:Hinfo; [|discriminate].
  destruct (size (TP_Obstacles info) =? getPathCount ptg)%Z eqn:Esz; cbn [negb];
    [|apply IH].
  apply Z.eqb_eq in Esz.
  destruct (inverseMap_WS2TP ptg (pt_x wp) (pt_y wp)) as [dom [k d]] eqn:Einv.
  destruct dom; cbn [negb]; [|apply IH].
  destruct (k <? size (TP_Obstacles info))%Z; cbn [negb]; [|discriminate].
  destruct (at_index (TP_Obstacles info) k) as [c|] eqn:Hc; [|discriminate].
  destruct (gt_rounded c (double_mul double_1_01 d)) eqn:Eg; [|apply IH].
  intros _. exists i, ptg, info, k, d, c. repeat split; assumption.
Qed.

(** The test that opens the query fails exactly on information in use. *)
Lemma info_is_fresh_iff (r : CAbstractPTGBasedReactive) (now : TTimeStamp) :
  info_is_fresh r now <->
  (size (m_infoPerPTG r) <? size (PTGs r))%Z
  || (m_infoPerPTG_timestamp r =? INVALID_TIMESTAMP)%Z
  || Qgtb (timeDifference (m_infoPerPTG_timestamp r) now) (5 # 10) = false.
Proof.
  unfold info_is_fresh. rewrite !orb_false_iff, Z.ltb_ge, Z.eqb_neq.
  unfold Qgtb. rewrite Qltb_ge. tauto.
Qed.

(** C8 (amended): the reachability query returns false whenever the
    per-PTG information is not in use (an entry is missing, it was never
    stamped, or it is older than 0.5 s). It returns true only if the
    information is in use and some PTG with one TP-obstacle per path
    places the point inside its domain at a path [k] and a normalised
    distance [d] such that [TP_Obstacles[k]] is greater than the double
    product [1.01 * d]; a PTG whose TP-obstacles are not one per path is
    skipped. With PTGs that map a point of their domain to one of their
    paths, and information in use, the query returns true if there is
    such a PTG and false if there is none. *)
Theorem waypoint_reachable_iff_free_path (r : CAbstractPTGBasedReactive)
    (now : TTimeStamp) (wp : TPoint2D) :
  (~ info_is_fresh r now ->
   impl_waypoint_is_reachable r now wp = Returned false) /\
  (impl_waypoint_is_reachable r now wp = Returned true ->
   info_is_fresh r now /\ free_path r wp) /\
  (inverse_map_in_range r wp ->
   info_is_fresh r now ->
   (impl_waypoint_is_reachable r now wp = Returned true <-> free_path r wp) /\
   (impl_waypoint_is_reachable r now wp = Returned false <-> ~ free_path r wp)).
Proof.
  rewrite info_is_fresh_iff. unfold impl_waypoint_is_reachable.
  destruct ((size (m_infoPerPTG r) <? size (PTGs r))%Z
            || (m_infoPerPTG_timestamp r =? INVALID_TIMESTAMP)%Z
            || Qgtb (timeDifference (m_infoPerPTG_timestamp r) now) (5 # 10)) eqn:Estale.
  - split; [reflexivity|]. split; discriminate.
  - split; [intros H; exfalso; apply H; reflexivity|]. split.
    + intros H. split; [reflexivity|]. exact (reachable_scan_sound _ _ _ _ H).
    + intros Hrange _.
      apply orb_false_iff in Estale as [Estale _].
      apply orb_false_iff in Estale as [Hsz _]. apply Z.ltb_ge in Hsz.
      destruct (reachable_scan_spec r wp Hrange
                  (Z.to_nat (size (PTGs r))) 0%Z) as [(He & j & Hj & Hf) | (He & Hn)];
        try (unfold size in *; lia); rewrite He.
      * assert (Hfree : free_path r wp) by (exists j; exact Hf).
        split; split; try discriminate; try (intros; assumption || reflexivity).
        intros Hnot. contradiction.
      * assert (Hnot : ~ free_path r wp).
        { intros (j & Hf). apply (Hn j); [|exact Hf].
          destruct Hf as (ptg & _ & _ & _ & _ & Hp & _).
          apply at_index_Some in Hp. unfold size in *. lia. }
        split; split; try discriminate; try (intros; assumption || reflexivity).
        intros Hf. contradiction.
Qed.

End Reachability.

Lemma at_index_singleton {A} (a b : A) (i : Z) :
  at_index [a] i = Some b -> i = 0%Z /\ b = a.
Proof.
  intros H. pose proof (at_index_Some _ _ _ H) as Hi. unfold size in Hi. cbn in Hi.
  assert (i = 0%Z) as -> by lia. cbn in H. injection H as <-. split; reflexivity.
Qed.

(** One PTG, information 0.1 s old. *)
Lemma waypoint_reachable_iff_free_path_witness :
  (impl_waypoint_is_reachable (ML := euclid) (reactive_with 1 20000000) 21000000
     (mkPoint 1 0) = Returned true
   <-> free_path (reactive_with 1 20000000) (mkPoint 1 0)) /\
  (impl_waypoint_is_reachable (ML := euclid) (reactive_with 1 20000000) 21000000
     (mkPoint 1 0) = Returned false
   <-> ~ free_path (reactive_with 1 20000000) (mkPoint 1 0)).
Proof.
  destruct (waypoint_reachable_iff_free_path (ML := euclid)
              (reactive_with 1 20000000) 21000000 (mkPoint 1 0)) as (_ & _ & H).
  apply H.
  - intros i ptg k d Hptg Hinv. apply at_index_singleton in Hptg as [_ ->].
    cbn in Hinv. injection Hinv as <- _. cbn. lia.
  - split; [|split].
    + vm_compute. discriminate.
    + discriminate.
    + vm_compute. discriminate.
Defined.

(** C8 (as stated, refuted): the information is in use and a PTG places
    the point inside its domain at path 0 and distance 0.5, where the
    TP-obstacle is greater than 1.01 * 0.5 = 0.505, yet the query returns
    false. First, the TP-obstacle is 1 but the vector holds one entry for
    a PTG of three paths, so that the PTG is skipped. Second, the vector
    is one per path and the TP-obstacle is the double nearest to 0.505,
    which is above 0.505 and equal to the double product. *)
Lemma free_path_not_found :
  (info_is_fresh (ML := euclid) reactive_resized 21000000 /\
   inverse_map_in_range reactive_resized (mkPoint 1 0) /\
   stated_free_path reactive_resized (mkPoint 1 0) /\
   impl_waypoint_is_reachable (ML := euclid) reactive_resized 21000000 (mkPoint 1 0)
   = Returned false)
  /\
  (info_is_fresh (ML := euclid) (reactive_with double_0_505 20000000) 21000000 /\
   inverse_map_in_range (reactive_with double_0_505 20000000) (mkPoint 1 0) /\
   stated_free_path (reactive_with double_0_505 20000000) (mkPoint 1 0) /\
   double_mul double_1_01 (1 # 2) = finite double_0_505 /\
   impl_waypoint_is_reachable (ML := euclid) (reactive_with double_0_505 20000000)
     21000000 (mkPoint 1 0)
   = Returned false).
Proof.
  assert (Hfresh : forall r,
            m_infoPerPTG_timestamp r = 20000000%Z ->
            size (PTGs r) = 1%Z -> size (m_infoPerPTG r) = 2%Z ->
            info_is_fresh (ML := euclid) r 21000000).
  { intros r Ht Hp Hi. unfold info_is_fresh. rewrite Ht, Hp, Hi.
    split; [lia|]. split; [discriminate|]. vm_compute. discriminate. }
  split.
  - split; [apply Hfresh; reflexivity|]. split; [|split].
    + intros i ptg k d Hptg Hinv. apply at_index_singleton in Hptg as [_ ->].
      cbn in Hinv. injection Hinv as <- _. cbn. lia.
    + exists 0%Z, three_path_ptg,
        {| valid_TP := true; target_k := 0; target_dist := 1 # 2;
           TP_Obstacles := [1] |}, 0%Z, (1 # 2), 1.
      repeat split; reflexivity.
    + vm_compute. reflexivity.
  - split; [apply Hfresh; reflexivity|]. split; [|split; [|split]].
    + intros i ptg k d Hptg Hinv. apply at_index_singleton in Hptg as [_ ->].
      cbn in Hinv. injection Hinv as <- _. cbn. lia.
    + exists 0%Z, (one_path_ptg (1 # 2)),
        {| valid_TP := true; target_k := 0; target_dist := 1 # 2;
           TP_Obstacles := [double_0_505] |}, 0%Z, (1 # 2), double_0_505.
      repeat split; reflexivity.
    + vm_compute. reflexivity.
    + vm_compute. reflexivity.
Qed.

(** * Further properties of the navigator *)

(** ** The pose history *)

Lemma poses_insert_head (t : TTimeStamp) (p : TPose2D) (l : PoseHistory) :
  exists t' p' r, poses_insert t p l = (t', p') :: r /\
    (t' = t \/ exists p0 r0, l = (t', p0) :: r0 /\ (t' < t)%Z).
Proof.
  destruct l as [|[t1 p1] r]; cbn.
  - exists t, p, []. split; [reflexivity | left; reflexivity].
  - destruct (t <? t1)%Z eqn:E1; [|destruct (t =? t1)%Z eqn:E2].
    + exists t, p, ((t1, p1) :: r). split; [reflexivity | left; reflexivity].
    + exists t, p, r. split; [reflexivity | left; reflexivity].
    + exists t1, p1, (poses_insert t p r). split; [reflexivity|].
      right. exists p1, r. split; [reflexivity|].
      apply Z.ltb_ge in E1. apply Z.eqb_neq in E2. lia.
Qed.

Section PoseHistoryFacts.
Context {ML : MathLib}.

Lemma poses_purge_eq (t0 : TTimeStamp) (p0 : TPose2D) (e : TTimeStamp * TPose2D)
    (r : PoseHistory) :
  poses_purge ((t0, p0) :: e :: r)
  = match last ((t0, p0) :: e :: r) with
    | Some (tn, _) =>
        if Qgtb (timeDifference t0 tn) PREVIOUS_POSES_MAX_AGE
        then poses_purge (e :: r) else (t0, p0) :: e :: r
    | None => (t0, p0) :: e :: r
    end.
Proof. reflexivity. Qed.

Lemma poses_purge_last (l : PoseHistory) : last (poses_purge l) = last l.
Proof.
  induction l as [|[t0 p0] r IH]; [reflexivity|].
  destruct r as [|e r']; [reflexivity|].
  rewrite poses_purge_eq.
  destruct (last ((t0, p0) :: e :: r')) as [[tn pn]|] eqn:El; [|exact El].
  destruct (Qgtb (timeDifference t0 tn) PREVIOUS_POSES_MAX_AGE); [|exact El].
  rewrite IH, <- El. reflexivity.
Qed.

Lemma poses_purge_nonempty (l : PoseHistory) : l <> [] -> poses_purge l <> [].
Proof.
  intros Hl Hp. apply Hl. pose proof (poses_purge_last l) as H.
  rewrite Hp in H. destruct l as [|a l]; [reflexivity|].
  cbn in H. symmetry in H. apply last_None in H. exact H.
Qed.

Lemma poses_insert_nonempty (t : TTimeStamp) (p : TPose2D) (l : PoseHistory) :
  poses_insert t p l <> [].
Proof.
  destruct (poses_insert_head t p l) as (t' & p' & r & -> & _). discriminate.
Qed.

Lemma poses_purge_span (l : PoseHistory) : history_span_ok (poses_purge l).
Proof.
  induction l as [|[t0 p0] r IH]; [intros ? ? ? ? ? ? H; discriminate|].
  destruct r as [|e r']; [intros ? ? ? ? ? ? H; discriminate|].
  rewrite poses_purge_eq.
  destruct (last ((t0, p0) :: e :: r')) as [[tn pn]|] eqn:El.
  2: { apply last_None in El. discriminate. }
  destruct (Qgtb (timeDifference t0 tn) PREVIOUS_POSES_MAX_AGE) eqn:Eg;
    [exact IH|].
  intros t0' p0' e' r0 tn' pn' H Hl. injection H as <- <- <- <-.
  rewrite El in Hl. injection Hl as <- <-.
  unfold Qgtb in Eg. apply Qltb_ge in Eg. exact Eg.
Qed.

(** What the pose update does to the pose fields: nothing (the update
    is skipped, or the robot fails), or the reading is stored. *)
Lemma updateCurrentPoseAndSpeeds_poses (q : PoseQuery) (nav : CAbstractNavigator) :
  let r := updateCurrentPoseAndSpeeds q nav in
  (same_poses (state_of r) nav /\
   (outcome_of r = Returned tt ->
    Qleb 0 (m_last_curPoseVelUpdate_robot_time nav) = true /\
    Qltb (robot_time_secs q - m_last_curPoseVelUpdate_robot_time nav)
      MIN_TIME_BETWEEN_POSE_UPDATES = true /\
    trace_of r = [getNavigationTime]))
  \/
  (exists p v ts, pose_reading q = Some (p, v, ts) /\
     outcome_of r = Returned tt /\
     pose (m_curPoseVel (state_of r)) = p /\
     timestamp (m_curPoseVel (state_of r)) = ts /\
     m_last_curPoseVelUpdate_robot_time (state_of r) = robot_time_secs q /\
     m_latestPoses (state_of r)
     = poses_purge (poses_insert ts p (m_latestPoses nav)) /\
     trace_of r = [getNavigationTime; getCurrentPoseAndSpeeds]).
Proof.
  unfold updateCurrentPoseAndSpeeds, mbind, run_bind, get, robot. cbn.
  destruct (Qleb 0 (m_last_curPoseVelUpdate_robot_time nav)) eqn:E1;
    [destruct (Qltb (robot_time_secs q - m_last_curPoseVelUpdate_robot_time nav)
                 MIN_TIME_BETWEEN_POSE_UPDATES) eqn:E2|]; cbn.
  1: left; repeat split.
  all: destruct (pose_reading q) as [[[p v] ts]|]; cbn;
    [right; exists p, v, ts; repeat split
    |left; repeat split; discriminate].
Qed.

End PoseHistoryFacts.

Lemma same_poses_refl (a : CAbstractNavigator) : same_poses a a.
Proof. repeat split. Qed.


Section PoseFields.
Context {ML : MathLib}.

(** The decision part of a step leaves the pose fields alone. *)
Lemma navigationStep_decide_poses (i : StepInput) (s : CAbstractNavigator) :
  same_poses (state_of (navigationStep_decide i s)) s.
Proof.
  unfold navigationStep_decide. unfold_run.
  destruct (seg_robot_mov s) as [seg|]; [|apply same_poses_refl].
  destruct (m_navigationParams s) as [p|]; [|apply same_poses_refl].
  pose proof (performNavigationStep_cases (step_perform i) (step_perform_throws i))
    as Hperf.
  destruct (negb (targetIsIntermediaryWaypoint p) && negb (m_navigationEndEventSent s)
            && Qltb (segment_distance seg (TPoint2D_of_pose (target p)))
                 (dist_to_target_for_sending_event (params_abstract_navigator s)));
    cbn;
    (destruct (Qltb (segment_distance seg (TPoint2D_of_pose (target p)))
                 (targetAllowedDistance p)); cbn;
     [destruct (negb (targetIsIntermediaryWaypoint p)); cbn;
      try destruct (negb (m_navigationEndEventSent s)); cbn; repeat split|]);
    (destruct (Qltb (segment_distance seg (TPoint2D_of_pose (target p)))
                 (m_badNavAlarm_minDistTarget s)); cbn;
     [|destruct (Qgtb (timeDifference (m_badNavAlarm_lastMinDistTime s) (step_now i))
           (alarm_seems_not_approaching_target_timeout (params_abstract_navigator s)));
       cbn; [repeat split|]]).
  all: match goal with
       | |- context [performNavigationStep ?a ?t ?s0] =>
           specialize (Hperf s0);
           destruct (performNavigationStep a t s0) as [[s2 t2] o2]
       end; cbn in *; destruct Hperf as (_ & Hs & _);
    destruct Hs as [-> | ->]; repeat split.
Qed.

(** Entering NAVIGATING and updating the pose: the history is the old
    one, or the empty one (on entering the state), possibly with the
    reading stored. *)
Lemma navigationStep_refresh_history (i : StepInput) (nav : CAbstractNavigator) :
  let r := navigationStep_refresh i nav in
  exists h0,
    (h0 = m_latestPoses nav \/ h0 = []) /\
    (m_latestPoses (state_of r) = h0 \/
     exists p v ts, pose_reading (step_pose i) = Some (p, v, ts) /\
       m_latestPoses (state_of r) = poses_purge (poses_insert ts p h0)).
Proof.
  unfold navigationStep_refresh, mbind, run_bind, get, when, onStartNewNavigation,
    robot, modify, mret, run_ret.
  exists (if TState_eqb (m_lastNavigationState nav) NAVIGATING
          then m_latestPoses nav else []).
  destruct (TState_eqb (m_lastNavigationState nav) NAVIGATING) eqn:E1;
    destruct (TState_eqb (m_lastNavigationState nav) IDLE) eqn:E2; cbn;
    match goal with
    | |- context [updateCurrentPoseAndSpeeds ?q ?s] =>
        pose proof (updateCurrentPoseAndSpeeds_poses q s) as H;
        destruct (updateCurrentPoseAndSpeeds q s) as [[s1 t1] o1]
    end; cbn in *;
    (split; [auto|]);
    (destruct H as [((_ & _ & Hh) & _) | (p & v & ts & Hq & _ & _ & _ & _ & Hh & _)];
     [left; exact Hh | right; exists p, v, ts; split; [exact Hq | exact Hh]]).
Qed.

End PoseFields.

(** ** Invariants of the pose history *)

Section HistoryInvariant.
Context {ML : MathLib}.
Variable P : PoseHistory -> Prop.
Hypothesis P_empty : P [].
Hypothesis P_stored : forall ts p l, P l -> P (poses_purge (poses_insert ts p l)).

Lemma navigationStep_history (i : StepInput) (nav : CAbstractNavigator) :
  P (m_latestPoses nav) -> P (m_latestPoses (state_of (navigationStep i nav))).
Proof.
  intros HP. unfold navigationStep. unfold_run.
  destruct (m_navigationState nav) eqn:Hst.
  1, 3, 4: destruct (TState_eqb (m_lastNavigationState nav) NAVIGATING); cbn;
    rewrite ?Hst; cbn; exact HP.
  unfold navigationStep_NAVIGATING. unfold_run.
  pose proof (navigationStep_refresh_history i nav) as Href.
  destruct (navigationStep_refresh i nav) as [[s1 t1] o1]. cbn in Href.
  assert (H1 : P (m_latestPoses s1)).
  { destruct Href as (h0 & Hh0 & Hh).
    assert (P h0) by (destruct Hh0 as [-> | ->]; assumption).
    destruct Hh as [-> | (p & v & ts & _ & ->)]; auto. }
  destruct o1 as [[]| |]; cbn; try exact H1.
  pose proof (navigationStep_decide_poses i s1) as Hdec.
  destruct (navigationStep_decide i s1) as [[s2 t2] o2]. cbn in Hdec.
  destruct Hdec as (_ & _ & Hh). destruct o2; cbn; rewrite Hh; exact H1.
Qed.

Lemma navigate_history (params : TNavigationParams) (ni : NavigateInput)
    (nav : CAbstractNavigator) :
  P (m_latestPoses nav) -> P (m_latestPoses (state_of (navigate params ni nav))).
Proof.
  intros HP. unfold navigate. unfold_run. cbn.
  destruct (targetIsRelative params); cbn; [|exact HP].
  match goal with
  | |- context [updateCurrentPoseAndSpeeds ?q ?s] =>
      pose proof (updateCurrentPoseAndSpeeds_poses q s) as H;
      destruct (updateCurrentPoseAndSpeeds q s) as [[s1 t1] o1]
  end. cbn in H.
  assert (H1 : P (m_latestPoses s1)).
  { destruct H as [((_ & _ & ->) & _) | (p & v & ts & _ & _ & _ & _ & _ & -> & _)];
      cbn; auto. }
  destruct o1 as [[]| |]; cbn; exact H1.
Qed.

Lemma run_call_history (c : Call) (nav : CAbstractNavigator) :
  P (m_latestPoses nav) -> P (m_latestPoses (state_of (run_call c nav))).
Proof.
  intros HP. destruct c; cbn [run_call].
  - apply navigate_history, HP.
  - exact HP.
  - unfold suspend. unfold_run.
    destruct (TState_eqb (m_navigationState nav) NAVIGATING); exact HP.
  - unfold resume. unfold_run.
    destruct (TState_eqb (m_navigationState nav) SUSPENDED); exact HP.
  - unfold resetNavError. unfold_run.
    destruct (TState_eqb (m_navigationState nav) NAV_ERROR); exact HP.
  - apply navigationStep_history, HP.
Qed.

Lemma run_calls_history (cs : list Call) (nav : CAbstractNavigator) :
  P (m_latestPoses nav) -> P (m_latestPoses (state_of (run_calls cs nav))).
Proof.
  revert nav. induction cs as [|c cs IH]; intros nav HP; [exact HP|].
  cbn [run_calls]. pose proof (run_call_history c nav HP) as H1.
  destruct (run_call c nav) as [[s1 t1] o1]. cbn in H1.
  specialize (IH s1 H1).
  destruct (run_calls cs s1) as [[s2 t2] o2]. cbn in IH.
  destruct o1; cbn; assumption.
Qed.

End HistoryInvariant.

Section HistorySpan.
Context {ML : MathLib}.

(** X1: In every run of calls on a new navigator, the stored poses span
    at most [PREVIOUS_POSES_MAX_AGE] (20 s): whenever two or more poses
    are kept, the oldest is at most 20 s older than the newest. *)
Theorem pose_history_spans_at_most_max_age (cs : list Call)
    (indet_minDist : double) (indet_time : TTimeStamp) :
  history_span_ok
    (m_latestPoses
       (state_of (run_calls cs (CAbstractNavigator_ctor indet_minDist indet_time)))).
Proof.
  apply run_calls_history.
  - intros ? ? ? ? ? ? H. discriminate.
  - intros ts p l _. apply poses_purge_span.
  - intros ? ? ? ? ? ? H. discriminate.
Qed.

End HistorySpan.

(** ** The robot-motion segment is always defined *)

Lemma previous_pose_defined (l : PoseHistory) : l <> [] -> previous_pose l <> None.
Proof.
  intros Hl. unfold previous_pose.
  destruct (rev l) as [|[t p] [|[t' p'] r]] eqn:E; try discriminate.
  apply (f_equal (@rev _)) in E. rewrite rev_involutive in E. contradiction.
Qed.

Section PoseCache.
Context {ML : MathLib}.

Lemma updateCurrentPoseAndSpeeds_cache (q : PoseQuery) (nav : CAbstractNavigator) :
  let r := updateCurrentPoseAndSpeeds q nav in
  pose_cache_ok (state_of r) /\
  (outcome_of r = Returned tt -> m_latestPoses (state_of r) <> []) \/
  ~ Qleb 0 (m_last_curPoseVelUpdate_robot_time nav) = true /\
  outcome_of r = Thrown /\ same_poses (state_of r) nav \/
  Qleb 0 (m_last_curPoseVelUpdate_robot_time nav) = true /\
  same_poses (state_of r) nav.
Proof.
  cbv zeta.
  pose proof (updateCurrentPoseAndSpeeds_poses q nav) as H. cbv zeta in H.
  destruct (updateCurrentPoseAndSpeeds q nav) as [[s1 t1] o1]. cbn in *.
  destruct H as [(Hs & Ho) | (p & v & ts & _ & _ & _ & _ & _ & Hh & _)].
  - destruct (Qleb 0 (m_last_curPoseVelUpdate_robot_time nav)) eqn:E.
    + right. right. split; [reflexivity | exact Hs].
    + destruct o1 as [[]| |].
      * destruct (Ho eq_refl) as [H _]. discriminate.
      * right. left. split; [discriminate|]. split; [reflexivity | exact Hs].
      * left. split; [|discriminate]. intros H.
        destruct Hs as (_ & Hs & _). rewrite Hs, E in H. discriminate.
  - left. assert (m_latestPoses s1 <> []).
    { rewrite Hh. apply poses_purge_nonempty, poses_insert_nonempty. }
    split; [intros _|intros _]; assumption.
Qed.

Lemma same_poses_cache (a b : CAbstractNavigator) :
  same_poses a b -> pose_cache_ok b -> pose_cache_ok a.
Proof. unfold pose_cache_ok. intros (_ & -> & ->). auto. Qed.

Lemma updateCurrentPoseAndSpeeds_cache_ok (q : PoseQuery) (nav : CAbstractNavigator) :
  pose_cache_ok nav ->
  pose_cache_ok (state_of (updateCurrentPoseAndSpeeds q nav)) /\
  (outcome_of (updateCurrentPoseAndSpeeds q nav) = Returned tt ->
   m_latestPoses (state_of (updateCurrentPoseAndSpeeds q nav)) <> []).
Proof.
  intros Hc.
  destruct (updateCurrentPoseAndSpeeds_cache q nav)
    as [H | [(Hn & Ho & Hs) | (Hn & Hs)]].
  - exact H.
  - split; [exact (same_poses_cache _ _ Hs Hc)|]. rewrite Ho. discriminate.
  - split; [exact (same_poses_cache _ _ Hs Hc)|]. intros _.
    destruct Hs as (_ & _ & ->). apply Hc, Hn.
Qed.

(** The pose update after the stored poses were dropped and the update
    re-armed (on entering NAVIGATING). *)
Lemma updateCurrentPoseAndSpeeds_rearmed (q : PoseQuery) (nav : CAbstractNavigator) :
  m_last_curPoseVelUpdate_robot_time nav == - (1000000000 # 1) ->
  pose_cache_ok (state_of (updateCurrentPoseAndSpeeds q nav)) /\
  (outcome_of (updateCurrentPoseAndSpeeds q nav) = Returned tt ->
   m_latestPoses (state_of (updateCurrentPoseAndSpeeds q nav)) <> []).
Proof.
  intros Ht. apply updateCurrentPoseAndSpeeds_cache_ok.
  intros H. apply Qleb_le in H. rewrite Ht in H.
  exfalso. revert H. apply Qlt_not_le. reflexivity.
Qed.

Lemma navigationStep_refresh_cache_ok (i : StepInput) (nav : CAbstractNavigator) :
  pose_cache_ok nav ->
  pose_cache_ok (state_of (navigationStep_refresh i nav)) /\
  (outcome_of (navigationStep_refresh i nav) = Returned tt ->
   m_latestPoses (state_of (navigationStep_refresh i nav)) <> []).
Proof.
  intros Hc.
  unfold navigationStep_refresh, mbind, run_bind, get, when, onStartNewNavigation,
    robot, modify, mret, run_ret.
  destruct (TState_eqb (m_lastNavigationState nav) NAVIGATING) eqn:E1;
    destruct (TState_eqb (m_lastNavigationState nav) IDLE) eqn:E2; cbn;
    match goal with
    | |- context [updateCurrentPoseAndSpeeds ?q ?s] =>
        first [ pose proof (updateCurrentPoseAndSpeeds_cache_ok q s Hc) as H
              | pose proof (updateCurrentPoseAndSpeeds_rearmed q s
                              ltac:(reflexivity)) as H ];
        destruct (updateCurrentPoseAndSpeeds q s) as [[s1 t1] o1]
    end; cbn in *; destruct H as [H1 H2];
    (split; [exact H1 | destruct o1 as [[]| |]; cbn; try discriminate; exact H2]).
Qed.

Lemma navigationStep_cache_ok (i : StepInput) (nav : CAbstractNavigator) :
  pose_cache_ok nav -> pose_cache_ok (state_of (navigationStep i nav)).
Proof.
  intros Hc. unfold navigationStep. unfold_run.
  destruct (m_navigationState nav) eqn:Hst.
  1, 3, 4: destruct (TState_eqb (m_lastNavigationState nav) NAVIGATING); cbn;
    rewrite ?Hst; cbn; exact Hc.
  unfold navigationStep_NAVIGATING. unfold_run.
  pose proof (navigationStep_refresh_cache_ok i nav Hc) as [H1 _].
  destruct (navigationStep_refresh i nav) as [[s1 t1] o1]. cbn in H1.
  destruct o1 as [[]| |]; cbn; try exact H1.
  pose proof (navigationStep_decide_poses i s1) as Hdec.
  destruct (navigationStep_decide i s1) as [[s2 t2] o2]. cbn in Hdec.
  assert (pose_cache_ok s2) by exact (same_poses_cache _ _ Hdec H1).
  destruct o2; cbn; assumption.
Qed.

Lemma navigate_cache_ok (params : TNavigationParams) (ni : NavigateInput)
    (nav : CAbstractNavigator) :
  pose_cache_ok nav -> pose_cache_ok (state_of (navigate params ni nav)).
Proof.
  intros Hc. unfold navigate. unfold_run. cbn.
  destruct (targetIsRelative params); cbn; [|exact Hc].
  match goal with
  | |- context [updateCurrentPoseAndSpeeds ?q ?s] =>
      pose proof (updateCurrentPoseAndSpeeds_cache_ok q s Hc) as [H _];
      destruct (updateCurrentPoseAndSpeeds q s) as [[s1 t1] o1]
  end. cbn in H.
  destruct o1 as [[]| |]; cbn; exact H.
Qed.

Lemma run_calls_cache_ok (cs : list Call) (nav : CAbstractNavigator) :
  pose_cache_ok nav -> pose_cache_ok (state_of (run_calls cs nav)).
Proof.
  revert nav. induction cs as [|c cs IH]; intros nav Hc; [exact Hc|].
  cbn [run_calls].
  assert (H1 : pose_cache_ok (state_of (run_call c nav))).
  { destruct c; cbn [run_call].
    - apply navigate_cache_ok, Hc.
    - exact Hc.
    - unfold suspend. unfold_run.
      destruct (TState_eqb (m_navigationState nav) NAVIGATING); exact Hc.
    - unfold resume. unfold_run.
      destruct (TState_eqb (m_navigationState nav) SUSPENDED); exact Hc.
    - unfold resetNavError. unfold_run.
      destruct (TState_eqb (m_navigationState nav) NAV_ERROR); exact Hc.
    - apply navigationStep_cache_ok, Hc. }
  destruct (run_call c nav) as [[s1 t1] o1]. cbn in H1.
  specialize (IH s1 H1).
  destruct (run_calls cs s1) as [[s2 t2] o2]. cbn in IH.
  destruct o1; cbn; assumption.
Qed.

(** X2: The assertion of [navigationStep] that a pose is stored never
    fails: after any run of calls on a new navigator, whenever the first
    part of a NAVIGATING step (entering the state, updating the pose)
    returns, the robot-motion segment the target distance is measured
    from is defined. *)
Theorem robot_motion_segment_is_defined (cs : list Call)
    (indet_minDist : double) (indet_time : TTimeStamp) (i : StepInput) :
  let nav := state_of (run_calls cs (CAbstractNavigator_ctor indet_minDist indet_time)) in
  outcome_of (navigationStep_refresh i nav) = Returned tt ->
  seg_robot_mov (state_of (navigationStep_refresh i nav)) <> None.
Proof.
  intros nav Ho.
  assert (Hc : pose_cache_ok nav).
  { apply run_calls_cache_ok. intros H. vm_compute in H. discriminate. }
  destruct (navigationStep_refresh_cache_ok i nav Hc) as [_ H].
  specialize (H Ho). apply previous_pose_defined in H.
  unfold seg_robot_mov.
  destruct (previous_pose (m_latestPoses (state_of (navigationStep_refresh i nav))));
    [discriminate | contradiction].
Qed.

End PoseCache.

(** After a run through an error and a new [navigate], in the step in
    which the robot reports its pose again. *)
Lemma robot_motion_segment_is_defined_witness :
  let nav := state_of (run_calls (ML := euclid) run_through_error
                         (CAbstractNavigator_ctor 0 0)) in
  let i := step_with (robot_at 1 0 40000000 4) 40000000 in
  outcome_of (navigationStep_refresh (ML := euclid) i nav) = Returned tt /\
  seg_robot_mov (state_of (navigationStep_refresh (ML := euclid) i nav)) <> None.
Proof.
  cbv zeta. split.
  - vm_compute. reflexivity.
  - apply (robot_motion_segment_is_defined (ML := euclid) run_through_error 0 0%Z
             (step_with (robot_at 1 0 40000000 4) 40000000)).
    vm_compute. reflexivity.
Defined.

(** ** Steps outside NAVIGATING *)

Section OutsideNavigating.
Context {ML : MathLib}.

Lemma navigationStep_outside (i : StepInput) (nav : CAbstractNavigator) :
  m_navigationState nav <> NAVIGATING ->
  navigationStep i nav
  = (set_lastNavigationState (m_navigationState nav) nav, leaving_calls nav,
     Returned tt).
Proof.
  intros Hst. unfold navigationStep, leaving_calls. unfold_run.
  destruct (m_navigationState nav) eqn:E; try contradiction;
    destruct (TState_eqb (m_lastNavigationState nav) NAVIGATING); cbn;
    rewrite ?E; reflexivity.
Qed.

Lemma navigationSteps_outside (i : StepInput) (steps : list StepInput)
    (nav : CAbstractNavigator) :
  m_navigationState nav <> NAVIGATING ->
  run_calls (map call_navigationStep (i :: steps)) nav
  = (set_lastNavigationState (m_navigationState nav) nav, leaving_calls nav,
     Returned tt).
Proof.
  revert i nav. induction steps as [|j steps IH]; intros i nav Hst.
  - cbn. rewrite (navigationStep_outside i nav Hst), app_nil_r. reflexivity.
  - change (map call_navigationStep (i :: j :: steps))
      with (call_navigationStep i :: map call_navigationStep (j :: steps)).
    cbn [run_calls run_call].
    rewrite (navigationStep_outside i nav Hst).
    rewrite IH by exact Hst. cbn.
    unfold leaving_calls at 2. cbn.
    destruct (m_navigationState nav) eqn:E; try contradiction; cbn;
      rewrite app_nil_r; reflexivity.
Qed.

(** X3: Steps while the navigator is IDLE, SUSPENDED or in NAV_ERROR:
    only the first one after NAVIGATING was left calls the robot (it
    stops the watchdog and, in NAV_ERROR, first reports the error and
    commands a stop); any number of further steps is silent, and the
    only field written is [m_lastNavigationState]. *)
Theorem steps_outside_NAVIGATING (i : StepInput) (steps : list StepInput)
    (nav : CAbstractNavigator) :
  m_navigationState nav <> NAVIGATING ->
  run_calls (map call_navigationStep (i :: steps)) nav
  = (set_lastNavigationState (m_navigationState nav) nav, leaving_calls nav,
     Returned tt) /\
  leaving_calls (set_lastNavigationState (m_navigationState nav) nav) = [].
Proof.
  intros Hst. split; [apply navigationSteps_outside, Hst|].
  unfold leaving_calls. cbn.
  destruct (m_navigationState nav); try contradiction; reflexivity.
Qed.

(** X4: Suspending a navigation, running any number of steps and
    resuming it gives the navigator back as it was, but for
    [m_lastNavigationState] when a step ran; the robot is called at most
    once, to stop the watchdog. The target, the end-event flag and the
    clock of the not-approaching alarm are not touched. *)
Theorem suspend_steps_resume (steps : list StepInput) (nav : CAbstractNavigator) :
  m_navigationState nav = NAVIGATING ->
  run_calls (call_suspend :: map call_navigationStep steps ++ [call_resume]) nav
  = (match steps with
     | [] => nav
     | _ :: _ => set_lastNavigationState SUSPENDED nav
     end,
     match steps with
     | [] => []
     | _ :: _ =>
         if TState_eqb (m_lastNavigationState nav) NAVIGATING
         then [stopWatchdog] else []
     end,
     Returned tt).
Proof.
  intros Hst. cbn [run_calls run_call].
  unfold suspend at 1. unfold_run. rewrite Hst. cbn.
  destruct steps as [|i steps].
  - cbn. unfold resume. unfold_run. cbn. destruct nav; cbn in *; subst; reflexivity.
  - assert (Hrun : forall cs1 cs2 s s1 t1,
               run_calls cs1 s = (s1, t1, Returned tt) ->
               run_calls (cs1 ++ cs2) s
               = (state_of (run_calls cs2 s1), t1 ++ trace_of (run_calls cs2 s1),
                  outcome_of (run_calls cs2 s1))).
    { induction cs1 as [|c cs1 IH]; intros cs2 s s1 t1 H.
      - cbn in H. injection H as <- <-. cbn.
        destruct (run_calls cs2 s) as [[? ?] ?]. reflexivity.
      - cbn [app run_calls] in *.
        destruct (run_call c s) as [[s' t'] o']. destruct o'.
        + destruct (run_calls cs1 s') as [[s'' t''] o''] eqn:E.
          injection H as <- <- ->. rewrite (IH cs2 s' _ _ E). cbn.
          rewrite app_assoc. reflexivity.
        + destruct (run_calls cs1 s') as [[s'' t''] o''] eqn:E.
          injection H as <- <- ->. rewrite (IH cs2 s' _ _ E). cbn.
          rewrite app_assoc. reflexivity.
        + discriminate. }
    rewrite (Hrun _ [call_resume] _ _ _
               (navigationSteps_outside i steps (set_navigationState SUSPENDED nav)
                  ltac:(cbn; discriminate))).
    cbn. unfold resume. unfold_run. cbn. unfold leaving_calls. cbn.
    rewrite !app_nil_r.
    destruct nav; cbn in *; subst; reflexivity.
Qed.

(** The robot fails to report its pose in a NAVIGATING step whose pose
    update is due. *)
Lemma navigationStep_refresh_pose_failure (i : StepInput) (nav : CAbstractNavigator) :
  pose_reading (step_pose i) = None ->
  pose_update_due i nav = true ->
  let r := navigationStep_refresh i nav in
  outcome_of r = Thrown /\
  same_control (state_of r) (set_navigationState NAV_ERROR nav) /\
  exists t0, trace_of r = t0 ++ [getCurrentPoseAndSpeeds; stop true] /\
             calls_within refresh_call t0.
Proof.
  intros Hq Hdue. unfold pose_update_due in Hdue.
  unfold navigationStep_refresh, updateCurrentPoseAndSpeeds, mbind, run_bind,
    get, when, onStartNewNavigation, robot, modify, mret, run_ret.
  unfold_run. rewrite Hq.
  destruct (TState_eqb (m_lastNavigationState nav) NAVIGATING) eqn:E1;
    destruct (TState_eqb (m_lastNavigationState nav) IDLE) eqn:E2; cbn in *;
    rewrite ?Hdue; cbn.
  1, 2: apply negb_true_iff in Hdue; rewrite Hdue; cbn.
  all: repeat split.
  all: first [ exists [getNavigationTime]; split; reflexivity
             | exists [sendNavigationStartEvent; getNavigationTime];
               split; reflexivity
             | exists [startWatchdog 1000; sendNavigationStartEvent;
                       getNavigationTime]; split; reflexivity
             | exists [startWatchdog 1000; getNavigationTime];
               split; reflexivity ].
Qed.

(** X5: The robot fails to report its pose in a NAVIGATING step: the
    exception stays inside the step, which commands an emergency stop,
    sends no velocity command and leaves the navigator in NAV_ERROR; the
    next step reports the error, commands a stop and stops the
    watchdog. *)
Theorem pose_failure_ends_in_NAV_ERROR (i j : StepInput) (nav : CAbstractNavigator) :
  m_navigationState nav = NAVIGATING ->
  pose_reading (step_pose i) = None ->
  pose_update_due i nav = true ->
  let r := navigationStep i nav in
  outcome_of r = Returned tt /\
  m_navigationState (state_of r) = NAV_ERROR /\
  last (trace_of r) = Some (stop true) /\
  invoked changeSpeeds (trace_of r) = false /\
  invoked changeSpeedsNOP (trace_of r) = false /\
  navigationStep j (state_of r)
  = (set_lastNavigationState NAV_ERROR (state_of r),
     [sendNavigationEndDueToErrorEvent; stop false; stopWatchdog],
     Returned tt).
Proof.
  intros Hst Hq Hdue.
  pose proof (navigationStep_refresh_pose_failure i nav Hq Hdue) as H.
  cbv zeta in *.
  assert (Hstep : navigationStep i nav
                  = (set_lastNavigationState NAVIGATING
                       (state_of (navigationStep_refresh i nav)),
                     trace_of (navigationStep_refresh i nav), Returned tt)).
  { unfold navigationStep, navigationStep_NAVIGATING. unfold_run. rewrite Hst.
    destruct (navigationStep_refresh i nav) as [[s1 t1] o1]. cbn in *.
    destruct H as (-> & _). cbn. rewrite app_nil_r. reflexivity. }
  rewrite Hstep. cbn [state_of trace_of outcome_of fst snd].
  destruct (navigationStep_refresh i nav) as [[s1 t1] o1]. cbn in *.
  destruct H as (_ & Hs & t0 & -> & Ht0).
  destruct Hs as (_ & _ & Hs3 & _). cbn in Hs3.
  split; [reflexivity|]. split; [exact Hs3|].
  split; [rewrite last_app; reflexivity|].
  split; [|split].
  - rewrite invoked_app, (calls_within_not_invoked _ _ _ Ht0) by reflexivity.
    reflexivity.
  - rewrite invoked_app, (calls_within_not_invoked _ _ _ Ht0) by reflexivity.
    reflexivity.
  - rewrite navigationStep_outside by (cbn; rewrite Hs3; discriminate).
    unfold leaving_calls. cbn. rewrite Hs3. reflexivity.
Qed.

End OutsideNavigating.

(** A suspension during which three steps run. *)
Lemma suspend_steps_resume_witness :
  state_of (run_calls (ML := euclid)
              (call_suspend
               :: map call_navigationStep
                    [first_step_far; first_step_far; late_step_far]
               ++ [call_resume]) navigator_stalled)
  = set_lastNavigationState SUSPENDED navigator_stalled.
Proof.
  rewrite (suspend_steps_resume (ML := euclid)
             [first_step_far; first_step_far; late_step_far] navigator_stalled).
  - reflexivity.
  - vm_compute. reflexivity.
Defined.

(** A navigator back in IDLE after a cancel. *)
Lemma steps_outside_NAVIGATING_witness :
  trace_of (run_calls (ML := euclid)
              (map call_navigationStep [first_step_far; late_step_far])
              (state_of (cancel navigator_stalled)))
  = [stopWatchdog].
Proof.
  destruct (steps_outside_NAVIGATING (ML := euclid) first_step_far [late_step_far]
              (state_of (cancel navigator_stalled))) as [H _].
  - vm_compute. discriminate.
  - rewrite H. vm_compute. reflexivity.
Defined.

(** The robot falls silent in the second step of a navigation. *)
Lemma pose_failure_ends_in_NAV_ERROR_witness :
  m_navigationState
    (state_of (navigationStep (ML := euclid) (step_with (robot_silent 3) 30000000)
                 navigator_stalled))
  = NAV_ERROR.
Proof.
  apply (pose_failure_ends_in_NAV_ERROR (ML := euclid)
           (step_with (robot_silent 3) 30000000) first_step_far navigator_stalled).
  - vm_compute. reflexivity.
  - reflexivity.
  - vm_compute. reflexivity.
Defined.

(** ** Events sent at most once per navigation *)

Arguments occurrences : simpl never.

Lemma occurrences_app (c : RobotCall) (t1 t2 : list RobotCall) :
  occurrences c (t1 ++ t2) = (occurrences c t1 + occurrences c t2)%nat.
Proof. unfold occurrences. rewrite List.filter_app, length_app. reflexivity. Qed.

Lemma occurrences_nil (c : RobotCall) : occurrences c [] = 0%nat.
Proof. reflexivity. Qed.

Lemma occurrences_cons (c a : RobotCall) (t : list RobotCall) :
  occurrences c (a :: t)
  = ((if RobotCall_eqb c a then 1 else 0) + occurrences c t)%nat.
Proof. unfold occurrences. cbn. destruct (RobotCall_eqb c a); reflexivity. Qed.

Lemma calls_within_no_occurrence (f : RobotCall -> bool) (c : RobotCall)
    (t : list RobotCall) :
  calls_within f t -> f c = false -> occurrences c t = 0%nat.
Proof.
  unfold calls_within. intros Ht Hc. induction t as [|a t IH]; [reflexivity|].
  cbn in Ht. apply andb_true_iff in Ht as [Ha Ht].
  rewrite occurrences_cons, (IH Ht).
  destruct (RobotCall_eqb c a) eqn:E; [|reflexivity].
  apply RobotCall_eqb_eq in E. subst a. congruence.
Qed.

Section Potential.
Context {ML : MathLib}.
Variable e : RobotCall.
Variable potential : CAbstractNavigator -> nat.
Hypothesis call_potential : forall c nav,
  is_navigate c = false ->
  (occurrences e (trace_of (run_call c nav)) + potential nav
   <= potential (state_of (run_call c nav)))%nat.

Lemma run_calls_potential (cs : list Call) (nav : CAbstractNavigator) :
  forallb (fun c => negb (is_navigate c)) cs = true ->
  (occurrences e (trace_of (run_calls cs nav)) + potential nav
   <= potential (state_of (run_calls cs nav)))%nat.
Proof.
  revert nav. induction cs as [|c cs IH]; intros nav Hcs;
    [cbn; rewrite occurrences_nil; lia|].
  cbn in Hcs. apply andb_true_iff in Hcs as [Hc Hcs].
  apply negb_true_iff in Hc.
  pose proof (call_potential c nav Hc) as H1. cbn [run_calls].
  destruct (run_call c nav) as [[s1 t1] o1]. cbn in H1.
  specialize (IH s1 Hcs).
  destruct (run_calls cs s1) as [[s2 t2] o2]. cbn in IH.
  destruct o1; cbn; rewrite ?occurrences_app; lia.
Qed.

End Potential.

Ltac count_calls :=
  cbn; rewrite ?occurrences_cons, ?occurrences_app, ?occurrences_nil; cbn; lia.

Section OncePerNavigation.
Context {ML : MathLib}.

Lemma navigationStep_decide_end_event (i : StepInput) (s : CAbstractNavigator) :
  let r := navigationStep_decide i s in
  (occurrences sendNavigationEndEvent (trace_of r) + end_event_sent s
   <= end_event_sent (state_of r))%nat.
Proof.
  unfold navigationStep_decide, end_event_sent. unfold_run.
  destruct (seg_robot_mov s) as [seg|]; [|count_calls].
  destruct (m_navigationParams s) as [p|] eqn:Hp; [|count_calls].
  pose proof (performNavigationStep_cases (step_perform i) (step_perform_throws i))
    as Hperf.
  destruct (targetIsIntermediaryWaypoint p) eqn:Ei;
    destruct (m_navigationEndEventSent s) eqn:E;
    destruct (Qltb (segment_distance seg (TPoint2D_of_pose (target p)))
       (dist_to_target_for_sending_event (params_abstract_navigator s)));
    destruct (Qltb (segment_distance seg (TPoint2D_of_pose (target p)))
       (targetAllowedDistance p));
    cbn; rewrite ?E; cbn; rewrite ?E; try count_calls.
  all: destruct (Qltb (segment_distance seg (TPoint2D_of_pose (target p)))
                   (m_badNavAlarm_minDistTarget s)); cbn;
    [|destruct (Qgtb (timeDifference (m_badNavAlarm_lastMinDistTime s) (step_now i))
          (alarm_seems_not_approaching_target_timeout (params_abstract_navigator s)));
      cbn; [rewrite ?E; count_calls|]].
  all: match goal with
       | |- context [performNavigationStep ?a ?t ?s0] =>
           specialize (Hperf s0);
           destruct (performNavigationStep a t s0) as [[s2 t2] o2]
       end; cbn in *; destruct Hperf as (Ho & Hs & Ht);
    rewrite ?occurrences_cons, ?occurrences_app, ?occurrences_nil,
      ?(calls_within_no_occurrence _ sendNavigationEndEvent _ Ht) by reflexivity;
    destruct Hs as [-> | ->]; cbn; rewrite ?E; cbn; lia.
Qed.

Lemma navigationStep_decide_blocked (i : StepInput) (s : CAbstractNavigator) :
  let r := navigationStep_decide i s in
  (occurrences sendWaySeemsBlockedEvent (trace_of r)
   <= navigation_over (state_of r))%nat.
Proof.
  unfold navigationStep_decide, navigation_over. unfold_run.
  destruct (seg_robot_mov s) as [seg|]; [|count_calls].
  destruct (m_navigationParams s) as [p|] eqn:Hp; [|count_calls].
  pose proof (performNavigationStep_cases (step_perform i) (step_perform_throws i))
    as Hperf.
  destruct (targetIsIntermediaryWaypoint p) eqn:Ei;
    destruct (m_navigationEndEventSent s) eqn:E;
    destruct (Qltb (segment_distance seg (TPoint2D_of_pose (target p)))
       (dist_to_target_for_sending_event (params_abstract_navigator s)));
    destruct (Qltb (segment_distance seg (TPoint2D_of_pose (target p)))
       (targetAllowedDistance p));
    cbn; rewrite ?E; cbn; try count_calls.
  all: destruct (Qltb (segment_distance seg (TPoint2D_of_pose (target p)))
                   (m_badNavAlarm_minDistTarget s)); cbn;
    [|destruct (Qgtb (timeDifference (m_badNavAlarm_lastMinDistTime s) (step_now i))
          (alarm_seems_not_approaching_target_timeout (params_abstract_navigator s)));
      cbn; [count_calls|]].
  all: match goal with
       | |- context [performNavigationStep ?a ?t ?s0] =>
           specialize (Hperf s0);
           destruct (performNavigationStep a t s0) as [[s2 t2] o2]
       end; cbn in *; destruct Hperf as (Ho & Hs & Ht);
    rewrite ?occurrences_cons, ?occurrences_app, ?occurrences_nil,
      ?(calls_within_no_occurrence _ sendWaySeemsBlockedEvent _ Ht) by reflexivity;
    cbn; lia.
Qed.

(** A step, for an event that only the decision part can send. *)
Lemma navigationStep_potential (e : RobotCall)
    (potential : CAbstractNavigator -> nat) (i : StepInput)
    (nav : CAbstractNavigator) :
  refresh_call e = false ->
  e <> stop true -> e <> stop false -> e <> stopWatchdog ->
  e <> sendNavigationEndDueToErrorEvent ->
  (forall a b, m_navigationEndEventSent a = m_navigationEndEventSent b ->
               m_navigationState a = m_navigationState b ->
               potential a = potential b) ->
  (forall s, m_navigationState s = NAVIGATING ->
     (potential s <= potential (set_navigationState NAV_ERROR s))%nat) ->
  (forall s, m_navigationState s = NAVIGATING ->
     (occurrences e (trace_of (navigationStep_decide i s)) + potential s
      <= potential (state_of (navigationStep_decide i s)))%nat) ->
  (occurrences e (trace_of (navigationStep i nav)) + potential nav
   <= potential (state_of (navigationStep i nav)))%nat.
Proof.
  intros He H1 H2 H3 H4 Hpot Herr Hdec.
  destruct (TState_eqb (m_navigationState nav) NAVIGATING) eqn:Hst.
  2: { rewrite navigationStep_outside by (intros H; rewrite H in Hst; discriminate).
       cbn. rewrite (Hpot (set_lastNavigationState (m_navigationState nav) nav) nav)
         by reflexivity.
       assert (occurrences e (leaving_calls nav) = 0%nat); [|lia].
       unfold leaving_calls.
       destruct (TState_eqb (m_lastNavigationState nav) NAVIGATING);
         [|reflexivity].
       destruct (m_navigationState nav);
         rewrite ?occurrences_cons, ?occurrences_nil;
         repeat match goal with
         | |- context [RobotCall_eqb e ?c] =>
             let E := fresh in
             destruct (RobotCall_eqb e c) eqn:E;
             [apply RobotCall_eqb_eq in E; congruence|]
         end; reflexivity. }
  assert (Hnav : m_navigationState nav = NAVIGATING)
    by (destruct (m_navigationState nav); try discriminate; reflexivity).
  unfold navigationStep, navigationStep_NAVIGATING. unfold_run. rewrite Hnav.
  pose proof (navigationStep_refresh_cases i nav) as Href.
  destruct (navigationStep_refresh i nav) as [[s1 t1] o1]. cbn in Href.
  destruct Href as [(-> & Hs & Ht) | (-> & _ & Hs & t0 & -> & Ht)].
  - destruct Hs as (_ & Hs2 & Hs3 & _).
    specialize (Hdec s1 ltac:(congruence)).
    destruct (navigationStep_decide i s1) as [[s2 t2] o2]. cbn in Hdec.
    rewrite (Hpot nav s1) by congruence.
    destruct o2; cbn [state_of trace_of outcome_of fst snd app];
      rewrite ?app_nil_r, occurrences_app,
        (calls_within_no_occurrence _ e _ Ht He),
        ?(Hpot (set_lastNavigationState NAVIGATING s2) s2) by reflexivity; lia.
  - cbn. destruct Hs as (_ & Hs2 & Hs3 & _). cbn in Hs2, Hs3.
    rewrite app_nil_r, occurrences_app, (calls_within_no_occurrence _ e _ Ht He),
      occurrences_cons, occurrences_nil.
    destruct (RobotCall_eqb e (stop true)) eqn:E;
      [apply RobotCall_eqb_eq in E; congruence|].
    rewrite (Hpot (set_lastNavigationState NAVIGATING s1)
               (set_navigationState NAV_ERROR nav)) by (cbn; congruence).
    specialize (Herr nav Hnav). lia.
Qed.

Lemma other_calls_silent (c : Call) (nav : CAbstractNavigator) (e : RobotCall) :
  is_navigate c = false ->
  (forall i, c <> call_navigationStep i) ->
  e <> stop false ->
  occurrences e (trace_of (run_call c nav)) = 0%nat /\
  m_navigationEndEventSent (state_of (run_call c nav)) = m_navigationEndEventSent nav /\
  (navigation_over nav <= navigation_over (state_of (run_call c nav)))%nat.
Proof.
  intros Hn Hs He. unfold navigation_over.
  destruct c; try discriminate; cbn;
    try (exfalso; eapply Hs; reflexivity);
    unfold cancel, suspend, resume, resetNavError; unfold_run; cbn;
    destruct (m_navigationState nav) eqn:E0; cbn; rewrite ?E0; repeat split;
    try lia.
  all: rewrite occurrences_cons, occurrences_nil;
    destruct (RobotCall_eqb e (stop false)) eqn:E;
    [apply RobotCall_eqb_eq in E; congruence | reflexivity].
Qed.

(** X6: Between two [navigate] calls the navigation-end event is sent at
    most once, and it is not sent at all when it was sent before: in
    every run of calls without [navigate], from any navigator. *)
Theorem end_event_at_most_once (cs : list Call) (nav : CAbstractNavigator) :
  forallb (fun c => negb (is_navigate c)) cs = true ->
  (occurrences sendNavigationEndEvent (trace_of (run_calls cs nav))
   + end_event_sent nav <= 1)%nat.
Proof.
  intros Hcs.
  pose proof (run_calls_potential sendNavigationEndEvent end_event_sent) as H.
  assert (Hb : forall s, (end_event_sent s <= 1)%nat)
    by (intros s; unfold end_event_sent; destruct (m_navigationEndEventSent s);
        cbn; lia).
  specialize (Hb (state_of (run_calls cs nav))).
  enough (occurrences sendNavigationEndEvent (trace_of (run_calls cs nav))
          + end_event_sent nav
          <= end_event_sent (state_of (run_calls cs nav)))%nat by lia.
  apply H; [|exact Hcs].
  intros c s Hc. destruct c; try discriminate.
  5: { apply navigationStep_potential; try discriminate; try reflexivity.
       - intros a b Ha _. unfold end_event_sent. rewrite Ha. reflexivity.
       - intros s0 _. apply navigationStep_decide_end_event. }
  all: match goal with
       | |- context [run_call ?c ?n] =>
           destruct (other_calls_silent c n sendNavigationEndEvent eq_refl)
             as (H1 & H2 & _); [discriminate | discriminate |]
       end; unfold end_event_sent; rewrite H1, H2; lia.
Qed.

(** X7: Between two [navigate] calls the way-blocked event is sent at
    most once, and never once the navigation is over (the navigator is
    IDLE or in NAV_ERROR): in every run of calls without [navigate],
    from any navigator. *)
Theorem way_blocked_at_most_once (cs : list Call) (nav : CAbstractNavigator) :
  forallb (fun c => negb (is_navigate c)) cs = true ->
  (occurrences sendWaySeemsBlockedEvent (trace_of (run_calls cs nav))
   + navigation_over nav <= 1)%nat.
Proof.
  intros Hcs.
  pose proof (run_calls_potential sendWaySeemsBlockedEvent navigation_over) as H.
  assert (Hb : forall s, (navigation_over s <= 1)%nat)
    by (intros s; unfold navigation_over; destruct (m_navigationState s); lia).
  specialize (Hb (state_of (run_calls cs nav))).
  enough (occurrences sendWaySeemsBlockedEvent (trace_of (run_calls cs nav))
          + navigation_over nav
          <= navigation_over (state_of (run_calls cs nav)))%nat by lia.
  apply H; [|exact Hcs].
  intros c s Hc. destruct c; try discriminate.
  5: { apply navigationStep_potential; try discriminate; try reflexivity.
       - intros a b _ Ha. unfold navigation_over. rewrite Ha. reflexivity.
       - intros s0 Hs0. unfold navigation_over. rewrite Hs0. cbn. lia.
       - intros s0 Hs0. pose proof (navigationStep_decide_blocked i s0) as Hd.
         cbv zeta in Hd. unfold navigation_over at 1. rewrite Hs0. lia. }
  all: match goal with
       | |- context [run_call ?c ?n] =>
           destruct (other_calls_silent c n sendWaySeemsBlockedEvent eq_refl)
             as (H1 & _ & H3); [discriminate | discriminate |]
       end; rewrite H1; lia.
Qed.

End OncePerNavigation.

(** The robot arrives, and two more steps follow. *)
Lemma end_event_at_most_once_witness :
  (occurrences sendNavigationEndEvent
     (trace_of (run_calls (ML := euclid)
                  [call_navigationStep step_on_target;
                   call_navigationStep step_on_target;
                   call_resume; call_navigationStep step_on_target]
                  (navigator_to false)))
   + end_event_sent (navigator_to false) <= 1)%nat.
Proof.
  apply (end_event_at_most_once (ML := euclid)). reflexivity.
Defined.

(** The robot stalls, and two more steps follow. *)
Lemma way_blocked_at_most_once_witness :
  (occurrences sendWaySeemsBlockedEvent
     (trace_of (run_calls (ML := euclid)
                  [call_navigationStep late_step_far;
                   call_navigationStep late_step_far;
                   call_resume; call_navigationStep late_step_far]
                  navigator_stalled))
   + navigation_over navigator_stalled <= 1)%nat.
Proof.
  apply (way_blocked_at_most_once (ML := euclid)). reflexivity.
Defined.

(** ** The stored target is absolute *)

Section AbsoluteTarget.
Context {ML : MathLib}.

Lemma navigate_absolute_target (params : TNavigationParams) (ni : NavigateInput)
    (nav : CAbstractNavigator) :
  has_absolute_target (state_of (navigate params ni nav)).
Proof.
  unfold has_absolute_target, navigate. unfold_run. cbn.
  destruct (targetIsRelative params) eqn:Erel; cbn.
  - match goal with
    | |- context [updateCurrentPoseAndSpeeds ?q ?s] =>
        pose proof (updateCurrentPoseAndSpeeds_cases q s) as H;
        destruct (updateCurrentPoseAndSpeeds q s) as [[s1 t1] o1]
    end. cbn in H.
    destruct H as [(-> & Hs & Ht) | (-> & _ & Hs & ->)]; cbn.
    + intros _. eexists. split; reflexivity.
    + destruct Hs as (_ & _ & Hs3 & _). cbn in Hs3. rewrite Hs3.
      intros [H | H]; discriminate.
  - intros _. exists params. split; [reflexivity | exact Erel].
Qed.

Lemma call_keeps_absolute_target (c : Call) (nav : CAbstractNavigator) :
  has_absolute_target nav -> has_absolute_target (state_of (run_call c nav)).
Proof.
  intros Hnav. destruct c; cbn [run_call].
  - apply navigate_absolute_target.
  - unfold has_absolute_target. cbn. intros [H | H]; discriminate.
  - unfold has_absolute_target, suspend in *. unfold_run.
    destruct (m_navigationState nav) eqn:E; cbn; rewrite ?E; auto.
  - unfold has_absolute_target, resume in *. unfold_run.
    destruct (m_navigationState nav) eqn:E; cbn; rewrite ?E; auto.
  - unfold has_absolute_target, resetNavError in *. unfold_run.
    destruct (m_navigationState nav) eqn:E; cbn; rewrite ?E; auto.
    intros [H | H]; discriminate.
  - pose proof (navigationStep_summary i nav) as (Hp & Hs & _).
    unfold has_absolute_target in *. rewrite Hp. intros H. apply Hnav.
    destruct Hs as [Hs | (Hs & [Hs' | Hs'])]; [rewrite <- Hs; exact H | auto ..].
Qed.

(** X8: Whenever a navigator is NAVIGATING or SUSPENDED its stored
    target is in absolute coordinates ([targetIsRelative] is false):
    after every run of calls on a new navigator. A relative target is
    composed with the robot pose by [navigate], and a [navigate] that
    fails to read the pose ends in NAV_ERROR. *)
Theorem navigating_target_is_absolute (cs : list Call)
    (indet_minDist : double) (indet_time : TTimeStamp) :
  has_absolute_target
    (state_of (run_calls cs (CAbstractNavigator_ctor indet_minDist indet_time))).
Proof.
  assert (H : forall nav, has_absolute_target nav ->
                has_absolute_target (state_of (run_calls cs nav))).
  { induction cs as [|c cs IH]; intros nav Hnav; [exact Hnav|].
    cbn [run_calls]. pose proof (call_keeps_absolute_target c nav Hnav) as H1.
    destruct (run_call c nav) as [[s1 t1] o1]. cbn in H1.
    specialize (IH s1 H1).
    destruct (run_calls cs s1) as [[s2 t2] o2]. cbn in IH.
    destruct o1; cbn; assumption. }
  apply H. unfold has_absolute_target. cbn. intros [H0 | H0]; discriminate.
Qed.

End AbsoluteTarget.

(** ** The rate limit of the pose update *)

Section RateLimit.
Context {ML : MathLib}.




End RateLimit.


(** * Further properties of the waypoint sequencer *)

(** ** Vectors indexed by an [int] *)

Lemma at_index_lookup {A} (v : list A) (i : Z) (a : A) :
  at_index v i = Some a <-> (0 <= i)%Z /\ v !! Z.to_nat i = Some a.
Proof.
  unfold at_index. destruct (i <? 0)%Z eqn:E.
  - apply Z.ltb_lt in E. split; [discriminate | intros [H _]; lia].
  - apply Z.ltb_ge in E. tauto.
Qed.

Lemma at_index_size {A} (v : list A) (i : Z) :
  (0 <= i < size v)%Z -> exists a, at_index v i = Some a.
Proof.
  intros [H1 H2]. unfold size in H2.
  destruct (v !! Z.to_nat i) as [a|] eqn:E.
  - exists a. apply at_index_lookup. auto.
  - apply lookup_ge_None in E. lia.
Qed.

Lemma at_index_bound {A} (v : list A) (i : Z) (a : A) :
  at_index v i = Some a -> (0 <= i < size v)%Z.
Proof.
  intros H. apply at_index_lookup in H as [H1 H2].
  apply lookup_lt_Some in H2. unfold size. lia.
Qed.

Lemma at_index_update_eq {A} (v : list A) (i : Z) (f : A -> A) (a : A) :
  at_index v i = Some a -> at_index (update_index v i f) i = Some (f a).
Proof.
  intros H. unfold update_index. rewrite H.
  apply at_index_lookup in H as [H1 H2]. apply at_index_lookup. split; [exact H1|].
  apply list_lookup_insert_eq. apply lookup_lt_Some in H2. exact H2.
Qed.

Lemma at_index_update {A} (v : list A) (i j : Z) (f : A -> A) (b : A) :
  at_index (update_index v i f) j = Some b ->
  exists a, at_index v j = Some a /\ (b = a \/ (j = i /\ b = f a)).
Proof.
  unfold update_index. destruct (at_index v i) as [a|] eqn:E; [|eauto].
  intros H. apply at_index_lookup in H as [H1 H2].
  apply at_index_lookup in E as [E1 E2].
  destruct (decide (Z.to_nat i = Z.to_nat j)) as [Heq | Hne].
  - assert (j = i) by lia. subst j. exists a. split.
    + apply at_index_lookup. auto.
    + right. split; [reflexivity|].
      rewrite list_lookup_insert_eq in H2 by (apply lookup_lt_Some in E2; exact E2).
      congruence.
  - rewrite list_lookup_insert_ne in H2 by exact Hne.
    exists b. split; [apply at_index_lookup; auto | left; reflexivity].
Qed.

Lemma size_update_index {A} (v : list A) (i : Z) (f : A -> A) :
  size (update_index v i f) = size v.
Proof.
  unfold update_index, size. destruct (at_index v i); [|reflexivity].
  rewrite length_insert. reflexivity.
Qed.

Lemma at_index_Forall2 {A} (R : A -> A -> Prop) (v v' : list A) (i : Z) (a : A) :
  Forall2 R v v' -> at_index v i = Some a ->
  exists b, at_index v' i = Some b /\ R a b.
Proof.
  intros HF H. apply at_index_lookup in H as [H1 H2].
  destruct (Forall2_lookup_l _ _ _ _ _ HF H2) as (b & Hb & HR).
  exists b. split; [apply at_index_lookup; auto | exact HR].
Qed.

Lemma at_index_Forall2_r {A} (R : A -> A -> Prop) (v v' : list A) (i : Z) (b : A) :
  Forall2 R v v' -> at_index v' i = Some b ->
  exists a, at_index v i = Some a /\ R a b.
Proof.
  intros HF H. apply at_index_lookup in H as [H1 H2].
  destruct (Forall2_lookup_r _ _ _ _ _ HF H2) as (a & Ha & HR).
  exists a. split; [apply at_index_lookup; auto | exact HR].
Qed.

Lemma size_Forall2 {A} (R : A -> A -> Prop) (v v' : list A) :
  Forall2 R v v' -> size v' = size v.
Proof. intros H. unfold size. rewrite (Forall2_length _ _ _ H). reflexivity. Qed.

(** ** Flags and counters *)

Lemma waypoint_progress_refl (a : TWaypointStatus) : waypoint_progress a a.
Proof. split; auto. Qed.

Lemma waypoint_progress_trans (a b c : TWaypointStatus) :
  waypoint_progress a b -> waypoint_progress b c -> waypoint_progress a c.
Proof. intros [H1 H2] [H3 H4]. split; [congruence | auto]. Qed.

Lemma waypoints_progress_refl (l : list TWaypointStatus) :
  Forall2 waypoint_progress l l.
Proof. induction l; constructor; auto using waypoint_progress_refl. Qed.

Lemma waypoints_progress_trans (a b c : list TWaypointStatus) :
  Forall2 waypoint_progress a b -> Forall2 waypoint_progress b c ->
  Forall2 waypoint_progress a c.
Proof.
  intros H1. revert c. induction H1 as [|x y l k Hxy Hl IH]; intros c H2.
  - inversion H2. constructor.
  - inversion H2 as [|? z ? k' Hyz Hk]; subst. constructor.
    + exact (waypoint_progress_trans _ _ _ Hxy Hyz).
    + apply IH, Hk.
Qed.

Lemma update_index_progress (v : list TWaypointStatus) (i : Z)
    (f : TWaypointStatus -> TWaypointStatus) :
  (forall a, waypoint_progress a (f a)) ->
  Forall2 waypoint_progress v (update_index v i f).
Proof.
  intros Hf. unfold update_index.
  destruct (at_index v i) as [a|] eqn:E; [|apply waypoints_progress_refl].
  apply at_index_lookup in E as [_ E].
  rewrite <- (list_insert_id v (Z.to_nat i) a E) at 1.
  apply Forall2_insert; [apply waypoints_progress_refl | apply Hf].
Qed.

Lemma mark_reached_progress (n : nat) (k : Z) (l : list TWaypointStatus) :
  Forall2 waypoint_progress l (mark_reached n k l).
Proof.
  revert k l. induction n as [|n IH]; intros k l; cbn.
  - apply waypoints_progress_refl.
  - eapply waypoints_progress_trans; [|apply IH].
    apply update_index_progress. intros a. split; reflexivity.
Qed.

Lemma mark_reached_marks (n : nat) (k j : Z) (l : list TWaypointStatus)
    (w : TWaypointStatus) :
  (k <= j < k + Z.of_nat n)%Z ->
  at_index (mark_reached n k l) j = Some w -> reached w = true.
Proof.
  revert k l. induction n as [|n IH]; intros k l Hj Hw; [lia|].
  cbn in Hw. destruct (decide (j = k)) as [-> | Hne].
  - destruct (at_index_Forall2_r _ _ _ _ _
                (mark_reached_progress n (k + 1) _) Hw) as (a & Ha & _ & Hr).
    apply Hr. pose proof (at_index_bound _ _ _ Ha) as Hb.
    rewrite size_update_index in Hb.
    destruct (at_index_size l k Hb) as (a0 & Ha0).
    rewrite (at_index_update_eq l k (set_reached true) a0 Ha0) in Ha.
    injection Ha as <-. reflexivity.
  - apply (IH (k + 1)%Z _ ltac:(lia) Hw).
Qed.

Section StatusStep.
Context {ML : MathLib}.

Lemma skip_scan_progress (pars : TWaypointsNavigatorParams) (robot_pose : TPose2D)
    (is_reachable : TPoint2D -> bool) (n : nat) (idx : Z)
    (wps : list TWaypointStatus) (most : Z) :
  Forall2 waypoint_progress wps
    (fst (skip_scan pars robot_pose is_reachable n idx wps most)).
Proof.
  revert idx wps most. induction n as [|n IH]; intros idx wps most; cbn.
  - apply waypoints_progress_refl.
  - destruct (idx <? 0)%Z; [apply IH|].
    destruct (at_index wps idx) as [w|]; [|apply waypoints_progress_refl].
    destruct (Qgtb (max_distance_to_allow_skip_waypoint pars) 0
              && Qgtb (point_norm (inverseComposePoint robot_pose
                                     (wp_target (waypoint w))))
                   (max_distance_to_allow_skip_waypoint pars)); [apply IH|].
    destruct (is_reachable (inverseComposePoint robot_pose (wp_target (waypoint w))));
      destruct (negb (allow_skip (waypoint w))); cbn;
      try apply waypoints_progress_refl; try apply IH.
    + apply update_index_progress. intros a. split; cbn; auto.
    + eapply waypoints_progress_trans; [|apply IH].
      apply update_index_progress. intros a. split; cbn; auto.
Qed.

Lemma skip_scan_most (pars : TWaypointsNavigatorParams) (robot_pose : TPose2D)
    (is_reachable : TPoint2D -> bool) (n : nat) (idx : Z)
    (wps : list TWaypointStatus) (most : Z) :
  let most' := snd (skip_scan pars robot_pose is_reachable n idx wps most) in
  most' = most \/ (idx <= most' < size wps)%Z.
Proof.
  revert idx wps most. induction n as [|n IH]; intros idx wps most; cbn.
  - left. reflexivity.
  - destruct (idx <? 0)%Z.
    { destruct (IH (idx + 1)%Z wps most) as [H | H]; [left; exact H | right; lia]. }
    destruct (at_index wps idx) as [w|] eqn:Ew; [|left; reflexivity].
    pose proof (at_index_bound _ _ _ Ew) as Hb.
    destruct (Qgtb (max_distance_to_allow_skip_waypoint pars) 0
              && Qgtb (point_norm (inverseComposePoint robot_pose
                                     (wp_target (waypoint w))))
                   (max_distance_to_allow_skip_waypoint pars)).
    { destruct (IH (idx + 1)%Z wps most) as [H | H]; [left; exact H | right; lia]. }
    destruct (is_reachable (inverseComposePoint robot_pose (wp_target (waypoint w))));
      destruct (negb (allow_skip (waypoint w))); cbn.
    + destruct (counter_seen_reachable w + 1 >? min_timesteps_confirm_skip_waypoints pars)%Z;
        [right; lia | left; reflexivity].
    + match goal with
      | |- context [skip_scan _ _ _ _ _ ?l ?m] =>
          destruct (IH (idx + 1)%Z l m) as [H | H]
      end.
      * rewrite H.
        destruct (counter_seen_reachable w + 1 >? min_timesteps_confirm_skip_waypoints pars)%Z;
          [right; lia | left; reflexivity].
      * right. rewrite size_update_index in H. lia.
    + left. reflexivity.
    + destruct (IH (idx + 1)%Z wps most) as [H | H]; [left; exact H | right; lia].
Qed.

Lemma status_progress_refl (s : TWaypointStatusSequence) : status_progress s s.
Proof. split; [apply waypoints_progress_refl|]. split; [lia | auto]. Qed.

Lemma status_progress_trans (a b c : TWaypointStatusSequence) :
  status_progress a b -> status_progress b c -> status_progress a c.
Proof.
  intros (H1 & H2 & H3) (H4 & H5 & H6).
  split; [exact (waypoints_progress_trans _ _ _ H1 H4)|]. split; [lia | auto].
Qed.

Lemma arrival_update_ok (seg : TSegment2D) (target_reached : bool)
    (s : TWaypointStatusSequence) :
  status_ok s ->
  status_ok (arrival_update seg target_reached s) /\
  status_progress s (arrival_update seg target_reached s).
Proof.
  intros Hok. pose proof Hok as (Hi & Hr & Hf). unfold arrival_update.
  destruct (0 <=? waypoint_index_current_goal s)%Z eqn:E0;
    [|split; [exact Hok | apply status_progress_refl]].
  apply Z.leb_le in E0.
  destruct (at_index (waypoints s) (waypoint_index_current_goal s)) as [wpt|] eqn:Ew;
    [|split; [exact Hok | apply status_progress_refl]].
  destruct (Qltb (segment_distance seg (wp_target (waypoint wpt)))
              (allowed_distance (waypoint wpt)) || target_reached);
    [|split; [exact Hok | apply status_progress_refl]].
  assert (Hp : Forall2 waypoint_progress (waypoints s)
                 (update_index (waypoints s) (waypoint_index_current_goal s)
                    (set_reached true)))
    by (apply update_index_progress; intros a; split; reflexivity).
  assert (Hk : forall w,
             at_index (update_index (waypoints s) (waypoint_index_current_goal s)
                         (set_reached true)) (waypoint_index_current_goal s) = Some w ->
             reached w = true).
  { intros w Hw. rewrite (at_index_update_eq _ _ _ _ Ew) in Hw.
    injection Hw as <-. reflexivity. }
  assert (Hlt : forall k w, (0 <= k < waypoint_index_current_goal s)%Z ->
             at_index (update_index (waypoints s) (waypoint_index_current_goal s)
                         (set_reached true)) k = Some w ->
             reached w = true).
  { intros k w Hk' Hw.
    destruct (at_index_Forall2_r _ _ _ _ _ Hp Hw) as (a & Ha & _ & Hra).
    apply Hra, (Hr k a Hk' Ha). }
  destruct (waypoint_index_current_goal s <? size (waypoints s) - 1)%Z eqn:El.
  - apply Z.ltb_lt in El. split.
    + split; [cbn; rewrite size_update_index; lia|]. split.
      * cbn. intros k w Hk' Hw.
        destruct (decide (k = waypoint_index_current_goal s)) as [-> | Hne];
          [apply (Hk w Hw) | apply (Hlt k w ltac:(lia) Hw)].
      * cbn. intros H. destruct (Hf H) as [H1 _]. lia.
    + split; [exact Hp|]. split; [cbn; lia | cbn; auto].
  - apply Z.ltb_ge in El. split.
    + split; [cbn; rewrite size_update_index; lia|]. split.
      * cbn. exact Hlt.
      * cbn. intros _. rewrite size_update_index. split; [lia | exact Hk].
    + split; [exact Hp|]. split; [cbn; lia | cbn; auto].
Qed.

Lemma lookahead_update_ok (pars : TWaypointsNavigatorParams) (cur : TPose2D)
    (is_reachable : TPoint2D -> bool) (s : TWaypointStatusSequence) :
  status_ok s ->
  status_ok (lookahead_update pars cur is_reachable s) /\
  status_progress s (lookahead_update pars cur is_reachable s).
Proof.
  intros Hok. pose proof Hok as (Hi & Hr & Hf). unfold lookahead_update.
  destruct (final_goal_reached s) eqn:Efin;
    [split; [exact Hok | apply status_progress_refl]|].
  destruct (0 <=? waypoint_index_current_goal s)%Z eqn:E0;
    [|split; [exact Hok | apply status_progress_refl]].
  apply Z.leb_le in E0. cbn [negb andb].
  pose proof (skip_scan_progress pars cur is_reachable
                (Z.to_nat (size (waypoints s) - waypoint_index_current_goal s))
                (waypoint_index_current_goal s) (waypoints s)
                (waypoint_index_current_goal s)) as Hp.
  pose proof (skip_scan_most pars cur is_reachable
                (Z.to_nat (size (waypoints s) - waypoint_index_current_goal s))
                (waypoint_index_current_goal s) (waypoints s)
                (waypoint_index_current_goal s)) as Hm.
  destruct (skip_scan pars cur is_reachable
              (Z.to_nat (size (waypoints s) - waypoint_index_current_goal s))
              (waypoint_index_current_goal s) (waypoints s)
              (waypoint_index_current_goal s)) as [wpts most].
  cbn in Hp, Hm.
  assert (Hmost : (waypoint_index_current_goal s <= most < size (waypoints s))%Z)
    by (destruct Hm as [-> | Hm]; lia).
  destruct (0 <=? most)%Z eqn:Em; [|apply Z.leb_gt in Em; lia].
  pose proof (mark_reached_progress
                (Z.to_nat (most - waypoint_index_current_goal s))
                (waypoint_index_current_goal s) wpts) as Hq.
  pose proof (waypoints_progress_trans _ _ _ Hp Hq) as Hpq.
  split.
  - split; [cbn; rewrite (size_Forall2 _ _ _ Hpq); lia|]. split.
    + cbn. intros k w Hk Hw.
      destruct (Z_lt_le_dec k (waypoint_index_current_goal s)) as [Hlt | Hge].
      * destruct (at_index_Forall2_r _ _ _ _ _ Hpq Hw) as (a & Ha & _ & Hra).
        apply Hra, (Hr k a ltac:(lia) Ha).
      * apply (mark_reached_marks
                 (Z.to_nat (most - waypoint_index_current_goal s))
                 (waypoint_index_current_goal s) k wpts w); [lia | exact Hw].
    + cbn. intros H. rewrite Efin in H. discriminate.
  - split; [exact Hpq|]. split; [cbn; lia | cbn; auto].
Qed.

Lemma start_update_ok (s : TWaypointStatusSequence) :
  waypoints s <> [] ->
  status_ok s ->
  status_ok (start_update s) /\ status_progress s (start_update s) /\
  (0 <= waypoint_index_current_goal (start_update s))%Z.
Proof.
  intros Hne Hok. pose proof Hok as (Hi & Hr & Hf). unfold start_update.
  destruct (waypoint_index_current_goal s <? 0)%Z eqn:E.
  - apply Z.ltb_lt in E.
    assert (Hsz : (0 < size (waypoints s))%Z)
      by (unfold size; destruct (waypoints s); [contradiction | cbn; lia]).
    split; [|split; [|cbn; lia]].
    + split; [cbn; lia|]. split; [cbn; intros; lia|].
      cbn. intros H. destruct (Hf H) as [H1 _]. lia.
    + split; [apply waypoints_progress_refl|]. split; [cbn; lia | cbn; auto].
  - apply Z.ltb_ge in E.
    split; [exact Hok | split; [apply status_progress_refl | exact E]].
Qed.

(** The status computed by a step keeps the invariant and is a progress. *)
Lemma waypoints_status_step_ok (pars : TWaypointsNavigatorParams) (cur : TPose2D)
    (target_reached : bool) (is_reachable : TPoint2D -> bool)
    (s : TWaypointStatusSequence) :
  waypoints s <> [] ->
  status_ok s ->
  let s' := waypoints_status_step pars cur target_reached is_reachable s in
  status_ok s' /\ status_progress s s' /\ (0 <= waypoint_index_current_goal s')%Z.
Proof.
  intros Hne Hok. unfold waypoints_status_step.
  assert (H0 : status_ok (set_last_robot_pose cur s)) by exact Hok.
  destruct (arrival_update_ok (robot_move_seg cur s) target_reached _ H0)
    as [H1 P1].
  destruct (lookahead_update_ok pars cur is_reachable _ H1) as [H2 P2].
  pose proof (status_progress_trans _ _ _ P1 P2) as P12.
  assert (Hne2 : waypoints
                   (lookahead_update pars cur is_reachable
                      (arrival_update (robot_move_seg cur s) target_reached
                         (set_last_robot_pose cur s))) <> []).
  { destruct P12 as (HF & _). cbn in HF. intros Hnil. rewrite Hnil in HF.
    inversion HF; subst. congruence. }
  destruct (start_update_ok _ Hne2 H2) as (H3 & P3 & Hge).
  split; [exact H3|]. split; [|exact Hge].
  exact (status_progress_trans _ _ _ P12 P3).
Qed.

End StatusStep.

(** ** The waypoint part of a step *)

Ltac wp_simpl :=
  cbn -[skip_scan at_index size update_index mark_reached Z.leb Z.ltb Z.eqb
        Z.add Z.sub navigate].

(** Settles the integer comparisons that the context decides. *)
Ltac decide_cmp :=
  repeat match goal with
  | |- context [(?a <? ?b)%Z] =>
      first [ replace (a <? b)%Z with true by (symmetry; apply Z.ltb_lt; lia)
            | replace (a <? b)%Z with false by (symmetry; apply Z.ltb_ge; lia) ]
  | |- context [(?a <=? ?b)%Z] =>
      first [ replace (a <=? b)%Z with true by (symmetry; apply Z.leb_le; lia)
            | replace (a <=? b)%Z with false by (symmetry; apply Z.leb_gt; lia) ]
  | |- context [(?a =? ?b)%Z] =>
      first [ replace (a =? b)%Z with true by (symmetry; apply Z.eqb_eq; lia)
            | replace (a =? b)%Z with false by (symmetry; apply Z.eqb_neq; lia) ]
  end.

Ltac wp_step := repeat (progress (wp_simpl; decide_cmp)).

(** Names the result of the look-ahead and what is known of it. *)
Ltac scan_step Hm Hp wpts most :=
  match goal with
  | |- context [skip_scan ?a ?b ?c ?n ?k ?l ?m] =>
      pose proof (skip_scan_most a b c n k l m) as Hm;
      pose proof (skip_scan_progress a b c n k l m) as Hp;
      destruct (skip_scan a b c n k l m) as [wpts most];
      cbv zeta in Hm; cbn [fst snd] in Hm, Hp;
      apply size_Forall2 in Hp; rewrite ?size_update_index in Hp, Hm
  end.

Section WaypointPart.
Context {ML : MathLib}.

Lemma mark_skipped_run (n : nat) (k : Z) (w : CWaypointsNavigator) :
  mark_skipped n k w
  = (set_status
       (set_waypoints (mark_reached n k (waypoints (m_waypoint_nav_status w)))
          (m_waypoint_nav_status w)) w,
     reached_events n k, Returned tt).
Proof.
  revert k w. induction n as [|n IH]; intros k w.
  - cbn. destruct w as [b [wps ts fin idx lrp] pars]. reflexivity.
  - cbn [mark_skipped]. unfold modify_status. unfold_run. cbn.
    rewrite IH. cbn. reflexivity.
Qed.

Lemma reached_events_within (n : nat) (k : Z) :
  calls_within is_reached_event (reached_events n k).
Proof.
  revert k. induction n as [|n IH]; intros k; [reflexivity|].
  unfold calls_within in *. cbn. apply IH.
Qed.

Lemma navigate_absolute_returns (params : TNavigationParams) (ni : NavigateInput)
    (nav : CAbstractNavigator) :
  targetIsRelative params = false ->
  navigate params ni nav
  = (set_badNavAlarm DBL_MAX (nav_now ni)
       (set_navigationState NAVIGATING
          (set_navigationParams (Some params)
             (set_lastNavTargetReached false
                (set_navigationEndEventSent false nav)))),
     [], Returned tt).
Proof. intros H. unfold navigate. unfold_run. rewrite H. reflexivity. Qed.

(** The status parts, case by case. *)
Lemma arrival_update_not_started (seg : TSegment2D) (tr : bool)
    (s : TWaypointStatusSequence) :
  (waypoint_index_current_goal s < 0)%Z -> arrival_update seg tr s = s.
Proof.
  intros H. unfold arrival_update.
  replace (0 <=? waypoint_index_current_goal s)%Z with false
    by (symmetry; apply Z.leb_gt; lia).
  reflexivity.
Qed.

Lemma arrival_update_not_arrived (seg : TSegment2D) (tr : bool)
    (s : TWaypointStatusSequence) (wpt : TWaypointStatus) :
  at_index (waypoints s) (waypoint_index_current_goal s) = Some wpt ->
  Qltb (segment_distance seg (wp_target (waypoint wpt)))
    (allowed_distance (waypoint wpt)) || tr = false ->
  arrival_update seg tr s = s.
Proof.
  intros Hw Ha. unfold arrival_update. rewrite Hw, Ha.
  destruct (0 <=? waypoint_index_current_goal s)%Z; reflexivity.
Qed.

Lemma arrival_update_arrived (seg : TSegment2D) (tr : bool)
    (s : TWaypointStatusSequence) (wpt : TWaypointStatus) :
  at_index (waypoints s) (waypoint_index_current_goal s) = Some wpt ->
  Qltb (segment_distance seg (wp_target (waypoint wpt)))
    (allowed_distance (waypoint wpt)) || tr = true ->
  arrival_update seg tr s
  = let s' := set_waypoints
                (update_index (waypoints s) (waypoint_index_current_goal s)
                   (set_reached true)) s in
    if (waypoint_index_current_goal s <? size (waypoints s) - 1)%Z
    then set_index (waypoint_index_current_goal s + 1)%Z s'
    else set_final_goal_reached true s'.
Proof.
  intros Hw Ha. unfold arrival_update. rewrite Hw, Ha.
  replace (0 <=? waypoint_index_current_goal s)%Z with true; [reflexivity|].
  symmetry. apply Z.leb_le. apply at_index_bound in Hw. lia.
Qed.

Lemma lookahead_update_final (pars : TWaypointsNavigatorParams) (cur : TPose2D)
    (is_reachable : TPoint2D -> bool) (s : TWaypointStatusSequence) :
  final_goal_reached s = true \/ (waypoint_index_current_goal s < 0)%Z ->
  lookahead_update pars cur is_reachable s = s.
Proof.
  intros H. unfold lookahead_update. destruct H as [-> | H]; [reflexivity|].
  replace (0 <=? waypoint_index_current_goal s)%Z with false
    by (symmetry; apply Z.leb_gt; lia).
  rewrite andb_false_r. reflexivity.
Qed.

Lemma lookahead_update_scan (pars : TWaypointsNavigatorParams) (cur : TPose2D)
    (is_reachable : TPoint2D -> bool) (s : TWaypointStatusSequence)
    (wpts : list TWaypointStatus) (most : Z) :
  final_goal_reached s = false ->
  (0 <= waypoint_index_current_goal s)%Z ->
  skip_scan pars cur is_reachable
    (Z.to_nat (size (waypoints s) - waypoint_index_current_goal s))
    (waypoint_index_current_goal s) (waypoints s) (waypoint_index_current_goal s)
  = (wpts, most) ->
  (0 <= most)%Z ->
  lookahead_update pars cur is_reachable s
  = set_waypoints
      (mark_reached (Z.to_nat (most - waypoint_index_current_goal s))
         (waypoint_index_current_goal s) wpts)
      (set_index most s).
Proof.
  intros Hf Hi Hs Hm. unfold lookahead_update. rewrite Hf, Hs.
  replace (0 <=? waypoint_index_current_goal s)%Z with true
    by (symmetry; apply Z.leb_le; lia).
  replace (0 <=? most)%Z with true by (symmetry; apply Z.leb_le; lia).
  reflexivity.
Qed.

Lemma start_update_started (s : TWaypointStatusSequence) :
  (0 <= waypoint_index_current_goal s)%Z -> start_update s = s.
Proof.
  intros H. unfold start_update.
  replace (waypoint_index_current_goal s <? 0)%Z with false
    by (symmetry; apply Z.ltb_ge; lia).
  reflexivity.
Qed.

Lemma navigationStep_waypoints_run (i : WaypointStepInput) (w : CWaypointsNavigator)
    (b1 : CAbstractNavigator) (t1 : list RobotCall) :
  waypoints (m_waypoint_nav_status w) <> [] ->
  final_goal_reached (m_waypoint_nav_status w) = false ->
  status_ok (m_waypoint_nav_status w) ->
  updateCurrentPoseAndSpeeds (wp_pose i) (base w) = (b1, t1, Returned tt) ->
  let st := m_waypoint_nav_status w in
  let st' :=
    waypoints_status_step (params_waypoints_navigator w) (pose (m_curPoseVel b1))
      (m_lastNavTargetReached b1) (wp_is_reachable i) st in
  let changed :=
    negb (waypoint_index_current_goal st =? waypoint_index_current_goal st')%Z in
  let cmd :=
    match at_index (waypoints st') (waypoint_index_current_goal st') with
    | Some wpt =>
        navigate
          (nav_cmd_of wpt
             (waypoint_index_current_goal st' + 1 =? size (waypoints st'))%Z)
          {| nav_pose := wp_pose i; nav_now := wp_navigate_now i |} b1
    | None => (b1, [], Returned tt)
    end in
  exists ev,
    navigationStep_waypoints i w
    = ({| base := if changed then state_of cmd else b1;
          m_waypoint_nav_status := st';
          params_waypoints_navigator := params_waypoints_navigator w |},
       t1 ++ ev
       ++ (if changed
           then sendNewWaypointTargetEvent (waypoint_index_current_goal st')
                :: trace_of cmd
           else []),
       Returned tt) /\
    calls_within is_reached_event ev.
Proof.
  intros Hne Hfin Hok Hupd. cbv zeta.
  remember (waypoints_status_step (params_waypoints_navigator w)
              (pose (m_curPoseVel b1)) (m_lastNavTargetReached b1)
              (wp_is_reachable i) (m_waypoint_nav_status w)) as st' eqn:Hst'.
  destruct w as [b [wps ts fin idx lrp] pars]. cbn in Hne, Hfin, Hupd, Hok, Hst' |- *.
  subst fin. destruct Hok as (Hi & _). cbn in Hi.
  destruct wps as [|w0 wps']; [contradiction|].
  set (wps := w0 :: wps') in *.
  assert (Hw0 : at_index wps 0 = Some w0) by reflexivity.
  assert (Hsz : (0 < size wps)%Z) by (unfold size, wps; cbn; lia).
  unfold waypoints_status_step in Hst'.
  set (s0 := set_last_robot_pose (pose (m_curPoseVel b1))
               {| waypoints := wps; timestamp_nav_started := ts;
                  final_goal_reached := false;
                  waypoint_index_current_goal := idx;
                  last_robot_pose := lrp |}) in *.
  set (seg := robot_move_seg (pose (m_curPoseVel b1))
                {| waypoints := wps; timestamp_nav_started := ts;
                   final_goal_reached := false;
                   waypoint_index_current_goal := idx;
                   last_robot_pose := lrp |}) in *.
  destruct (Z_lt_le_dec idx 0) as [Hneg | Hpos].
  { (* not started *)
    assert (idx = -1)%Z by lia. subst idx.
    rewrite arrival_update_not_started, lookahead_update_final in Hst'
      by (cbn; first [lia | right; lia]).
    subst st'. subst s0 seg.
    unfold navigationStep_waypoints, on_base, lift, modify_status, nav_cmd_of.
    unfold_run. wp_simpl. rewrite Hupd. wp_step. rewrite !Hw0. wp_step.
    rewrite navigate_absolute_returns by reflexivity. wp_step.
    exists []. split; reflexivity. }
  destruct (at_index_size wps idx ltac:(lia)) as (wpt & Hwpt).
  destruct (Qltb (segment_distance seg (wp_target (waypoint wpt)))
              (allowed_distance (waypoint wpt)) || m_lastNavTargetReached b1)
    eqn:Ear.
  - (* the goal is reached *)
    rewrite (arrival_update_arrived seg _ s0 wpt Hwpt Ear) in Hst'.
    cbv zeta in Hst'. cbn [s0 waypoints waypoint_index_current_goal
                             set_last_robot_pose] in Hst'.
    destruct (Z_lt_le_dec idx (size wps - 1)) as [Hlt | Hge].
    + replace (idx <? size wps - 1)%Z with true in Hst'
        by (symmetry; apply Z.ltb_lt; lia).
      destruct (skip_scan pars (pose (m_curPoseVel b1)) (wp_is_reachable i)
                  (Z.to_nat (size (update_index wps idx (set_reached true))
                             - (idx + 1)))
                  (idx + 1) (update_index wps idx (set_reached true)) (idx + 1))
        as [wpts most] eqn:Es.
      pose proof (skip_scan_most pars (pose (m_curPoseVel b1)) (wp_is_reachable i)
                    (Z.to_nat (size (update_index wps idx (set_reached true))
                               - (idx + 1)))
                    (idx + 1) (update_index wps idx (set_reached true)) (idx + 1))
        as Hm.
      pose proof (skip_scan_progress pars (pose (m_curPoseVel b1))
                    (wp_is_reachable i)
                    (Z.to_nat (size (update_index wps idx (set_reached true))
                               - (idx + 1)))
                    (idx + 1) (update_index wps idx (set_reached true)) (idx + 1))
        as Hp.
      rewrite Es in Hm, Hp. cbv zeta in Hm. cbn [fst snd] in Hm, Hp.
      apply size_Forall2 in Hp. rewrite size_update_index in Hp, Hm.
      assert (Hmost : (idx + 1 <= most < size wps)%Z) by lia.
      rewrite (lookahead_update_scan _ _ _
                 (set_index (idx + 1)
                    (set_waypoints (update_index wps idx (set_reached true)) s0))
                 wpts most eq_refl ltac:(cbn; lia) Es ltac:(lia)) in Hst'.
      rewrite start_update_started in Hst' by (cbn; lia).
      cbn [s0 waypoints waypoint_index_current_goal set_last_robot_pose
           set_index set_waypoints] in Hst'.
      pose proof (size_Forall2 _ _ _
                    (mark_reached_progress (Z.to_nat (most - (idx + 1))) (idx + 1)
                       wpts)) as Hsize.
      destruct (at_index_size
                  (mark_reached (Z.to_nat (most - (idx + 1))) (idx + 1) wpts) most
                  ltac:(lia)) as (wg & Hwg).
      subst st'. subst s0 seg.
      unfold navigationStep_waypoints, on_base, lift, modify_status, nav_cmd_of,
        robot_move_seg in *.
      unfold_run. wp_simpl. rewrite Hupd. wp_step. rewrite !Hwpt. wp_simpl.
      cbn [set_last_robot_pose last_robot_pose] in Ear. rewrite Ear. wp_step.
      rewrite Es. wp_step. rewrite mark_skipped_run. wp_step.
      rewrite !Hwg. wp_step.
      rewrite navigate_absolute_returns by reflexivity. wp_step.
      exists (sendWaypointReachedEvent idx
              :: reached_events (Z.to_nat (most - (idx + 1))) (idx + 1)).
      split; [reflexivity|].
      unfold calls_within. cbn. apply reached_events_within.
    + replace (idx <? size wps - 1)%Z with false in Hst'
        by (symmetry; apply Z.ltb_ge; lia).
      rewrite lookahead_update_final in Hst' by (left; reflexivity).
      rewrite start_update_started in Hst' by (cbn; lia).
      subst st'. subst s0 seg.
      unfold navigationStep_waypoints, on_base, lift, modify_status, nav_cmd_of,
        robot_move_seg in *.
      unfold_run. wp_simpl. rewrite Hupd. wp_step. rewrite !Hwpt. wp_simpl.
      cbn [set_last_robot_pose last_robot_pose] in Ear. rewrite Ear. wp_step.
      exists [sendWaypointReachedEvent idx]. split; reflexivity.
  - (* the goal is not reached *)
    rewrite (arrival_update_not_arrived seg _ s0 wpt Hwpt Ear) in Hst'.
    destruct (skip_scan pars (pose (m_curPoseVel b1)) (wp_is_reachable i)
                (Z.to_nat (size wps - idx)) idx wps idx) as [wpts most] eqn:Es.
    pose proof (skip_scan_most pars (pose (m_curPoseVel b1)) (wp_is_reachable i)
                  (Z.to_nat (size wps - idx)) idx wps idx) as Hm.
    pose proof (skip_scan_progress pars (pose (m_curPoseVel b1)) (wp_is_reachable i)
                  (Z.to_nat (size wps - idx)) idx wps idx) as Hp.
    rewrite Es in Hm, Hp. cbv zeta in Hm. cbn [fst snd] in Hm, Hp.
    apply size_Forall2 in Hp.
    assert (Hmost : (idx <= most < size wps)%Z) by lia.
    rewrite (lookahead_update_scan _ _ _ s0 wpts most eq_refl
               ltac:(cbn; lia) Es ltac:(lia)) in Hst'.
    rewrite start_update_started in Hst' by (cbn; lia).
    cbn [s0 waypoints waypoint_index_current_goal set_last_robot_pose
         set_index set_waypoints] in Hst'.
    pose proof (size_Forall2 _ _ _
                  (mark_reached_progress (Z.to_nat (most - idx)) idx wpts))
      as Hsize.
    destruct (at_index_size
                (mark_reached (Z.to_nat (most - idx)) idx wpts) most
                ltac:(lia)) as (wg & Hwg).
    subst st'. subst s0 seg.
    unfold navigationStep_waypoints, on_base, lift, modify_status, nav_cmd_of,
      robot_move_seg in *.
    unfold_run. wp_simpl. rewrite Hupd. wp_step. rewrite !Hwpt. wp_simpl.
    cbn [set_last_robot_pose last_robot_pose] in Ear. rewrite Ear. wp_step.
    rewrite Es. wp_step. rewrite mark_skipped_run. wp_step.
    rewrite !Hwg.
    destruct (Z.eq_dec idx most) as [<- | Hchg]; wp_step.
    + exists (reached_events (Z.to_nat (idx - idx)) idx).
      split; [rewrite app_nil_r; reflexivity | apply reached_events_within].
    + rewrite navigate_absolute_returns by reflexivity. wp_step.
      exists (reached_events (Z.to_nat (most - idx)) idx).
      split; [reflexivity | apply reached_events_within].
Qed.

(** The three ways the waypoint part of a step can go. *)
Lemma navigationStep_waypoints_cases (i : WaypointStepInput) (w : CWaypointsNavigator) :
  status_ok (m_waypoint_nav_status w) ->
  let st := m_waypoint_nav_status w in
  (* nothing is pending *)
  ((waypoints st = [] \/ final_goal_reached st = true) /\
   navigationStep_waypoints i w = (w, [], Returned tt))
  \/
  (* the robot fails to report its pose *)
  (waypoints st <> [] /\ final_goal_reached st = false /\
   exists b1 t1,
     updateCurrentPoseAndSpeeds (wp_pose i) (base w) = (b1, t1, Thrown) /\
     navigationStep_waypoints i w = (set_base b1 w, t1, Thrown))
  \/
  (* the algorithm runs *)
  (waypoints st <> [] /\ final_goal_reached st = false /\
   exists b1 t1 ev,
     updateCurrentPoseAndSpeeds (wp_pose i) (base w) = (b1, t1, Returned tt) /\
     calls_within is_reached_event ev /\
     let st' :=
       waypoints_status_step (params_waypoints_navigator w) (pose (m_curPoseVel b1))
         (m_lastNavTargetReached b1) (wp_is_reachable i) st in
     let changed :=
       negb (waypoint_index_current_goal st =? waypoint_index_current_goal st')%Z in
     let cmd :=
       match at_index (waypoints st') (waypoint_index_current_goal st') with
       | Some wpt =>
           navigate
             (nav_cmd_of wpt
                (waypoint_index_current_goal st' + 1 =? size (waypoints st'))%Z)
             {| nav_pose := wp_pose i; nav_now := wp_navigate_now i |} b1
       | None => (b1, [], Returned tt)
       end in
     navigationStep_waypoints i w
     = ({| base := if changed then state_of cmd else b1;
           m_waypoint_nav_status := st';
           params_waypoints_navigator := params_waypoints_navigator w |},
        t1 ++ ev
        ++ (if changed
            then sendNewWaypointTargetEvent (waypoint_index_current_goal st')
                 :: trace_of cmd
            else []),
        Returned tt)).
Proof.
  intros Hok. cbv zeta.
  destruct (waypoints (m_waypoint_nav_status w)) as [|w0 wps'] eqn:Ew.
  { left. split; [left; reflexivity|].
    unfold navigationStep_waypoints. unfold_run. rewrite Ew. reflexivity. }
  destruct (final_goal_reached (m_waypoint_nav_status w)) eqn:Ef.
  { left. split; [right; reflexivity|].
    unfold navigationStep_waypoints. unfold_run. rewrite Ew, Ef. reflexivity. }
  right.
  pose proof (updateCurrentPoseAndSpeeds_cases (wp_pose i) (base w)) as Hc.
  destruct (updateCurrentPoseAndSpeeds (wp_pose i) (base w)) as [[b1 t1] o1] eqn:Eu.
  cbn in Hc. destruct Hc as [(-> & _) | (-> & _)].
  - right. split; [discriminate|]. split; [reflexivity|].
    assert (Hne : waypoints (m_waypoint_nav_status w) <> [])
      by (rewrite Ew; discriminate).
    destruct (navigationStep_waypoints_run i w b1 t1 Hne Ef Hok Eu) as (ev & Hrun & Hev).
    exists b1, t1, ev. split; [reflexivity|]. split; [exact Hev|].
    exact Hrun.
  - left. split; [discriminate|]. split; [reflexivity|].
    exists b1, t1. split; [reflexivity|].
    unfold navigationStep_waypoints, on_base, lift. unfold_run.
    rewrite Ew, Ef. cbn [orb]. cbv beta. rewrite Eu. reflexivity.
Qed.

End WaypointPart.

(** ** Requests *)

Section Requests.
Context {ML : MathLib}.

Lemma navigateWaypoints_cases (nav_request : list TWaypoint) (now : TTimeStamp)
    (w : CWaypointsNavigator) :
  let r := navigateWaypoints nav_request now w in
  let st := m_waypoint_nav_status (state_of r) in
  base (state_of r) = base w /\
  params_waypoints_navigator (state_of r) = params_waypoints_navigator w /\
  trace_of r = [] /\
  not_started st /\
  timestamp_nav_started st = now /\
  ((nav_request = [] /\ outcome_of r = Thrown /\ waypoints st = [])
   \/
   (Exists (fun wp => isValid wp = false) nav_request /\ outcome_of r = Thrown /\
    length (waypoints st) = length nav_request)
   \/
   (nav_request <> [] /\ Forall (fun wp => isValid wp = true) nav_request /\
    outcome_of r = Returned tt /\
    waypoints st = map TWaypointStatus_of nav_request)).
Proof.
  unfold navigateWaypoints, modify_status, not_started. unfold_run. cbn.
  destruct nav_request as [|wp0 rest] eqn:Ereq.
  { cbn. repeat split. left. repeat split. }
  rewrite <- Ereq.
  assert (Hsz : (size nav_request <=? 0)%Z = false)
    by (subst; apply Z.leb_gt; unfold size; cbn; lia).
  rewrite Hsz.
  destruct (list_find (fun w1 => isValid w1 = false) nav_request) as [[k wk]|] eqn:Ef;
    cbn.
  - repeat split. right. left.
    apply list_find_Some in Ef as (Hk & Hwk & _).
    split; [|split; [reflexivity|]].
    + apply Exists_exists. exists wk. split; [|exact Hwk].
      apply (list_elem_of_lookup_2 _ _ _ Hk).
    + rewrite length_app, length_map, length_take, length_replicate.
      apply lookup_lt_Some in Hk. lia.
  - repeat split. right. right.
    apply list_find_None in Ef.
    split; [subst; discriminate|]. split; [|split; reflexivity].
    eapply Forall_impl; [exact Ef|]. intros wp Hwp. cbn in Hwp.
    destruct (isValid wp); [reflexivity | contradiction].
Qed.

(** X10: [navigateWaypoints] accepts a request exactly when it is not
    empty and all its waypoints are valid; the sequence then holds the
    requested waypoints in order, none reached, with zero counters, and
    no goal is selected yet. The base navigator is not touched and the
    robot is not called, whether the request is accepted or not. *)
Theorem navigateWaypoints_accepts_valid_requests (nav_request : list TWaypoint)
    (now : TTimeStamp) (w : CWaypointsNavigator) :
  let r := navigateWaypoints nav_request now w in
  let st := m_waypoint_nav_status (state_of r) in
  (outcome_of r = Returned tt <->
   nav_request <> [] /\ Forall (fun wp => isValid wp = true) nav_request) /\
  (outcome_of r = Returned tt ->
   map waypoint (waypoints st) = nav_request /\
   Forall (fun s => reached s = false /\ counter_seen_reachable s = 0%Z)
     (waypoints st) /\
   waypoint_index_current_goal st = (-1)%Z /\
   final_goal_reached st = false) /\
  outcome_of r <> Undefined /\
  base (state_of r) = base w /\
  trace_of r = [].
Proof.
  pose proof (navigateWaypoints_cases nav_request now w) as H. cbv zeta in *.
  destruct H as (Hb & _ & Ht & (Hi & Hf) & _ & Hc).
  destruct Hc as [(Hr & Ho & Hw) | [(Hr & Ho & Hw) | (Hr & Hv & Ho & Hw)]];
    rewrite Ho.
  - split; [split; [discriminate | intros [H _]; contradiction]|].
    split; [discriminate|]. split; [discriminate|]. auto.
  - split.
    { split; [discriminate|]. intros [_ H]. exfalso.
      apply Exists_exists in Hr as (wp & Hin & Hwp).
      rewrite Forall_forall in H. rewrite (H wp Hin) in Hwp. discriminate. }
    split; [discriminate|]. split; [discriminate|]. auto.
  - split; [split; auto|]. split; [|split; [discriminate | auto]].
    intros _. rewrite Hw. split; [|split; [|auto]].
    + rewrite map_map. cbn. apply map_id.
    + apply Forall_map. apply Forall_forall. intros; split; reflexivity.
Qed.

End Requests.

(** ** Invariants of the waypoint status *)

Section WaypointInvariants.
Context {ML : MathLib}.

(** The base step on the derived object. *)
Lemma on_base_run {A} (m : Run CAbstractNavigator A) (w : CWaypointsNavigator) :
  on_base m w
  = (set_base (state_of (m (base w))) w, trace_of (m (base w)),
     outcome_of (m (base w))).
Proof.
  unfold on_base, lift. destruct (m (base w)) as [[s t] o]. reflexivity.
Qed.

Lemma CWaypointsNavigator_navigationStep_run (i : WaypointStepInput)
    (w : CWaypointsNavigator) :
  let r1 := navigationStep_waypoints i w in
  let r2 := navigationStep (wp_base_step i) (base (state_of r1)) in
  CWaypointsNavigator_navigationStep i w
  = match outcome_of r1 with
    | Returned _ =>
        (set_base (state_of r2) (state_of r1), trace_of r1 ++ trace_of r2,
         outcome_of r2)
    | Thrown => (state_of r1, trace_of r1, Thrown)
    | Undefined => (state_of r1, trace_of r1, Undefined)
    end.
Proof.
  cbv zeta. unfold CWaypointsNavigator_navigationStep. unfold_run.
  destruct (navigationStep_waypoints i w) as [[s1 t1] o1]. cbn.
  destruct o1; [|reflexivity..].
  rewrite on_base_run. reflexivity.
Qed.

Lemma navigationStep_waypoints_status (i : WaypointStepInput)
    (w : CWaypointsNavigator) :
  status_ok (m_waypoint_nav_status w) ->
  let r := navigationStep_waypoints i w in
  status_ok (m_waypoint_nav_status (state_of r)) /\
  status_progress (m_waypoint_nav_status w) (m_waypoint_nav_status (state_of r)) /\
  params_waypoints_navigator (state_of r) = params_waypoints_navigator w /\
  outcome_of r <> Undefined.
Proof.
  intros Hok. cbv zeta.
  destruct (navigationStep_waypoints_cases i w Hok)
    as [(_ & ->) | [(_ & _ & b1 & t1 & _ & ->)
                   | (Hne & Hf & b1 & t1 & ev & _ & _ & ->)]]; cbn.
  - split; [exact Hok|]. split; [apply status_progress_refl|].
    split; [reflexivity | discriminate].
  - split; [exact Hok|]. split; [apply status_progress_refl|].
    split; [reflexivity | discriminate].
  - destruct (waypoints_status_step_ok (params_waypoints_navigator w)
                (pose (m_curPoseVel b1)) (m_lastNavTargetReached b1)
                (wp_is_reachable i) _ Hne Hok) as (H1 & H2 & _).
    split; [exact H1|]. split; [exact H2|]. split; [reflexivity | discriminate].
Qed.

Lemma CWaypointsNavigator_navigationStep_status (i : WaypointStepInput)
    (w : CWaypointsNavigator) :
  status_ok (m_waypoint_nav_status w) ->
  let r := CWaypointsNavigator_navigationStep i w in
  status_ok (m_waypoint_nav_status (state_of r)) /\
  status_progress (m_waypoint_nav_status w) (m_waypoint_nav_status (state_of r)).
Proof.
  intros Hok. cbv zeta. rewrite CWaypointsNavigator_navigationStep_run.
  destruct (navigationStep_waypoints_status i w Hok) as (H1 & H2 & _).
  destruct (outcome_of (navigationStep_waypoints i w)); cbn; auto.
Qed.

Lemma run_steps_status (inputs : list WaypointStepInput) (w : CWaypointsNavigator) :
  status_ok (m_waypoint_nav_status w) ->
  let r := run_steps inputs w in
  status_ok (m_waypoint_nav_status (state_of r)) /\
  status_progress (m_waypoint_nav_status w) (m_waypoint_nav_status (state_of r)).
Proof.
  revert w. induction inputs as [|i inputs IH]; intros w Hok; cbv zeta.
  - cbn. split; [exact Hok | apply status_progress_refl].
  - cbn [run_steps].
    destruct (CWaypointsNavigator_navigationStep_status i w Hok) as [H1 H2].
    destruct (CWaypointsNavigator_navigationStep i w) as [[s1 t1] o1].
    cbn in H1, H2. destruct (IH s1 H1) as [H3 H4].
    destruct (run_steps inputs s1) as [[s2 t2] o2]. cbn in H3, H4.
    destruct o1; cbn; (split; [assumption|]);
      try exact (status_progress_trans _ _ _ H2 H4); exact H2.
Qed.

Lemma not_started_ok (st : TWaypointStatusSequence) :
  not_started st -> status_ok st.
Proof.
  intros [Hi Hf]. unfold status_ok. rewrite Hi, Hf.
  split; [unfold size; lia|]. split; [intros; lia | discriminate].
Qed.

(** X11: After any request and any number of steps the waypoint status
    is consistent: the goal index is -1 or designates a waypoint of the
    sequence; every waypoint before the goal is marked as reached; and
    the final goal is flagged only when the goal is the last waypoint
    and this one is marked as reached. *)
Theorem waypoint_status_is_consistent (nav_request : list TWaypoint)
    (now : TTimeStamp) (w : CWaypointsNavigator)
    (inputs : list WaypointStepInput) :
  status_ok
    (m_waypoint_nav_status
       (state_of (run_steps inputs
                    (state_of (navigateWaypoints nav_request now w))))).
Proof.
  apply run_steps_status, not_started_ok.
  pose proof (navigateWaypoints_cases nav_request now w) as H. cbv zeta in H.
  apply H.
Qed.

(** X12: Steps only advance a waypoint sequence: whatever the robot and
    the reachability test answer, the waypoints keep their data (target,
    heading, allowed distance, skip permission) and their number, no
    reached flag is cleared, the goal index does not decrease, and the
    final-goal flag is not cleared. *)
Theorem waypoint_steps_only_advance (inputs : list WaypointStepInput)
    (w : CWaypointsNavigator) :
  status_ok (m_waypoint_nav_status w) ->
  let st := m_waypoint_nav_status w in
  let st' := m_waypoint_nav_status (state_of (run_steps inputs w)) in
  map waypoint (waypoints st') = map waypoint (waypoints st) /\
  (forall k a b, at_index (waypoints st) k = Some a ->
     at_index (waypoints st') k = Some b -> reached a = true -> reached b = true) /\
  (waypoint_index_current_goal st <= waypoint_index_current_goal st')%Z /\
  (final_goal_reached st = true -> final_goal_reached st' = true).
Proof.
  intros Hok. cbv zeta.
  destruct (run_steps_status inputs w Hok) as (_ & HF & Hi & Hf).
  split; [|split; [|split; assumption]].
  - induction HF as [|a b l k [Hab _] _ IH]; [reflexivity|].
    cbn. rewrite Hab, IH. reflexivity.
  - intros k a b Ha Hb Hr.
    destruct (at_index_Forall2 _ _ _ _ _ HF Ha) as (b' & Hb' & _ & Hr').
    rewrite Hb in Hb'. injection Hb' as <-. auto.
Qed.

End WaypointInvariants.

(** The waypoint-skip scenario, after four ticks. *)
Lemma waypoint_steps_only_advance_witness :
  let st := m_waypoint_nav_status skip_scenario in
  let st' :=
    m_waypoint_nav_status
      (state_of (run_steps (ML := euclid)
                   [tick_at_origin 1; tick_at_origin 2; tick_at_origin 3;
                    tick_at_origin 4] skip_scenario)) in
  map waypoint (waypoints st') = map waypoint (waypoints st) /\
  (waypoint_index_current_goal st <= waypoint_index_current_goal st')%Z.
Proof.
  destruct (waypoint_steps_only_advance (ML := euclid)
              [tick_at_origin 1; tick_at_origin 2; tick_at_origin 3;
               tick_at_origin 4] skip_scenario) as (H1 & _ & H3 & _).
  - apply not_started_ok. split; reflexivity.
  - split; [exact H1 | exact H3].
Defined.

(** ** The goal waypoint and the single-target navigator *)

Section Heading.
Context {ML : MathLib}.

Lemma nav_cmd_of_waypoint (a b : TWaypointStatus) (f : bool) :
  waypoint a = waypoint b -> nav_cmd_of a f = nav_cmd_of b f.
Proof. intros H. unfold nav_cmd_of. rewrite H. reflexivity. Qed.

Lemma navigationStep_waypoints_heading (i : WaypointStepInput)
    (w : CWaypointsNavigator) :
  status_ok (m_waypoint_nav_status w) ->
  heading_for_goal w ->
  heading_for_goal (state_of (navigationStep_waypoints i w)).
Proof.
  intros Hok Hh.
  destruct (navigationStep_waypoints_cases i w Hok)
    as [(_ & ->) | [(_ & _ & b1 & t1 & Hu & ->)
                   | (Hne & Hf & b1 & t1 & ev & Hu & _ & ->)]]; cbn.
  - exact Hh.
  - pose proof (updateCurrentPoseAndSpeeds_cases (wp_pose i) (base w)) as Hc.
    rewrite Hu in Hc. cbn in Hc.
    destruct Hc as [(Ho & _) | (_ & _ & Hs & _)]; [discriminate|].
    destruct Hs as (_ & _ & _ & Hp & _). cbn in Hp.
    unfold heading_for_goal in *. cbn. rewrite Hp. exact Hh.
  - pose proof (updateCurrentPoseAndSpeeds_cases (wp_pose i) (base w)) as Hc.
    rewrite Hu in Hc. cbn in Hc.
    destruct Hc as [(_ & Hs & _) | (Ho & _)]; [|discriminate].
    destruct Hs as (_ & _ & _ & Hp & _).
    destruct (waypoints_status_step_ok (params_waypoints_navigator w)
                (pose (m_curPoseVel b1)) (m_lastNavTargetReached b1)
                (wp_is_reachable i) _ Hne Hok) as (H1 & H2 & H3).
    set (st' := waypoints_status_step (params_waypoints_navigator w)
                  (pose (m_curPoseVel b1)) (m_lastNavTargetReached b1)
                  (wp_is_reachable i) (m_waypoint_nav_status w)) in *.
    destruct H1 as (Hi' & _).
    destruct (at_index_size (waypoints st') (waypoint_index_current_goal st')
                ltac:(lia)) as (wg & Hwg).
    unfold heading_for_goal. cbn. intros _. exists wg. split; [exact Hwg|].
    rewrite Hwg.
    destruct (waypoint_index_current_goal (m_waypoint_nav_status w)
              =? waypoint_index_current_goal st')%Z eqn:Echg; cbn.
    + apply Z.eqb_eq in Echg. rewrite Hp.
      destruct (Hh ltac:(lia)) as (wo & Hwo & ->).
      destruct H2 as (HF & _).
      destruct (at_index_Forall2 _ _ _ _ _ HF Hwo) as (wg' & Hwg' & Hwp & _).
      rewrite Echg, Hwg in Hwg'. injection Hwg' as <-.
      rewrite (size_Forall2 _ _ _ HF), Echg.
      f_equal. apply nav_cmd_of_waypoint. symmetry. exact Hwp.
    + rewrite navigate_absolute_returns by reflexivity. reflexivity.
Qed.

Lemma CWaypointsNavigator_navigationStep_heading (i : WaypointStepInput)
    (w : CWaypointsNavigator) :
  status_ok (m_waypoint_nav_status w) ->
  heading_for_goal w ->
  heading_for_goal (state_of (CWaypointsNavigator_navigationStep i w)).
Proof.
  intros Hok Hh. rewrite CWaypointsNavigator_navigationStep_run.
  pose proof (navigationStep_waypoints_heading i w Hok Hh) as H1.
  destruct (outcome_of (navigationStep_waypoints i w)); cbn; try exact H1.
  pose proof (navigationStep_summary (wp_base_step i)
                (base (state_of (navigationStep_waypoints i w)))) as (Hp & _).
  unfold heading_for_goal in *. cbn. rewrite Hp. exact H1.
Qed.

Lemma run_steps_heading (inputs : list WaypointStepInput) (w : CWaypointsNavigator) :
  status_ok (m_waypoint_nav_status w) ->
  heading_for_goal w ->
  heading_for_goal (state_of (run_steps inputs w)).
Proof.
  revert w. induction inputs as [|i inputs IH]; intros w1 Hok Hh; [exact Hh|].
  cbn [run_steps].
  pose proof (CWaypointsNavigator_navigationStep_heading i w1 Hok Hh) as H1.
  destruct (CWaypointsNavigator_navigationStep_status i w1 Hok) as [H2 _].
  destruct (CWaypointsNavigator_navigationStep i w1) as [[s1 t1] o1].
  cbn in H1, H2. specialize (IH s1 H2 H1).
  destruct (run_steps inputs s1) as [[s2 t2] o2]. cbn in IH.
  destruct o1; cbn; assumption.
Qed.

Lemma not_started_heading (w : CWaypointsNavigator) :
  not_started (m_waypoint_nav_status w) -> heading_for_goal w.
Proof.
  intros [Hi _]. unfold heading_for_goal. cbv zeta. rewrite Hi.
  intros H. exfalso. lia.
Qed.

(** X13: The single-target navigator is always aimed at the goal
    waypoint: after any request and any number of steps, if a goal is
    selected then the stored target of the base navigator is the one
    made from this waypoint (its position, its heading or 0, its allowed
    distance, absolute), flagged as intermediary exactly when the goal
    is not the last waypoint. *)
Theorem navigator_heads_for_goal_waypoint (nav_request : list TWaypoint)
    (now : TTimeStamp) (w : CWaypointsNavigator)
    (inputs : list WaypointStepInput) :
  heading_for_goal
    (state_of (run_steps inputs (state_of (navigateWaypoints nav_request now w)))).
Proof.
  pose proof (navigateWaypoints_cases nav_request now w) as H. cbv zeta in H.
  destruct H as (_ & _ & _ & Hns & _).
  apply run_steps_heading; [apply not_started_ok, Hns | apply not_started_heading, Hns].
Qed.

(** The step of the base class sends the navigation-end event only for
    a target that is not an intermediary waypoint. *)
Lemma end_event_needs_final_target (i : StepInput) (nav : CAbstractNavigator) :
  invoked sendNavigationEndEvent (trace_of (navigationStep i nav)) = true ->
  exists p, m_navigationParams nav = Some p /\
            targetIsIntermediaryWaypoint p = false.
Proof.
  intros H.
  pose proof (navigationStep_summary i nav) as (_ & _ & _ & _ & He).
  destruct (m_navigationParams nav) as [p|].
  - exists p. split; [reflexivity|].
    destruct (targetIsIntermediaryWaypoint p) eqn:Ei; [|reflexivity].
    rewrite He in H; [discriminate|]. intros q Hq. injection Hq as <-. exact Ei.
  - rewrite He in H; [discriminate|]. intros q Hq. discriminate.
Qed.

(** X14: The navigation-end event is sent only while the goal is the
    last waypoint: after any request and any number of steps, a step
    that sends [sendNavigationEndEvent] leaves a sequence (if there is
    one) whose goal index designates its last waypoint. *)
Theorem end_event_only_for_last_waypoint (nav_request : list TWaypoint)
    (now : TTimeStamp) (w : CWaypointsNavigator)
    (inputs : list WaypointStepInput) (i : WaypointStepInput) :
  let w1 := state_of (run_steps inputs
                        (state_of (navigateWaypoints nav_request now w))) in
  let r := CWaypointsNavigator_navigationStep i w1 in
  let st := m_waypoint_nav_status (state_of r) in
  waypoints st <> [] ->
  invoked sendNavigationEndEvent (trace_of r) = true ->
  waypoint_index_current_goal st = (size (waypoints st) - 1)%Z.
Proof.
  cbv zeta.
  pose proof (navigateWaypoints_cases nav_request now w) as H. cbv zeta in H.
  destruct H as (_ & _ & _ & Hns & _).
  set (w0 := state_of (navigateWaypoints nav_request now w)) in *.
  destruct (run_steps_status inputs w0 (not_started_ok _ Hns)) as [Hok _].
  pose proof (run_steps_heading inputs w0 (not_started_ok _ Hns)
                (not_started_heading _ Hns)) as Hh.
  set (w1 := state_of (run_steps inputs w0)) in *.
  pose proof (navigationStep_waypoints_heading i w1 Hok Hh) as Hh1.
  destruct (navigationStep_waypoints_status i w1 Hok) as (Hok1 & _).
  rewrite CWaypointsNavigator_navigationStep_run.
  destruct (navigationStep_waypoints_cases i w1 Hok)
    as [(Hin & Hrun) | [(_ & _ & b1 & t1 & Hu & Hrun)
                       | (Hne & Hf & b1 & t1 & ev & Hu & Hev & Hrun)]];
    rewrite Hrun in *; cbn [state_of trace_of outcome_of fst snd] in *.
  - (* nothing is pending *)
    cbn. intros Hne _. destruct Hin as [Hin | Hin]; [contradiction|].
    destruct Hok as (_ & _ & Hfin). apply Hfin, Hin.
  - (* the waypoint part throws *)
    intros _ Ht. exfalso.
    pose proof (updateCurrentPoseAndSpeeds_cases (wp_pose i) (base w1)) as Hc.
    rewrite Hu in Hc. cbn in Hc.
    destruct Hc as [(Ho & _) | (_ & _ & _ & ->)]; [discriminate|].
    discriminate.
  - (* the algorithm runs *)
    cbn [m_waypoint_nav_status base]. intros _ Ht.
    pose proof (updateCurrentPoseAndSpeeds_cases (wp_pose i) (base w1)) as Hc.
    rewrite Hu in Hc. cbn in Hc.
    destruct Hc as [(_ & _ & Ht1) | (Ho & _)]; [|discriminate].
    destruct (waypoints_status_step_ok (params_waypoints_navigator w1)
                (pose (m_curPoseVel b1)) (m_lastNavTargetReached b1)
                (wp_is_reachable i) _ Hne (proj1 (conj Hok I))) as (_ & _ & Hge).
    set (st' := waypoints_status_step (params_waypoints_navigator w1)
                  (pose (m_curPoseVel b1)) (m_lastNavTargetReached b1)
                  (wp_is_reachable i) (m_waypoint_nav_status w1)) in *.
    unfold heading_for_goal in Hh1. cbn [m_waypoint_nav_status base] in Hh1.
    destruct (Hh1 Hge) as (wg & Hwg & Hp).
    rewrite !invoked_app in Ht.
    rewrite (calls_within_not_invoked _ sendNavigationEndEvent _ Ht1 eq_refl) in Ht.
    rewrite (calls_within_not_invoked _ sendNavigationEndEvent _ Hev eq_refl) in Ht.
    cbn [orb] in Ht.
    assert (Hcmd : invoked sendNavigationEndEvent
                     (if negb (waypoint_index_current_goal (m_waypoint_nav_status w1)
                               =? waypoint_index_current_goal st')%Z
                      then sendNewWaypointTargetEvent (waypoint_index_current_goal st')
                           :: trace_of
                                match at_index (waypoints st')
                                        (waypoint_index_current_goal st') with
                                | Some wpt =>
                                    navigate
                                      (nav_cmd_of wpt
                                         (waypoint_index_current_goal st' + 1
                                          =? size (waypoints st'))%Z)
                                      {| nav_pose := wp_pose i;
                                         nav_now := wp_navigate_now i |} b1
                                | None => (b1, [], Returned tt)
                                end
                      else []) = false).
    { destruct (negb _); [|reflexivity].
      rewrite Hwg, navigate_absolute_returns by reflexivity. reflexivity. }
    rewrite Hcmd in Ht. cbn [orb] in Ht.
    apply end_event_needs_final_target in Ht as (p & Hp' & Hi).
    rewrite Hp in Hp'. injection Hp' as <-. cbn in Hi.
    apply negb_false_iff, Z.eqb_eq in Hi.
    cbn [m_waypoint_nav_status set_base]. lia.
Qed.

(** The first step of a sequence. *)
Lemma navigationStep_waypoints_first (i : WaypointStepInput) (w : CWaypointsNavigator)
    (w0 : TWaypointStatus) (rest : list TWaypointStatus)
    (b1 : CAbstractNavigator) (t1 : list RobotCall) :
  not_started (m_waypoint_nav_status w) ->
  waypoints (m_waypoint_nav_status w) = w0 :: rest ->
  updateCurrentPoseAndSpeeds (wp_pose i) (base w) = (b1, t1, Returned tt) ->
  navigationStep_waypoints i w
  = ({| base :=
          state_of (navigate
                      (nav_cmd_of w0 (match rest with [] => true | _ => false end))
                      {| nav_pose := wp_pose i; nav_now := wp_navigate_now i |} b1);
        m_waypoint_nav_status :=
          set_index 0%Z
            (set_last_robot_pose (pose (m_curPoseVel b1)) (m_waypoint_nav_status w));
        params_waypoints_navigator := params_waypoints_navigator w |},
     t1 ++ [sendNewWaypointTargetEvent 0], Returned tt).
Proof.
  intros [Hi Hf] Hw Hu.
  destruct w as [b [wps ts fin idx lrp] pars]. cbn in Hi, Hf, Hw, Hu. subst.
  unfold navigationStep_waypoints, on_base, lift, modify_status, nav_cmd_of.
  unfold_run. wp_simpl. rewrite Hu. wp_step.
  assert (Hw0 : at_index (w0 :: rest) 0 = Some w0) by reflexivity.
  assert (Hsz : (0 < size (w0 :: rest))%Z) by (unfold size; cbn; lia).
  wp_step. rewrite Hw0. wp_step.
  rewrite !navigate_absolute_returns by reflexivity. wp_step.
  assert (Hfin : (0 + 1 =? size (w0 :: rest))%Z
                 = match rest with [] => true | _ => false end).
  { destruct rest; [reflexivity|]. apply Z.eqb_neq. unfold size. cbn. lia. }
  rewrite Hfin. reflexivity.
Qed.

(** X15: The first step after a request always selects the first
    waypoint: the reachability test is not consulted, no counter and no
    flag changes, [sendNewWaypointTargetEvent(0)] is the only event, and
    the base navigator is sent to waypoint 0 (as an intermediary target
    unless it is the only waypoint). *)
Theorem first_step_selects_first_waypoint (i : WaypointStepInput)
    (w : CWaypointsNavigator) (w0 : TWaypointStatus) (rest : list TWaypointStatus)
    (b1 : CAbstractNavigator) (t1 : list RobotCall) :
  not_started (m_waypoint_nav_status w) ->
  waypoints (m_waypoint_nav_status w) = w0 :: rest ->
  updateCurrentPoseAndSpeeds (wp_pose i) (base w) = (b1, t1, Returned tt) ->
  let r := navigationStep_waypoints i w in
  outcome_of r = Returned tt /\
  waypoint_index_current_goal (m_waypoint_nav_status (state_of r)) = 0%Z /\
  waypoints (m_waypoint_nav_status (state_of r)) = w0 :: rest /\
  final_goal_reached (m_waypoint_nav_status (state_of r)) = false /\
  trace_of r = t1 ++ [sendNewWaypointTargetEvent 0] /\
  m_navigationState (base (state_of r)) = NAVIGATING /\
  m_navigationParams (base (state_of r))
  = Some (nav_cmd_of w0 (match rest with [] => true | _ => false end)).
Proof.
  intros Hns Hw Hu. cbv zeta.
  rewrite (navigationStep_waypoints_first i w w0 rest b1 t1 Hns Hw Hu).
  rewrite navigate_absolute_returns by reflexivity. cbn.
  destruct Hns as [_ Hf]. repeat split; assumption.
Qed.

(** X16: A request that [navigateWaypoints] rejects because of an
    invalid waypoint nevertheless leaves a sequence pending (the valid
    waypoints before the invalid one, then default ones): the next step
    whose pose update succeeds selects waypoint 0 and starts a
    navigation. *)
Theorem rejected_request_is_started (nav_request : list TWaypoint)
    (now : TTimeStamp) (w : CWaypointsNavigator) (i : WaypointStepInput)
    (b1 : CAbstractNavigator) (t1 : list RobotCall) :
  Exists (fun wp => isValid wp = false) nav_request ->
  updateCurrentPoseAndSpeeds (wp_pose i) (base w) = (b1, t1, Returned tt) ->
  let r0 := navigateWaypoints nav_request now w in
  let r := navigationStep_waypoints i (state_of r0) in
  outcome_of r0 = Thrown /\
  outcome_of r = Returned tt /\
  waypoint_index_current_goal (m_waypoint_nav_status (state_of r)) = 0%Z /\
  trace_of r = t1 ++ [sendNewWaypointTargetEvent 0] /\
  m_navigationState (base (state_of r)) = NAVIGATING.
Proof.
  intros Hex Hu. cbv zeta.
  pose proof (navigateWaypoints_cases nav_request now w) as H. cbv zeta in H.
  destruct H as (Hb & _ & _ & Hns & _ & Hc).
  assert (Hthrown : outcome_of (navigateWaypoints nav_request now w) = Thrown /\
                    length (waypoints (m_waypoint_nav_status
                              (state_of (navigateWaypoints nav_request now w))))
                    = length nav_request).
  { destruct Hc as [(Hr & _) | [(_ & Ho & Hl) | (_ & Hv & _)]].
    - subst. inversion Hex.
    - auto.
    - exfalso. apply Exists_exists in Hex as (wp & Hin & Hwp).
      rewrite Forall_forall in Hv. rewrite (Hv wp Hin) in Hwp. discriminate. }
  destruct Hthrown as [Ho Hl]. split; [exact Ho|].
  destruct (waypoints (m_waypoint_nav_status
              (state_of (navigateWaypoints nav_request now w))))
    as [|w0 rest] eqn:Ew.
  { destruct nav_request; [inversion Hex | discriminate]. }
  rewrite <- Hb in Hu.
  rewrite (navigationStep_waypoints_first i _ w0 rest b1 t1 Hns Ew Hu).
  rewrite navigate_absolute_returns by reflexivity. cbn. repeat split.
Qed.

(** X17: With no request pending (none was made, it was cancelled, or
    its final goal is flagged), a step of the waypoint navigator is the
    step of the base class, and the waypoint status stays as it is
    whatever the number of steps. *)
Theorem steps_without_pending_request (inputs : list WaypointStepInput)
    (w : CWaypointsNavigator) :
  waypoints (m_waypoint_nav_status w) = [] \/
  final_goal_reached (m_waypoint_nav_status w) = true ->
  (forall i, CWaypointsNavigator_navigationStep i w
             = on_base (navigationStep (wp_base_step i)) w) /\
  m_waypoint_nav_status (state_of (run_steps inputs w)) = m_waypoint_nav_status w.
Proof.
  assert (Hone : forall i w1,
            waypoints (m_waypoint_nav_status w1) = [] \/
            final_goal_reached (m_waypoint_nav_status w1) = true ->
            CWaypointsNavigator_navigationStep i w1
            = on_base (navigationStep (wp_base_step i)) w1).
  { intros i w1 H. unfold CWaypointsNavigator_navigationStep, navigationStep_waypoints.
    unfold_run.
    assert (Hc : (match waypoints (m_waypoint_nav_status w1) with
                  | [] => true | _ => false end)
                 || final_goal_reached (m_waypoint_nav_status w1) = true).
    { destruct H as [-> | ->]; [reflexivity | apply orb_true_r]. }
    rewrite Hc. rewrite on_base_run. reflexivity. }
  intros H. split; [intros i; apply Hone, H|].
  revert w H. induction inputs as [|i inputs IH]; intros w H; [reflexivity|].
  cbn [run_steps]. rewrite (Hone i w H), on_base_run.
  specialize (IH (set_base (state_of (navigationStep (wp_base_step i) (base w))) w) H).
  destruct (run_steps inputs _) as [[s2 t2] o2]. cbn in IH.
  destruct (outcome_of (navigationStep (wp_base_step i) (base w))); cbn;
    try exact IH; reflexivity.
Qed.

End Heading.

(** The first tick of the waypoint-skip scenario. *)
Lemma first_step_selects_first_waypoint_witness :
  waypoint_index_current_goal
    (m_waypoint_nav_status
       (state_of (navigationStep_waypoints (ML := euclid) (tick_at_origin 1)
                    skip_scenario))) = 0%Z.
Proof.
  pose (u := updateCurrentPoseAndSpeeds (ML := euclid)
               (wp_pose (tick_at_origin 1)) (base skip_scenario)).
  apply (first_step_selects_first_waypoint (ML := euclid) (tick_at_origin 1)
           skip_scenario
           (TWaypointStatus_of (waypoint_at 1 0 true))
           [TWaypointStatus_of (waypoint_at 2 0 true);
            TWaypointStatus_of (waypoint_at 3 0 false)]
           (state_of u) (trace_of u)).
  - split; reflexivity.
  - reflexivity.
  - vm_compute. reflexivity.
Defined.

(** A request whose second waypoint has no target. *)
Lemma rejected_request_is_started_witness :
  let r0 := navigateWaypoints (ML := euclid)
              [waypoint_at 1 0 true; TWaypoint_ctor (ML := euclid)] 10000000
              (CWaypointsNavigator_ctor (ML := euclid) 0 0) in
  outcome_of r0 = Thrown /\
  m_navigationState
    (base (state_of (navigationStep_waypoints (ML := euclid) (tick_at_origin 1)
                       (state_of r0)))) = NAVIGATING.
Proof.
  pose (u := updateCurrentPoseAndSpeeds (ML := euclid)
               (wp_pose (tick_at_origin 1))
               (base (CWaypointsNavigator_ctor (ML := euclid) 0 0))).
  destruct (rejected_request_is_started (ML := euclid)
              [waypoint_at 1 0 true; TWaypoint_ctor (ML := euclid)] 10000000
              (CWaypointsNavigator_ctor (ML := euclid) 0 0) (tick_at_origin 1)
              (state_of u) (trace_of u)) as (H1 & _ & _ & _ & H5).
  - apply Exists_cons_tl, Exists_cons_hd. vm_compute. reflexivity.
  - vm_compute. reflexivity.
  - split; [exact H1 | exact H5].
Defined.

(** After a cancel. *)
Lemma steps_without_pending_request_witness :
  m_waypoint_nav_status
    (state_of (run_steps (ML := euclid) [tick_at_origin 1; tick_at_origin 2]
                 (state_of (CWaypointsNavigator_cancel (ML := euclid) skip_scenario))))
  = m_waypoint_nav_status
      (state_of (CWaypointsNavigator_cancel (ML := euclid) skip_scenario)).
Proof.
  apply (steps_without_pending_request (ML := euclid)
           [tick_at_origin 1; tick_at_origin 2]
           (state_of (CWaypointsNavigator_cancel (ML := euclid) skip_scenario))).
  left. reflexivity.
Defined.

(** * Further properties of the reactive pipeline *)

(** ** The safety ramp *)

Section SafetyRamp.
Context {ML : MathLib}.

(** What [build_movement_candidate_safety] returns. *)
Lemma build_movement_candidate_safety_run (r : CAbstractPTGBasedReactive)
    (ptg : CParameterizedTrajectoryGenerator) (tp_obs : list double)
    (direction speed : double) (sc : SafetyScaling) :
  build_movement_candidate_safety r ptg tp_obs direction speed = Returned sc ->
  let pars := params_abstract_ptg_navigator r in
  let o := obsFreeNormalizedDistance sc in
  exists obs,
    at_index tp_obs (kDirection sc) = Some obs /\
    secure_distance_start pars < secure_distance_end pars /\
    o = (if supportVelCmdNOP ptg then
           Qmin obs
             (Qmax (90 # 100)
                (obs
                 - hypot (vx (velLocal (m_curPoseVel (base (waypoints_navigator r)))))
                     (vy (velLocal (m_curPoseVel (base (waypoints_navigator r)))))
                   * maxTimeInVelCmdNOP ptg (kDirection sc)))
         else obs) /\
    velScale sc
    = (if Qltb o (secure_distance_end pars) then
         if Qleb o (secure_distance_start pars) then 0
         else (o - secure_distance_start pars)
              / (secure_distance_end pars - secure_distance_start pars)
       else 1) /\
    cm_speed sc = speed * velScale sc.
Proof.
  unfold build_movement_candidate_safety.
  destruct (at_index tp_obs (alpha2index ptg direction)) as [obs|] eqn:Eo;
    [|discriminate].
  destruct (Qgtb (secure_distance_end (params_abstract_ptg_navigator r))
              (secure_distance_start (params_abstract_ptg_navigator r))) eqn:Es;
    [|discriminate].
  cbn [negb]. intros H. injection H as <-. cbn.
  exists obs. repeat split; try assumption. apply Qgtb_gt. exact Es.
Qed.

(** The ramp, as a function of the free distance. *)
Lemma ramp_bounds (s e o : Q) :
  s < e ->
  let v := if Qltb o e then if Qleb o s then 0 else (o - s) / (e - s) else 1 in
  0 <= v /\ v <= 1 /\ (v == 0 <-> o <= s) /\ (v == 1 <-> e <= o).
Proof.
  intros Hse. cbv zeta.
  assert (Hd : 0 < e - s) by (unfold Qminus; rewrite <- Qlt_minus_iff; exact Hse).
  destruct (Qltb o e) eqn:E1.
  - apply Qltb_lt in E1. destruct (Qleb o s) eqn:E2.
    + apply Qleb_le in E2. split; [apply Qle_refl|]. split; [discriminate|].
      split; [split; [intros _; exact E2 | reflexivity]|].
      split; [intros H; discriminate|].
      intros H. exfalso. apply (Qlt_irrefl o). apply (Qlt_le_trans _ e); assumption.
    + assert (Hso : s < o).
      { apply Qnot_le_lt. intros H. apply Qleb_le in H. congruence. }
      assert (Hpos : 0 < (o - s) / (e - s)).
      { apply Qlt_shift_div_l; [exact Hd|]. rewrite Qmult_0_l.
        unfold Qminus. rewrite <- Qlt_minus_iff. exact Hso. }
      assert (Hlt1 : (o - s) / (e - s) < 1).
      { apply Qlt_shift_div_r; [exact Hd|]. rewrite Qmult_1_l.
        unfold Qminus. apply Qplus_lt_l. exact E1. }
      split; [apply Qlt_le_weak; exact Hpos|].
      split; [apply Qlt_le_weak; exact Hlt1|]. split; split.
      * intros H. rewrite H in Hpos. exfalso. apply (Qlt_irrefl 0 Hpos).
      * intros H. exfalso. apply (Qlt_irrefl s). apply (Qlt_le_trans _ o); assumption.
      * intros H. rewrite H in Hlt1. exfalso. apply (Qlt_irrefl 1 Hlt1).
      * intros H. exfalso. apply (Qlt_irrefl o). apply (Qlt_le_trans _ e); assumption.
  - apply Qltb_ge in E1. split; [discriminate|]. split; [apply Qle_refl|].
    split; [|split; [intros _; exact E1 | reflexivity]].
    split; [intros H; discriminate|].
    intros H. exfalso. apply (Qlt_irrefl s).
    apply (Qlt_le_trans _ e); [exact Hse|]. apply (Qle_trans _ o); assumption.
Qed.

Lemma ramp_monotone (s e o1 o2 : Q) :
  s < e -> o1 <= o2 ->
  (if Qltb o1 e then if Qleb o1 s then 0 else (o1 - s) / (e - s) else 1)
  <= (if Qltb o2 e then if Qleb o2 s then 0 else (o2 - s) / (e - s) else 1).
Proof.
  intros Hse Ho.
  assert (Hd : 0 < e - s) by (unfold Qminus; rewrite <- Qlt_minus_iff; exact Hse).
  pose proof (ramp_bounds s e o1 Hse) as (B1 & B2 & B3 & B4).
  pose proof (ramp_bounds s e o2 Hse) as (C1 & C2 & C3 & C4).
  cbv zeta in *.
  destruct (Qltb o2 e) eqn:E2; [|exact B2].
  apply Qltb_lt in E2.
  assert (E1 : Qltb o1 e = true)
    by (apply Qltb_lt; apply (Qle_lt_trans _ o2); assumption).
  rewrite E1 in *.
  destruct (Qleb o1 s) eqn:L1; [exact C1|].
  assert (L2 : Qleb o2 s = false).
  { destruct (Qleb o2 s) eqn:L2; [|reflexivity]. apply Qleb_le in L2.
    assert (H : Qleb o1 s = true)
      by (apply Qleb_le; apply (Qle_trans _ o2); assumption).
    congruence. }
  rewrite L2. unfold Qdiv. apply Qmult_le_compat_r.
  - unfold Qminus. apply Qplus_le_l. exact Ho.
  - apply Qlt_le_weak, Qinv_lt_0_compat. exact Hd.
Qed.

(** X18: The safety scaling never speeds the robot up and stops it near
    obstacles: the scale lies in [0, 1]; it is 0 whenever the
    obstacle-free distance is at or below [secure_distance_start] and 1
    whenever it is at or above [secure_distance_end]; that distance
    never exceeds the TP-obstacle distance at the chosen direction; and a
    non-negative speed chosen by the holonomic method is scaled to a
    speed between 0 and itself. *)
Theorem safety_scale_bounds (r : CAbstractPTGBasedReactive)
    (ptg : CParameterizedTrajectoryGenerator) (tp_obs : list double)
    (direction speed : double) (sc : SafetyScaling) :
  build_movement_candidate_safety r ptg tp_obs direction speed = Returned sc ->
  let pars := params_abstract_ptg_navigator r in
  0 <= velScale sc /\ velScale sc <= 1 /\
  (obsFreeNormalizedDistance sc <= secure_distance_start pars -> velScale sc == 0) /\
  (secure_distance_end pars <= obsFreeNormalizedDistance sc -> velScale sc == 1) /\
  (forall obs, at_index tp_obs (kDirection sc) = Some obs ->
     obsFreeNormalizedDistance sc <= obs) /\
  (0 <= speed -> 0 <= cm_speed sc /\ cm_speed sc <= speed).
Proof.
  intros H. cbv zeta.
  destruct (build_movement_candidate_safety_run _ _ _ _ _ _ H)
    as (obs & Hobs & Hse & Ho & Hv & Hc).
  pose proof (ramp_bounds _ _ (obsFreeNormalizedDistance sc) Hse) as (B1 & B2 & B3 & B4).
  cbv zeta in *. rewrite Hc, Hv.
  split; [exact B1|]. split; [exact B2|].
  split; [exact (proj2 B3)|]. split; [exact (proj2 B4)|].
  split.
  - intros obs' Hobs'. rewrite Hobs in Hobs'. injection Hobs' as <-.
    rewrite Ho. destruct (supportVelCmdNOP ptg); [apply Q.le_min_l | apply Qle_refl].
  - intros Hs. split.
    + apply Qmult_le_0_compat; [exact Hs | exact B1].
    + rewrite <- (Qmult_1_r speed) at 2.
      rewrite !(Qmult_comm speed). apply Qmult_le_compat_r; [exact B2 | exact Hs].
Qed.

(** X19: More free space never means a lower speed scale: for the same
    navigator, PTG and direction, a larger TP-obstacle distance at the
    chosen direction gives a scale that is at least as large. *)
Theorem safety_scale_monotone (r : CAbstractPTGBasedReactive)
    (ptg : CParameterizedTrajectoryGenerator) (tp_obs1 tp_obs2 : list double)
    (direction speed : double) (sc1 sc2 : SafetyScaling) (obs1 obs2 : double) :
  build_movement_candidate_safety r ptg tp_obs1 direction speed = Returned sc1 ->
  build_movement_candidate_safety r ptg tp_obs2 direction speed = Returned sc2 ->
  at_index tp_obs1 (alpha2index ptg direction) = Some obs1 ->
  at_index tp_obs2 (alpha2index ptg direction) = Some obs2 ->
  obs1 <= obs2 ->
  velScale sc1 <= velScale sc2.
Proof.
  intros H1 H2 Ho1 Ho2 Hle.
  assert (K1 : kDirection sc1 = alpha2index ptg direction).
  { unfold build_movement_candidate_safety in H1. rewrite Ho1 in H1.
    destruct (negb _); [discriminate|]. injection H1 as <-. reflexivity. }
  assert (K2 : kDirection sc2 = alpha2index ptg direction).
  { unfold build_movement_candidate_safety in H2. rewrite Ho2 in H2.
    destruct (negb _); [discriminate|]. injection H2 as <-. reflexivity. }
  destruct (build_movement_candidate_safety_run _ _ _ _ _ _ H1)
    as (o1 & Hobs1 & Hse & Hf1 & Hv1 & _).
  destruct (build_movement_candidate_safety_run _ _ _ _ _ _ H2)
    as (o2 & Hobs2 & _ & Hf2 & Hv2 & _).
  cbv zeta in *. rewrite K1 in *. rewrite K2 in *.
  rewrite Ho1 in Hobs1. injection Hobs1 as <-.
  rewrite Ho2 in Hobs2. injection Hobs2 as <-.
  rewrite Hv1, Hv2. apply ramp_monotone; [exact Hse|].
  rewrite Hf1, Hf2. destruct (supportVelCmdNOP ptg); [|exact Hle].
  apply Q.min_le_compat; [exact Hle|].
  apply Q.max_le_compat; [apply Qle_refl|].
  unfold Qminus. apply Qplus_le_l. exact Hle.
Qed.

End SafetyRamp.

(** A path free up to 0.125 with the ramp between 0.05 and 0.20. *)
Lemma safety_scale_bounds_witness :
  exists sc,
    build_movement_candidate_safety (ML := euclid) (reactive_with (1 # 8) 20000000)
      (one_path_ptg (1 # 20)) [1 # 8] 0 1 = Returned sc /\
    0 <= velScale sc /\ velScale sc <= 1.
Proof.
  pose (r := build_movement_candidate_safety (ML := euclid)
               (reactive_with (1 # 8) 20000000) (one_path_ptg (1 # 20)) [1 # 8] 0 1).
  assert (H : exists sc, r = Returned sc) by (eexists; vm_compute; reflexivity).
  destruct H as (sc & Hsc). exists sc. split; [exact Hsc|].
  destruct (safety_scale_bounds (ML := euclid) _ _ _ _ _ sc Hsc) as (H1 & H2 & _).
  split; assumption.
Defined.

(** Paths free up to 0.10 and up to 0.15. *)
Lemma safety_scale_monotone_witness :
  exists sc1 sc2,
    build_movement_candidate_safety (ML := euclid) (reactive_with (1 # 8) 20000000)
      (one_path_ptg (1 # 20)) [10 # 100] 0 1 = Returned sc1 /\
    build_movement_candidate_safety (ML := euclid) (reactive_with (1 # 8) 20000000)
      (one_path_ptg (1 # 20)) [15 # 100] 0 1 = Returned sc2 /\
    velScale sc1 <= velScale sc2.
Proof.
  pose (r1 := build_movement_candidate_safety (ML := euclid)
                (reactive_with (1 # 8) 20000000) (one_path_ptg (1 # 20))
                [10 # 100] 0 1).
  pose (r2 := build_movement_candidate_safety (ML := euclid)
                (reactive_with (1 # 8) 20000000) (one_path_ptg (1 # 20))
                [15 # 100] 0 1).
  assert (H1 : exists sc, r1 = Returned sc) by (eexists; vm_compute; reflexivity).
  assert (H2 : exists sc, r2 = Returned sc) by (eexists; vm_compute; reflexivity).
  destruct H1 as (sc1 & Hsc1). destruct H2 as (sc2 & Hsc2).
  exists sc1, sc2. split; [exact Hsc1|]. split; [exact Hsc2|].
  apply (safety_scale_monotone (ML := euclid) _ _ _ _ _ _ sc1 sc2
           (10 # 100) (15 # 100) Hsc1 Hsc2).
  - reflexivity.
  - reflexivity.
  - vm_compute. discriminate.
Defined.

(** ** The command stage *)

Section CommandStage.
Context {ML : MathLib}.

Lemma on_navigator_run {A} (m : Run CAbstractNavigator A)
    (r : CAbstractPTGBasedReactive) :
  on_navigator m r
  = (set_waypoints_navigator
       (set_base (state_of (m (base (waypoints_navigator r))))
          (waypoints_navigator r)) r,
     trace_of (m (base (waypoints_navigator r))),
     outcome_of (m (base (waypoints_navigator r)))).
Proof.
  unfold on_navigator, lift.
  destruct (m (base (waypoints_navigator r))) as [[s t] o]. reflexivity.
Qed.

Ltac unfold_send :=
  unfold performNavigationStep_send, try_catch_with, send_movement_command,
    on_navigator, lift; unfold_run.

(** X20: When the robot refuses the motion command of a step (a
    continuation or a new velocity command), the step commands an
    emergency stop and puts the navigator in NAV_ERROR; the remembered
    last command is left as it was, and no exception leaves the
    stage. *)
Theorem refused_command_ends_navigation (i : SendInput)
    (r : CAbstractPTGBasedReactive) :
  command_refused i r ->
  let res := performNavigationStep_send i r in
  outcome_of res = Returned tt /\
  m_navigationState (base (waypoints_navigator (state_of res))) = NAV_ERROR /\
  m_lastSentVelCmd (state_of res) = m_lastSentVelCmd r /\
  exists c, (c = changeSpeedsNOP \/ c = changeSpeeds) /\
    trace_of res
    = [c; stop true] ++ (if fill_log_record i then [getEmergencyStopCmd] else []).
Proof.
  intros [[Hb Hok] | (Hb & (ratio & Hg) & Hok)]; cbv zeta; unfold_send.
  - rewrite Hb, Hok, Z.eqb_refl, Z.ltb_irrefl, andb_false_r. cbn.
    destruct (fill_log_record i); cbn; repeat split; eauto.
  - replace (0 <=? best_ptg_idx i)%Z with true by (symmetry; apply Z.leb_le; lia).
    replace (size (PTGs r) <? best_ptg_idx i)%Z with false
      by (symmetry; apply Z.ltb_ge; lia).
    replace (best_ptg_idx i =? size (PTGs r))%Z with false
      by (symmetry; apply Z.eqb_neq; lia).
    rewrite Hg, Hok. cbn.
    destruct (fill_log_record i); cbn; repeat split; eauto.
Qed.

(** X21: A decision to stop (no candidate selected, or a stop command
    generated) does not end the navigation: the robot is stopped with
    [stop(true)], the base navigator is left as it is, and the
    remembered last command is reset, so that the continuation round of
    the next step does not consider continuing. *)
Theorem stop_decision_keeps_navigating (i : SendInput)
    (r : CAbstractPTGBasedReactive) (tim_start_iteration : TTimeStamp) :
  stop_decided i r ->
  m_navigationParams (base (waypoints_navigator r)) <> None ->
  let res := performNavigationStep_send i r in
  outcome_of res = Returned tt /\
  trace_of res = [stop true; getEmergencyStopCmd] /\
  base (waypoints_navigator (state_of res)) = base (waypoints_navigator r) /\
  m_lastSentVelCmd (state_of res) = TSentVelCmd_reset /\
  performNavigationStep_NOP (state_of res) tim_start_iteration
  = Returned NOP_not_considered.
Proof.
  intros Hstop Hp. cbv zeta.
  assert (Hres : performNavigationStep_send i r
                 = (set_lastSentVelCmd TSentVelCmd_reset
                      (set_waypoints_navigator
                         (set_base (base (waypoints_navigator r))
                            (waypoints_navigator r)) r),
                    [stop true; getEmergencyStopCmd], Returned tt)).
  { destruct Hstop as [Hb | (Hb & ratio & Hg)]; unfold_send.
    - replace (0 <=? best_ptg_idx i)%Z with false
        by (symmetry; apply Z.leb_gt; lia).
      replace (best_ptg_idx i =? size (PTGs r))%Z with false
        by (symmetry; apply Z.eqb_neq; unfold size; lia).
      reflexivity.
    - replace (0 <=? best_ptg_idx i)%Z with true by (symmetry; apply Z.leb_le; lia).
      replace (size (PTGs r) <? best_ptg_idx i)%Z with false
        by (symmetry; apply Z.ltb_ge; lia).
      replace (best_ptg_idx i =? size (PTGs r))%Z with false
        by (symmetry; apply Z.eqb_neq; lia).
      rewrite Hg. reflexivity. }
  rewrite Hres. cbn. repeat split.
  unfold performNavigationStep_NOP. cbn.
  destruct (m_navigationParams (base (waypoints_navigator r))); [reflexivity|].
  contradiction.
Qed.

(** X22: A command cannot be continued for ever: a continuation that
    the robot accepts leaves the whole navigator as it is, in particular
    the time at which the command was sent; so after any number of
    accepted continuations, once the time since the command was sent
    reaches the maximum its PTG allows for its path, the continuation
    round does not consider continuing. *)
Theorem continuation_is_bounded_in_time (stages : list SendInput)
    (r : CAbstractPTGBasedReactive) (ptg : CParameterizedTrajectoryGenerator)
    (tim_start_iteration : TTimeStamp) :
  Forall (fun i => best_ptg_idx i = size (PTGs r) /\ changeSpeedsNOP_ok i = true)
    stages ->
  m_navigationParams (base (waypoints_navigator r)) <> None ->
  at_index (PTGs r) (ptg_index (m_lastSentVelCmd r)) = Some ptg ->
  maxTimeInVelCmdNOP ptg (ptg_alpha_index (m_lastSentVelCmd r))
    <= timeDifference (tim_send_cmd_vel (m_lastSentVelCmd r)) tim_start_iteration ->
  let res := run_sends stages r in
  res = (r, repeat changeSpeedsNOP (length stages), Returned tt) /\
  performNavigationStep_NOP (state_of res) tim_start_iteration
  = Returned NOP_not_considered.
Proof.
  intros Hst Hp Hptg Ht. cbv zeta.
  assert (Hrun : run_sends stages r
                 = (r, repeat changeSpeedsNOP (length stages), Returned tt)).
  { induction Hst as [|i stages [Hb Hok] _ IH]; [reflexivity|].
    cbn [run_sends length repeat].
    assert (H1 : performNavigationStep_send i r = (r, [changeSpeedsNOP], Returned tt)).
    { unfold_send.
      rewrite Hb, Hok, Z.eqb_refl, Z.ltb_irrefl, andb_false_r. reflexivity. }
    rewrite H1, IH. reflexivity. }
  rewrite Hrun. split; [reflexivity|]. cbn.
  unfold performNavigationStep_NOP.
  destruct (m_navigationParams (base (waypoints_navigator r))) as [navp|];
    [|contradiction].
  rewrite Hptg. apply Qltb_ge in Ht. rewrite Ht, andb_false_r.
  destruct (TSentVelCmd_isValid (m_lastSentVelCmd r)
            && negb (TPose2D_neqb (target navp) (m_lastTarget r))); reflexivity.
Qed.

(** X23: Whatever the optimizer chooses and the robot answers, the
    command stage acts on the base navigator as a sequence of the
    actions the base class expects of [performNavigationStep]: sending a
    velocity command or a continuation, [stop(true)], asking for the
    emergency-stop command, and [doEmergencyStop]; and it sends at most
    one motion command. *)
Theorem command_stage_is_a_reactive_step (i : SendInput)
    (r : CAbstractPTGBasedReactive) :
  let res := performNavigationStep_send i r in
  outcome_of res <> Thrown /\
  (outcome_of res <> Undefined ->
   exists acts,
     performNavigationStep acts false (base (waypoints_navigator r))
     = (base (waypoints_navigator (state_of res)), trace_of res, outcome_of res) /\
     (length (List.filter
                (fun a => match a with
                          | act_changeSpeeds | act_changeSpeedsNOP => true
                          | _ => false
                          end) acts) <= 1)%nat).
Proof.
  cbv zeta. unfold_send.
  destruct ((0 <=? best_ptg_idx i)%Z && (size (PTGs r) <? best_ptg_idx i)%Z);
    [cbn; split; [discriminate | intros H; contradiction]|].
  destruct (best_ptg_idx i =? size (PTGs r))%Z.
  { destruct (changeSpeedsNOP_ok i); cbn.
    - split; [discriminate|]. intros _. exists [act_changeSpeedsNOP].
      split; [reflexivity | cbn; lia].
    - destruct (fill_log_record i); cbn; (split; [discriminate|]); intros _.
      + exists [act_changeSpeedsNOP; act_doEmergencyStop; act_getEmergencyStopCmd].
        split; [reflexivity | cbn; lia].
      + exists [act_changeSpeedsNOP; act_doEmergencyStop].
        split; [reflexivity | cbn; lia]. }
  destruct (0 <=? best_ptg_idx i)%Z; cbn.
  2: { split; [discriminate|]. intros _.
       exists [act_stop_emergency; act_getEmergencyStopCmd].
       split; [reflexivity | cbn; lia]. }
  destruct (generated_vel_cmd i) as [[ratio [|]]|]; cbn.
  - split; [discriminate|]. intros _.
    exists [act_stop_emergency; act_getEmergencyStopCmd].
    split; [reflexivity | cbn; lia].
  - destruct (changeSpeeds_ok i); cbn.
    + destruct (at_index (PTGs r) (best_ptg_idx i)) as [ptg|];
        [|cbn; split; [discriminate | intros H; contradiction]].
      destruct (at_index (m_infoPerPTG r) (best_ptg_idx i)) as [info|];
        [|cbn; split; [discriminate | intros H; contradiction]].
      destruct (at_index (TP_Obstacles info)
                  (alpha2index ptg (selected_direction i))) as [c|];
        [|cbn; split; [discriminate | intros H; contradiction]].
      cbn. split; [discriminate|]. intros _. exists [act_changeSpeeds].
      split; [reflexivity | cbn; lia].
    + destruct (fill_log_record i); cbn; (split; [discriminate|]); intros _.
      * exists [act_changeSpeeds; act_doEmergencyStop; act_getEmergencyStopCmd].
        split; [reflexivity | cbn; lia].
      * exists [act_changeSpeeds; act_doEmergencyStop].
        split; [reflexivity | cbn; lia].
  - split; [discriminate|]. intros _. exists [act_doEmergencyStop].
    split; [reflexivity | cbn; lia].
Qed.


End CommandStage.

(** The robot refuses to go on with the last command. *)
Lemma refused_command_ends_navigation_witness :
  m_navigationState
    (base (waypoints_navigator
             (state_of (performNavigationStep_send
                          (send_input 1 false None true)
                          (reactive_with 1 20000000)))))
  = NAV_ERROR.
Proof.
  apply (refused_command_ends_navigation
           (send_input 1 false None true) (reactive_with 1 20000000)).
  left. split; reflexivity.
Defined.

(** No candidate is selected. *)
Lemma stop_decision_keeps_navigating_witness :
  let res := performNavigationStep_send
               (send_input (-1) true None true) (reactive_with 1 20000000) in
  trace_of res = [stop true; getEmergencyStopCmd] /\
  performNavigationStep_NOP (ML := euclid) (state_of res) 20200000
  = Returned NOP_not_considered.
Proof.
  destruct (stop_decision_keeps_navigating (ML := euclid)
              (send_input (-1) true None true) (reactive_with 1 20000000) 20200000)
    as (_ & H2 & _ & _ & H5).
  - left. reflexivity.
  - vm_compute. discriminate.
  - split; [exact H2 | exact H5].
Defined.

(** Two continuations of a command sent at 2.0 s, which may be continued
    for 0.5 s; the next step starts at 2.6 s. *)
Lemma continuation_is_bounded_in_time_witness :
  performNavigationStep_NOP (ML := euclid)
    (state_of (run_sends
                 [send_input 1 true None true; send_input 1 true None true]
                 (reactive_with 1 20000000))) 26000000
  = Returned NOP_not_considered.
Proof.
  apply (continuation_is_bounded_in_time (ML := euclid)
           [send_input 1 true None true; send_input 1 true None true]
           (reactive_with 1 20000000) (one_path_ptg (1 # 2)) 26000000).
  - repeat constructor.
  - vm_compute. discriminate.
  - reflexivity.
  - vm_compute. discriminate.
Defined.


(** ** The collision-free factor *)



(** ** The domain of CPTG_DiffDrive_CS *)

Lemma Qltb_compat (a a' b b' : Q) : a == a' -> b == b' -> Qltb a b = Qltb a' b'.
Proof.
  intros Ha Hb. destruct (Qltb a' b') eqn:E.
  - apply Qltb_lt. apply Qltb_lt in E. rewrite Ha, Hb. exact E.
  - apply Qltb_ge. apply Qltb_ge in E. rewrite Ha, Hb. exact E.
Qed.

(** X26: The domain of the PTG: a point behind the robot (on the side
    opposite to the sense of the paths) is never in it; the domain is
    symmetric with respect to the robot's axis; and the domain of the
    PTG with the paths in the opposite sense is its mirror image. *)
Theorem PTG_domain_symmetries (p : CPTG_DiffDrive_CS) (x y : double) :
  (K p * x < 0 -> PTG_IsIntoDomain p x y = false) /\
  PTG_IsIntoDomain p x (- y) = PTG_IsIntoDomain p x y /\
  PTG_IsIntoDomain (reversed p) (- x) y = PTG_IsIntoDomain p x y.
Proof.
  unfold PTG_IsIntoDomain, reversed, Qgtb, Qleb, Qsquare. cbn [K R].
  split; [|split].
  - intros H. apply Qltb_lt in H. rewrite H. reflexivity.
  - rewrite (Qltb_compat (Qabs (- y)) (Qabs y) (R p) (R p))
      by (try apply Qabs_opp; reflexivity).
    rewrite (Qltb_compat (R p * R p) (R p * R p)
               (x * x + (Qabs (- y) - (R p + (10 # 100)))
                        * (Qabs (- y) - (R p + (10 # 100))))
               (x * x + (Qabs y - (R p + (10 # 100)))
                        * (Qabs y - (R p + (10 # 100)))))
      by (try reflexivity; rewrite Qabs_opp; reflexivity).
    reflexivity.
  - rewrite (Qltb_compat (- K p * - x) (K p * x) 0 0) by (try reflexivity; ring).
    rewrite (Qltb_compat (R p - (10 # 100)) (R p - (10 # 100))
               (Qabs (- x)) (Qabs x)) by (try apply Qabs_opp; reflexivity).
    rewrite (Qltb_compat (R p * R p) (R p * R p)
               (- x * - x + (Qabs y - (R p + (10 # 100)))
                            * (Qabs y - (R p + (10 # 100))))
               (x * x + (Qabs y - (R p + (10 # 100)))
                        * (Qabs y - (R p + (10 # 100)))))
      by (try reflexivity; ring).
    reflexivity.
Qed.

(** A single waypoint the robot stands on: the first step selects it
    and detects the arrival. *)
Lemma end_event_only_for_last_waypoint_witness :
  let r := CWaypointsNavigator_navigationStep (ML := euclid)
             (tick_on_first_waypoint 1)
             (state_of (run_steps (ML := euclid) []
                          (state_of (navigateWaypoints (ML := euclid)
                                       [waypoint_at 1 0 false] 10000000
                                       (CWaypointsNavigator_ctor (ML := euclid) 0 0))))) in
  invoked sendNavigationEndEvent (trace_of r) = true /\
  waypoint_index_current_goal (m_waypoint_nav_status (state_of r)) = 0%Z.
Proof.
  cbv zeta. split; [vm_compute; reflexivity|].
  apply (end_event_only_for_last_waypoint (ML := euclid)
           [waypoint_at 1 0 false] 10000000
           (CWaypointsNavigator_ctor (ML := euclid) 0 0) []
           (tick_on_first_waypoint 1)).
  - vm_compute. discriminate.
  - vm_compute. reflexivity.
Defined.
